(** * Natural force density solver: stiffness and load assembly, inner solve,
      outer iteration, and the stress transforms of [math_utilities].

    Python floats are read as real numbers ([R]): every statement below is
    about exact arithmetic, rounding is not modelled.  Vertex identifiers
    are mesh indices and are read as natural numbers. *)

From Stdlib Require Import Reals Lra Lia List Bool Arith ZArith RNsatz Permutation.
Import ListNotations.

Open Scope R_scope.

(* ================================================================= *)
(** ** Exceptions *)

Inductive exn : Type :=
| IndexError
| ValueError
| NameError
| TypeError.

Inductive res (A : Type) : Type :=
| Ok (a : A)
| Raise (e : exn).
Arguments Ok {A} a.
Arguments Raise {A} e.

Definition bind {A B} (m : res A) (k : A -> res B) : res B :=
  match m with
  | Ok a => k a
  | Raise e => Raise e
  end.

Notation "x <- m ;; k" := (bind m (fun x => k))
  (at level 61, m at next level, right associativity).
Notation "' p <- m ;; k" := (bind m (fun x => let p := x in k))
  (at level 61, p pattern, m at next level, right associativity).

(** [mapM f l]: a Python loop or comprehension over [l] whose body may raise. *)
Fixpoint mapM {A B} (f : A -> res B) (l : list A) : res (list B) :=
  match l with
  | [] => Ok []
  | a :: l' => b <- f a ;; bs <- mapM f l' ;; Ok (b :: bs)
  end.

(* ================================================================= *)
(** ** Arrays *)

(** A length-3 array: an XYZ row, a load, or a planar stress pseudo-vector
    (σx, σy, τxy). *)
Record Vec3 : Type := vec3 { c0 : R; c1 : R; c2 : R }.

(* ================================================================= *)
(** ** math_utilities.py *)

Module MathUtilities.

Definition NpVec : Type := Vec3.
Definition npvec : R -> R -> R -> NpVec := vec3.
Definition v0 : NpVec -> R := c0.
Definition v1 : NpVec -> R := c1.
Definition v2 : NpVec -> R := c2.

(** A 2x2 array, row major. *)
Record Mat22 : Type := mat22 { m00 : R; m01 : R; m10 : R; m11 : R }.

Definition dot22 (A B : Mat22) : Mat22 :=
  mat22 (m00 A * m00 B + m01 A * m10 B) (m00 A * m01 B + m01 A * m11 B)
        (m10 A * m00 B + m11 A * m10 B) (m10 A * m01 B + m11 A * m11 B).

Definition T22 (A : Mat22) : Mat22 :=
  mat22 (m00 A) (m10 A) (m01 A) (m11 A).

Definition I22 : Mat22 := mat22 1 0 0 1.

Definition s2 (angle : R) : R := sin angle ^ 2.
Definition c2 (angle : R) : R := cos angle ^ 2.

Definition planar_rotation (angle : R) : Mat22 :=
  mat22 (cos angle) (- sin angle)
        (sin angle) (cos angle).

Definition stress_vec_to_tensor (vec : NpVec) : Mat22 :=
  mat22 (v0 vec) (v2 vec)
        (v2 vec) (v1 vec).

Definition stress_tensor_to_vec (tens : Mat22) : NpVec :=
  npvec (m00 tens) (m11 tens) (m01 tens).

Definition transform_stress (stress : NpVec) (rotation : Mat22)
    (invert : bool) : NpVec :=
  let s := stress_vec_to_tensor stress in
  let R := rotation in
  let r := if invert then dot22 (dot22 R s) (T22 R)
           else dot22 (dot22 (T22 R) s) R in
  stress_tensor_to_vec r.

Definition transform_stress_angle (stress : NpVec) (angle : R)
    (invert : bool) : NpVec :=
  let a := if invert then - angle else angle in
  let s2a := s2 a in
  let c2a := c2 a in
  let sca := sin a * cos a in
  npvec (c2a * v0 stress + s2a * v1 stress + 2 * sca * v2 stress)
        (s2a * v0 stress + c2a * v1 stress + - (2 * sca) * v2 stress)
        (- sca * v0 stress + sca * v1 stress + (c2a - s2a) * v2 stress).

(** [x == y] on floats, read on the reals. *)
Definition Reqb (x y : R) : bool := if Req_dec_T x y then true else false.

(** [max(min(num, .9999), -.9999)]. *)
Definition clamp (num : R) : R := Rmax (Rmin num (9999 / 10000)) (- (9999 / 10000)).

Definition arc_sin (num : R) : R := asin (clamp num).

Definition arc_cos (num : R) : R := acos (clamp num).

(** [hypot] of the three coordinate differences. *)
Definition euclidean_distance (pt_a pt_b : Vec3) : R :=
  sqrt ((v0 pt_a - v0 pt_b) ^ 2 + (v1 pt_a - v1 pt_b) ^ 2
        + (v2 pt_a - v2 pt_b) ^ 2).

Definition is_isotropic (vec : NpVec) : bool :=
  Reqb (v0 vec) (v1 vec) && Reqb (v2 vec) 0.

End MathUtilities.

(* ================================================================= *)
(** ** numpy arrays of shape (n, 3) and scipy sparse matrices *)

Definition vadd (a b : Vec3) : Vec3 :=
  vec3 (c0 a + c0 b) (c1 a + c1 b) (c2 a + c2 b).
Definition vsub (a b : Vec3) : Vec3 :=
  vec3 (c0 a - c0 b) (c1 a - c1 b) (c2 a - c2 b).
(** [vec * k] with a scalar [k]. *)
Definition vscale (a : Vec3) (k : R) : Vec3 :=
  vec3 (c0 a * k) (c1 a * k) (c2 a * k).
Definition vzero : Vec3 := vec3 0 0 0.
(** [numpy.linalg.norm] of one row. *)
Definition vnorm (a : Vec3) : R :=
  sqrt (c0 a ^ 2 + c1 a ^ 2 + c2 a ^ 2).

(** An array of shape (n, 3), as the list of its rows. *)
Definition Arr : Type := list Vec3.

(** [zeros((size, 3))]. *)
Definition zeros (size : nat) : Arr := repeat vzero size.

Fixpoint map2 {A B C} (f : A -> B -> C) (l : list A) (m : list B) : list C :=
  match l, m with
  | a :: l', b :: m' => f a b :: map2 f l' m'
  | _, _ => []
  end.

(** An elementwise operation on two arrays of shapes (n, 3) and (m, 3):
    numpy broadcasts a single row against any number of rows, and raises
    when the row counts differ otherwise. *)
Definition broadcast (f : Vec3 -> Vec3 -> Vec3) (a b : Arr) : res Arr :=
  if (length a =? length b)%nat then Ok (map2 f a b)
  else match a, b with
       | [x], _ => Ok (map (f x) b)
       | _, [y] => Ok (map (fun x => f x y) a)
       | _, _ => Raise ValueError
       end.

(** [a - b]. *)
Definition asub (a b : Arr) : res Arr := broadcast vsub a b.

(** [norm(a, axis=1)]. *)
Definition norm_axis1 (a : Arr) : list R := map vnorm a.

Definition Rsum (l : list R) : R := fold_right Rplus 0 l.

(** [numpy.average] of a 1-d array; the mean of an empty array is NaN,
    written [None]. *)
Definition average (l : list R) : option R :=
  match l with
  | [] => None
  | _ => Some (Rsum l / INR (length l))
  end.

(** Python's builtin [max] over a sequence; raises on an empty one. *)
Definition py_max (l : list R) : res R :=
  match l with
  | [] => Raise ValueError
  | x :: l' => Ok (fold_left Rmax l' x)
  end.

Definition Rltb (x y : R) : bool := if Rlt_dec x y then true else false.

(** [x < y] where [x] may be NaN: every comparison with NaN is false. *)
Definition nan_ltb (x : option R) (y : R) : bool :=
  match x with
  | Some x => Rltb x y
  | None => false
  end.

(** [a[ids]]: the rows of [a] at the positions [ids]. *)
Definition take_rows (a : Arr) (ids : list nat) : res Arr :=
  mapM (fun i => match nth_error a i with
                 | Some row => Ok row
                 | None => Raise IndexError
                 end) ids.

Fixpoint set_nth {A} (l : list A) (i : nat) (x : A) : list A :=
  match l, i with
  | [], _ => []
  | _ :: l', O => x :: l'
  | y :: l', S i' => y :: set_nth l' i' x
  end.

(** The scatter of an indexed assignment: row [ids[k]] becomes [vals[k]],
    in order, so a later position overwrites an earlier one. *)
Fixpoint scatter (a : Arr) (ids : list nat) (vals : Arr) : Arr :=
  match ids, vals with
  | i :: ids', x :: vals' => scatter (set_nth a i x) ids' vals'
  | _, _ => a
  end.

(** [a[ids] = vals]: every index must be in range, and [vals] has one row
    per index or a single row that is broadcast. *)
Definition set_rows (a : Arr) (ids : list nat) (vals : Arr) : res Arr :=
  if forallb (fun i => i <? length a)%nat ids then
    if (length vals =? length ids)%nat then Ok (scatter a ids vals)
    else match vals with
         | [x] => Ok (scatter a ids (repeat x (length ids)))
         | _ => Raise ValueError
         end
  else Raise IndexError.

(** [a[ids, :] += v]: numpy gathers the rows, adds, and assigns back, so a
    row listed twice in [ids] still receives [v] once. *)
Definition iadd_rows (a : Arr) (ids : list nat) (v : Vec3) : res Arr :=
  rows <- take_rows a ids ;;
  set_rows a ids (map (fun row => vadd row v) rows).

(** A matrix in scipy's sparse formats, read densely: the column count and
    the list of rows. *)
Record Mat : Type := mkMat { ncols : nat; mrows : list (list R) }.

Definition entry (M : Mat) (i j : nat) : R := nth j (nth i (mrows M) []) 0.

(** The value that [tocsr] stores at (i, j): duplicate triplets are summed. *)
Fixpoint coo_sum (data : list R) (rows cols : list nat) (i j : nat) : R :=
  match data, rows, cols with
  | d :: data', r :: rows', c :: cols' =>
      (if (r =? i)%nat && (c =? j)%nat then d else 0)
      + coo_sum data' rows' cols' i j
  | _, _, _ => 0
  end.

(** [coo_matrix((data, (rows, cols)), shape).tocsr()]; an index outside the
    shape raises. *)
Definition coo_matrix (data : list R) (rows cols : list nat)
    (shape : nat * nat) : res Mat :=
  if forallb (fun r => r <? fst shape)%nat rows
     && forallb (fun c => c <? snd shape)%nat cols
  then Ok (mkMat (snd shape)
             (map (fun i => map (fun j => coo_sum data rows cols i j)
                              (seq 0 (snd shape)))
                  (seq 0 (fst shape))))
  else Raise ValueError.

(** [M[ix_(rs, cs)]]. *)
Definition ix_ (M : Mat) (rs cs : list nat) : res Mat :=
  if forallb (fun i => i <? length (mrows M))%nat rs
     && forallb (fun j => j <? ncols M)%nat cs
  then Ok (mkMat (length cs)
             (map (fun i => map (fun j => entry M i j) cs) rs))
  else Raise IndexError.

(** One row of [M.dot(x)]: the sum of the rows of [x] weighted by the
    entries of the matrix row. *)
Fixpoint dot_row (row : list R) (x : Arr) : Vec3 :=
  match row, x with
  | m :: row', xj :: x' => vadd (vscale xj m) (dot_row row' x')
  | _, _ => vzero
  end.

(** [M.dot(x)] for [x] of shape (n, 3); the inner dimensions must agree. *)
Definition dot (M : Mat) (x : Arr) : res Arr :=
  if (ncols M =? length x)%nat
  then Ok (map (fun row => dot_row row x) (mrows M))
  else Raise ValueError.

(* ================================================================= *)
(** ** Geometry elements *)

(** A 3x3 array, by rows. *)
Record Mat33 : Type := mat33 { r0 : Vec3; r1 : Vec3; r2 : Vec3 }.

Definition vdot (a b : Vec3) : R := c0 a * c0 b + c1 a * c1 b + c2 a * c2 b.

(** [R.dot(v)] for a 3x3 [R]. *)
Definition mat33_dot (M : Mat33) (v : Vec3) : Vec3 :=
  vec3 (vdot (r0 M) v) (vdot (r1 M) v) (vdot (r2 M) v).

(** A compas frame: origin and two in-plane axes. *)
Record Frame : Type := mkFrame { point : Vec3; xaxis : Vec3; yaxis : Vec3 }.

(** Modelled from the spec: the module [geometry] that defines
    [NaturalFace] and [NaturalEdge] is not among the sources.  A face is the
    ordered list of its vertex indices, its goal stress pseudo-vector, its
    local frame and area, and its derived force densities; an edge is a pair
    of vertex indices and a force density.  The fields are the attributes
    that the assemblers and the solver read. *)
Record NaturalFace : Type := mkFace {
  face_vertices_ids : list nat;
  face_force_densities : list R;
  face_area : R;
  face_frame : Frame;
  face_stress_goal : Vec3
}.

Record NaturalEdge : Type := mkEdge {
  edge_vertices_ids : nat * nat;
  edge_force_density : R
}.

(** Modelled from the spec: [len(face)] is the vertex count of the face. *)
Definition face_len (face : NaturalFace) : nat :=
  length (face_vertices_ids face).

(** The methods of the absent [geometry] module and the library calls, as
    an interface: [update_xyz] of faces and edges, the class methods
    [get_stresses], [get_stress_goals] and [get_forces], the [amplitudes]
    attribute of a stress result, scipy's [spsolve] and the upper-left 3x3
    block of compas' [Rotation.from_frame]. *)
Class Geometry : Type := {
  StressResult : Type;
  face_update_xyz : Arr -> NaturalFace -> NaturalFace;
  edge_update_xyz : Arr -> NaturalEdge -> NaturalEdge;
  get_stresses : list NaturalFace -> Arr -> Z -> StressResult;
  amplitudes : StressResult -> Arr;
  get_stress_goals : list NaturalFace -> Arr;
  get_forces : list NaturalEdge -> Arr -> list R;
  spsolve : Mat -> Arr -> res Arr;
  Rotation_from_frame : Frame -> Mat33
}.

(* ================================================================= *)
(** ** matrices.py *)

Module StiffnessMatrixAssembler.

(** The object while [__init__] runs: the three triplet lists. *)
Record lists : Type := mkLists {
  data : list R;
  rows : list nat;
  cols : list nat
}.

Record t : Type := mk {
  free : list nat;
  fixed : list nat;
  coo : lists;
  _mat : Mat
}.

Definition _add_tri_face (self : lists) (face : NaturalFace) : res lists :=
  match face_vertices_ids face with
  | [v0; v1; v2] =>
    match face_force_densities face with
    | [n0; n1; n2] =>
      Ok (mkLists
            (data self ++ [n1 + n2; - n2; - n1;
                           - n2; n0 + n2; - n0;
                           - n1; - n0; n0 + n1])
            (rows self ++ repeat v0 3 ++ repeat v1 3 ++ repeat v2 3)
            (cols self ++ concat (repeat [v0; v1; v2] 3)))
    | _ => Raise ValueError
    end
  | _ => Raise ValueError
  end.

Definition _add_quad_face (self : lists) (face : NaturalFace) : res lists :=
  match face_vertices_ids face with
  | [v0; v1; v2; v3] =>
    match face_force_densities face with
    | [n0; n1; n2; n3; n4; n5] =>
      Ok (mkLists
            (data self ++ [n0 + n3 + n5; - n0; - n5; - n3;
                           - n0; n0 + n1 + n4; - n1; - n4;
                           - n5; - n1; n1 + n2 + n5; - n2;
                           - n3; - n4; - n2; n2 + n3 + n4])
            (rows self ++ repeat v0 4 ++ repeat v1 4 ++ repeat v2 4
                       ++ repeat v3 4)
            (cols self ++ concat (repeat [v0; v1; v2; v3] 4)))
    | _ => Raise ValueError
    end
  | _ => Raise ValueError
  end.

Fixpoint _add_faces (self : lists) (faces : list NaturalFace) : res lists :=
  match faces with
  | [] => Ok self
  | face :: faces' =>
    let fv_count := face_len face in
    self' <- (if (fv_count =? 3)%nat then _add_tri_face self face
              else if (fv_count =? 4)%nat then _add_quad_face self face
              else Ok self) ;;
    _add_faces self' faces'
  end.

Fixpoint _add_edges (self : lists) (edges : list NaturalEdge) : lists :=
  match edges with
  | [] => self
  | edge :: edges' =>
    let '(v0, v1) := edge_vertices_ids edge in
    let n := edge_force_density edge in
    _add_edges (mkLists (data self ++ [n; n; - n; - n])
                        (rows self ++ [v0; v1; v0; v1])
                        (cols self ++ [v0; v1; v1; v0]))
               edges'
  end.

Definition __init__ (free fixed : list nat) (edges : list NaturalEdge)
    (faces : list NaturalFace) : res t :=
  let self := mkLists [] [] [] in
  self <- _add_faces self faces ;;
  let self := _add_edges self edges in
  let v_count := length (free ++ fixed) in
  m <- coo_matrix (data self) (rows self) (cols self) (v_count, v_count) ;;
  Ok (mk free fixed self m).

Definition matrix (self : t) : Mat := _mat self.
Definition free_matrix (self : t) : res Mat :=
  ix_ (_mat self) (free self) (free self).
Definition fixed_matrix (self : t) : res Mat :=
  ix_ (_mat self) (free self) (fixed self).

End StiffnessMatrixAssembler.

Module LoadMatrixAssembler.

(** [self.faces] is a reference to the list of face objects that the solver
    updates in place: the record does not hold a copy, the methods take the
    current faces. *)
Record t : Type := mk {
  _vertices_mat : Arr;
  _gfl : option Arr;
  _lfl : option Arr;
  _has_face_loads : bool;
  _mat : Arr
}.

Definition matrix (self : t) : Arr := _mat self.

Definition set_mat (self : t) (m : Arr) : t :=
  mk (_vertices_mat self) (_gfl self) (_lfl self) (_has_face_loads self) m.

(** [asarray(loads).reshape(-1, 3) if loads is not None else default]. *)
Definition _load_mat (loads : option Arr) (default : option Arr)
    : option Arr :=
  match loads with
  | Some l => Some l
  | None => default
  end.

Section WithGeometry.
Context {G : Geometry}.

(** The body of the loop of [_add_face_loads] over
    [zip(self.faces, face_loads)].  The quotient [face.area / len(face)] is
    the real quotient; a face without vertices has no row to add to. *)
Fixpoint _add_face_loads_zip (m : Arr) (local : bool)
    (faces : list NaturalFace) (face_loads : Arr) : res Arr :=
  match faces, face_loads with
  | face :: faces', face_load :: face_loads' =>
    let vertex_load := vscale face_load (face_area face / INR (face_len face)) in
    let vertex_load :=
      if local then mat33_dot (Rotation_from_frame (face_frame face)) vertex_load
      else vertex_load in
    m' <- iadd_rows m (face_vertices_ids face) vertex_load ;;
    _add_face_loads_zip m' local faces' face_loads'
  | _, _ => Ok m
  end.

Definition _add_face_loads (self : t) (faces : list NaturalFace)
    (local : bool) : res t :=
  let face_loads := if local then _lfl self else _gfl self in
  match face_loads with
  | Some face_loads =>
    m <- _add_face_loads_zip (_mat self) local faces face_loads ;;
    Ok (set_mat self m)
  | None => Raise TypeError
  end.

Definition update (self : t) (faces : list NaturalFace) : res t :=
  if negb (_has_face_loads self) then Ok self
  else
    let self := set_mat self (_vertices_mat self) in
    self <- (match _gfl self with
             | Some _ => _add_face_loads self faces false
             | None => Ok self
             end) ;;
    match _lfl self with
    | Some _ => _add_face_loads self faces true
    | None => Ok self
    end.

Definition __init__ (size : nat) (faces : list NaturalFace)
    (vertex_loads global_face_loads local_face_loads : option Arr) : res t :=
  let vertices_mat :=
    match _load_mat vertex_loads (Some (zeros size)) with
    | Some m => m
    | None => zeros size
    end in
  let gfl := _load_mat global_face_loads None in
  let lfl := _load_mat local_face_loads None in
  let has_face_loads :=
    match gfl, lfl with
    | None, None => false
    | _, _ => true
    end in
  update (mk vertices_mat gfl lfl has_face_loads vertices_mat) faces.

End WithGeometry.
End LoadMatrixAssembler.

(* ================================================================= *)
(** ** nfd_numpy.py *)

Module NfdNumpy.

(** Coordinate arrays live in a heap and are passed by reference: the heap
    is the list of the arrays allocated so far. *)
Definition loc : Type := nat.
Definition Heap : Type := list Arr.

Definition alloc (h : Heap) (a : Arr) : Heap * loc := (h ++ [a], length h).

Definition load (h : Heap) (l : loc) : res Arr :=
  match nth_error h l with
  | Some a => Ok a
  | None => Raise NameError
  end.

Definition store (h : Heap) (l : loc) (a : Arr) : Heap := set_nth h l a.

(** The objects a run works on.  [faces], [edges] and [loads] are the
    mutable objects that [_nfd_solve] receives by reference and updates in
    place. *)
Record World : Type := mkWorld {
  heap : Heap;
  faces : list NaturalFace;
  edges : list NaturalEdge;
  loads : LoadMatrixAssembler.t
}.

(** What [_output_message] prints ([round(_, 5)] of the residuals is left
    out). *)
Inductive message : Type :=
| Convergence_reached (iterations : Z)
| No_convergence_reached (iterations : Z) (s_res : option R) (xyz_d : R).

Definition _output_message (converged : bool) (k : Z) (s_res : option R)
    (xyz_d : R) : message :=
  if converged then Convergence_reached (k + 1)
  else No_convergence_reached (k + 1) s_res xyz_d.

Section WithGeometry.
Context {G : Geometry}.

(** [free = list(set(range(v)) - set(fixed))].  Python leaves the order of
    a set open; the indices are enumerated in increasing order here.  The
    solve uses the one list [free] throughout. *)
Definition free_of (v : nat) (fixed : list nat) : list nat :=
  filter (fun i => negb (existsb (Nat.eqb i) fixed)) (seq 0 v).

(** [_nfd_solve(xyz, fixed, faces, edges, loads, s_calc)].

    Modelled from the spec: the sibling module [matrices] that this file
    imports is not among the sources.  Its [StiffnessMatrixAssembler] is
    read as the one of [compas_fd/nfd/matrices.py], which takes the same
    four inputs in the order (free, fixed, edges, faces); its attributes
    [full], [free] and [fixed] are the full matrix, the free x free block
    and the free x fixed block, which that file calls [matrix],
    [free_matrix] and [fixed_matrix]. *)
Definition _nfd_solve (w : World) (xyz : loc) (fixed : list nat)
    (s_calc : Z) : res (World * (loc * Arr * StressResult * list R)) :=
  (* pre-process vertex data *)
  a <- load (heap w) xyz ;;
  let v := length a in
  let free := free_of v fixed in
  let '(h, _xyz) := alloc (heap w) a in
  (* assemble new stiffness matrices *)
  stiff <- StiffnessMatrixAssembler.__init__ free fixed (edges w) (faces w) ;;
  let D := StiffnessMatrixAssembler.matrix stiff in
  Di <- StiffnessMatrixAssembler.free_matrix stiff ;;
  Df <- StiffnessMatrixAssembler.fixed_matrix stiff ;;
  (* get updated load matrix *)
  loads' <- LoadMatrixAssembler.update (loads w) (faces w) ;;
  let p := LoadMatrixAssembler.matrix loads' in
  (* solve for coordinates and update elements *)
  p_free <- take_rows p free ;;
  xyz_a <- load h xyz ;;
  xyz_fixed <- take_rows xyz_a fixed ;;
  Df_x <- dot Df xyz_fixed ;;
  rhs <- asub p_free Df_x ;;
  sol <- spsolve Di rhs ;;
  _xyz_a <- load h _xyz ;;
  _xyz_a <- set_rows _xyz_a free sol ;;
  let h := store h _xyz _xyz_a in
  let faces' := map (face_update_xyz _xyz_a) (faces w) in
  let edges' := map (edge_update_xyz _xyz_a) (edges w) in
  (* solve for dependent variables *)
  let s := get_stresses faces' _xyz_a s_calc in
  let f := get_forces edges' _xyz_a in
  xyz_a <- load h xyz ;;
  D_x <- dot D xyz_a ;;
  r <- asub p D_x ;;
  Ok (mkWorld h faces' edges' loads', (_xyz, r, s, f)).

(** The variables that the loop of [nfd_ur] leaves behind. *)
Record loop_vars : Type := mkVars {
  lv_xyz : loc;
  lv_r : Arr;
  lv_f : list R;
  lv_s_res : option R;
  lv_xyz_d : R;
  lv_converged : bool
}.

(** One pass through the body of the [for] loop, up to [xyz = _xyz]. *)
Definition iteration (s_tol xyz_tol : R) (fixed : list nat)
    (w : World) (xyz : loc) : res (World * loop_vars) :=
  '(w, (_xyz, r, s, f)) <- _nfd_solve w xyz fixed (-1) ;;
  let s_goals := get_stress_goals (faces w) in
  ds <- asub s_goals (amplitudes s) ;;
  let s_res := average (norm_axis1 ds) in
  xyz_a <- load (heap w) xyz ;;
  _xyz_a <- load (heap w) _xyz ;;
  dx <- asub xyz_a _xyz_a ;;
  xyz_d <- py_max (norm_axis1 dx) ;;
  let converged := nan_ltb s_res s_tol || Rltb xyz_d xyz_tol in
  Ok (w, mkVars _xyz r f s_res xyz_d converged).

(** [for k in range(kmax): ...; if converged: break], over the remaining
    values [ks] of [k]; [last] holds [k] and the loop variables once the
    body has run. *)
Fixpoint for_loop (s_tol xyz_tol : R) (fixed : list nat) (ks : list Z)
    (w : World) (xyz : loc) (last : option (Z * loop_vars))
    : res (World * loc * option (Z * loop_vars)) :=
  match ks with
  | [] => Ok (w, xyz, last)
  | k :: ks' =>
    '(w, vars) <- iteration s_tol xyz_tol fixed w xyz ;;
    let xyz := lv_xyz vars in
    if lv_converged vars then Ok (w, xyz, Some (k, vars))
    else for_loop s_tol xyz_tol fixed ks' w xyz (Some (k, vars))
  end.

(** [range(n)]. *)
Definition range (n : Z) : list Z := map Z.of_nat (seq 0 (Z.to_nat n)).

(** What a call returns and what it prints. *)
Record output : Type := mkOutput {
  ret_xyz : Arr;
  ret_r : Arr;
  ret_s : StressResult;
  ret_f : list R;
  printed : option message
}.

(** [nfd_ur], from the result [(faces, edges, vertices, fixed)] of
    [mesh_preprocess], which is in the absent [geometry] module.  The load
    assembler of [compas_fd/nfd/matrices.py] takes the number of vertices
    as its size. *)
Definition nfd_ur (faces : list NaturalFace) (edges : list NaturalEdge)
    (vertices : Arr) (fixed : list nat)
    (vertex_loads global_face_loads local_face_loads : option Arr)
    (s_calc : Z) (s_tol xyz_tol : R) (kmax : Z) : res output :=
  loads <- LoadMatrixAssembler.__init__ (length vertices) faces vertex_loads
             global_face_loads local_face_loads ;;
  let '(h, xyz) := alloc [] vertices in
  let w := mkWorld h faces edges loads in
  if (kmax =? 1)%Z then
    '(w, (_xyz, r, s, f)) <- _nfd_solve w xyz fixed s_calc ;;
    _xyz_a <- load (heap w) _xyz ;;
    Ok (mkOutput _xyz_a r s f None)
  else
    '(w, xyz, last) <- for_loop s_tol xyz_tol fixed (range kmax) w xyz None ;;
    match last with
    | None => Raise NameError
    | Some (k, vars) =>
      let msg := _output_message (lv_converged vars) k (lv_s_res vars)
                   (lv_xyz_d vars) in
      xyz_a <- load (heap w) xyz ;;
      let s := get_stresses (NfdNumpy.faces w) xyz_a s_calc in
      Ok (mkOutput xyz_a (lv_r vars) s (lv_f vars) (Some msg))
    end.

(** [nfd = partial(nfd_ur, kmax=1)]. *)
Definition nfd (faces : list NaturalFace) (edges : list NaturalEdge)
    (vertices : Arr) (fixed : list nat)
    (vertex_loads global_face_loads local_face_loads : option Arr)
    (s_calc : Z) (s_tol xyz_tol : R) : res output :=
  nfd_ur faces edges vertices fixed vertex_loads global_face_loads
    local_face_loads s_calc s_tol xyz_tol 1.

End WithGeometry.
End NfdNumpy.

(* ================================================================= *)
(** ** Quantities the statements are written with *)

Module Contribution.
Import StiffnessMatrixAssembler.

Definition empty : lists := mkLists [] [] [].

(** The value that a set of triplets gives to the entry (i, j). *)
Definition value (l : lists) (i j : nat) : R :=
  coo_sum (data l) (rows l) (cols l) i j.

(** The triplets that [_add_faces] appends for one face, and the ones that
    [_add_edges] appends for one edge. *)
Definition face_triplets (face : NaturalFace) : lists :=
  match _add_faces empty [face] with
  | Ok l => l
  | Raise _ => empty
  end.

Definition edge_triplets (edge : NaturalEdge) : lists :=
  _add_edges empty [edge].

Definition face_block (face : NaturalFace) (i j : nat) : R :=
  value (face_triplets face) i j.

Definition edge_block (edge : NaturalEdge) (i j : nat) : R :=
  value (edge_triplets edge) i j.

(** The three triplet lists grow together. *)
Definition aligned (l : lists) : Prop :=
  length (rows l) = length (data l) /\ length (cols l) = length (data l).

Definition app_lists (l m : lists) : lists :=
  mkLists (data l ++ data m) (rows l ++ rows m) (cols l ++ cols m).

(** What [_add_faces] does with one face. *)
Definition add_face (self : lists) (face : NaturalFace) : res lists :=
  if (face_len face =? 3)%nat then _add_tri_face self face
  else if (face_len face =? 4)%nat then _add_quad_face self face
  else Ok self.

(** The size of the assembled matrix. *)
Definition v_count (free fixed : list nat) : nat := length (free ++ fixed).

End Contribution.

Module Laplacian.

Definition delta (i j : nat) : Z := if (i =? j)%nat then 1%Z else 0%Z.

(** The graph Laplacian of an edge list, entry (i, j): the sum over the
    edges (u, v) of (δ_iu − δ_iv)(δ_ju − δ_jv). *)
Definition laplacian (edges : list (nat * nat)) (i j : nat) : Z :=
  fold_right Z.add 0%Z
    (map (fun '(u, v) =>
            ((delta i u - delta i v) * (delta j u - delta j v))%Z) edges).

(** The number of edges that end in [i]. *)
Definition degree (edges : list (nat * nat)) (i : nat) : nat :=
  length (filter (fun '(u, v) => (u =? i)%nat || (v =? i)%nat) edges).

(** The number of edges that join [i] and [j]. *)
Definition multiplicity (edges : list (nat * nat)) (i j : nat) : nat :=
  length (filter (fun '(u, v) =>
                    ((u =? i)%nat && (v =? j)%nat)
                    || ((u =? j)%nat && (v =? i)%nat)) edges).

Definition no_loops (edges : list (nat * nat)) : Prop :=
  forall u v, In (u, v) edges -> u <> v.

End Laplacian.

Module FaceLoads.
Section WithGeometry.
Context {G : Geometry}.

Definition vsum (l : list Vec3) : Vec3 := fold_right vadd vzero l.

(** The load that one face sends to each of its vertices: the face load,
    rotated into the global frame first when it is local, times the face
    area over the number of face vertices. *)
Definition vertex_share (local : bool) (face : NaturalFace) (face_load : Vec3)
    : Vec3 :=
  let global_load :=
    if local then mat33_dot (Rotation_from_frame (face_frame face)) face_load
    else face_load in
  vscale global_load (face_area face / INR (face_len face)).

(** The total that the faces, paired in order with their loads, send to the
    vertex [i]. *)
Definition received (local : bool) (faces : list NaturalFace)
    (face_loads : option Arr) (i : nat) : Vec3 :=
  match face_loads with
  | None => vzero
  | Some face_loads =>
    vsum (map (fun '(face, face_load) =>
                 if existsb (Nat.eqb i) (face_vertices_ids face)
                 then vertex_share local face face_load
                 else vzero)
              (combine faces face_loads))
  end.

(** What every assembler of a run satisfies. *)
Definition consistent (a : LoadMatrixAssembler.t) : Prop :=
  (LoadMatrixAssembler._has_face_loads a = false
   <-> LoadMatrixAssembler._gfl a = None /\ LoadMatrixAssembler._lfl a = None)
  /\ (LoadMatrixAssembler._has_face_loads a = false ->
      LoadMatrixAssembler._mat a = LoadMatrixAssembler._vertices_mat a).

(** The assemblers that a run can hold: built by [__init__], then updated
    any number of times. *)
Inductive reachable : LoadMatrixAssembler.t -> Prop :=
| reachable_init size faces vertex_loads global_face_loads local_face_loads a :
    LoadMatrixAssembler.__init__ size faces vertex_loads global_face_loads
      local_face_loads = Ok a ->
    reachable a
| reachable_update a faces a' :
    reachable a ->
    LoadMatrixAssembler.update a faces = Ok a' ->
    reachable a'.

End WithGeometry.
End FaceLoads.

Module SolveSteps.
Import NfdNumpy.
Section WithGeometry.
Context {G : Geometry}.

(** What the solve expects of [spsolve]: a returned array solves the
    system. *)
Definition spsolve_solves : Prop :=
  forall A b x, spsolve A b = Ok x -> dot A x = Ok b.



(** The steps of a solve that returns. *)
Inductive solve_steps (w : World) (xyz : loc) (fixed : list nat) (s_calc : Z)
    (w' : World) (_xyz : loc) (r : Arr) (s : StressResult) (f : list R)
    : Prop :=
| Solve_steps
    (x_old : Arr)
    (stiff : StiffnessMatrixAssembler.t)
    (Di : Mat)
    (Df : Mat)
    (p_free : Arr)
    (x_fixed : Arr)
    (Df_x : Arr)
    (rhs : Arr)
    (sol : Arr)
    (x_new : Arr)
    (D_x : Arr)
    (step_load : load (heap w) xyz = Ok x_old)
    (step_stiff :
       StiffnessMatrixAssembler.__init__ (free_of (length x_old) fixed) fixed
       (edges w) (faces w) = Ok stiff)
    (step_Di : StiffnessMatrixAssembler.free_matrix stiff = Ok Di)
    (step_Df : StiffnessMatrixAssembler.fixed_matrix stiff = Ok Df)
    (step_loads :
       LoadMatrixAssembler.update (loads w) (faces w) = Ok (loads w'))
    (step_p_free :
       take_rows (LoadMatrixAssembler.matrix (loads w')) (free_of (length
       x_old) fixed) = Ok p_free)
    (step_x_fixed : take_rows x_old fixed = Ok x_fixed)
    (step_Df_x : dot Df x_fixed = Ok Df_x)
    (step_rhs : asub p_free Df_x = Ok rhs)
    (step_sol : spsolve Di rhs = Ok sol)
    (step_assign : set_rows x_old (free_of (length x_old) fixed) sol = Ok x_new)
    (step_loc : _xyz = length (heap w))
    (step_heap : heap w' = heap w ++ [x_new])
    (step_faces : faces w' = map (face_update_xyz x_new) (faces w))
    (step_edges : edges w' = map (edge_update_xyz x_new) (edges w))
    (step_s : s = get_stresses (faces w') x_new s_calc)
    (step_f : f = get_forces (edges w') x_new)
    (step_D_x : dot (StiffnessMatrixAssembler.matrix stiff) x_old = Ok D_x)
    (step_r : asub (LoadMatrixAssembler.matrix (loads w')) D_x = Ok r).

End WithGeometry.
End SolveSteps.

Module OuterLoop.
Import NfdNumpy.
Section WithGeometry.
Context {G : Geometry}.

(** Stress results and stress goals have one row per face. *)
Definition stress_rows : Prop :=
  forall faces xyz,
    length (amplitudes (get_stresses faces xyz (-1))) = length faces
    /\ length (get_stress_goals faces) = length faces.

(** The Euclidean norm of the difference of two rows. *)
Definition distance (a b : Vec3) : R :=
  sqrt ((c0 a - c0 b) ^ 2 + (c1 a - c1 b) ^ 2 + (c2 a - c2 b) ^ 2).

(** The mean over the rows of the distance between goal and amplitude;
    there is no mean of no rows. *)
Definition mean_distance (goals amps : Arr) : option R :=
  match goals with
  | [] => None
  | _ => Some (Rsum (map2 distance goals amps) / INR (length goals))
  end.

(** [d] is the largest distance between a row and the row of the same
    index. *)
Definition is_max_distance (prev this : Arr) (d : R) : Prop :=
  (forall i p t, nth_error prev i = Some p -> nth_error this i = Some t ->
     distance p t <= d)
  /\ exists i p t, nth_error prev i = Some p /\ nth_error this i = Some t
                   /\ distance p t = d.

Section Run.
Variables (s_tol xyz_tol : R) (fixed : list nat).

(** What one pass through the loop body computes. *)
Inductive iteration_spec (w : World) (xyz : loc) (w' : World)
    (vars : loop_vars) : Prop :=
| Iteration_spec (s : StressResult) (x_prev x_this : Arr)
    (solved : _nfd_solve w xyz fixed (-1)
              = Ok (w', (lv_xyz vars, lv_r vars, s, lv_f vars)))
    (prev : load (heap w') xyz = Ok x_prev)
    (this : load (heap w') (lv_xyz vars) = Ok x_this)
    (s_res_mean :
       lv_s_res vars
       = mean_distance (get_stress_goals (faces w')) (amplitudes s))
    (xyz_d_max : is_max_distance x_prev x_this (lv_xyz_d vars))
    (converged_iff :
       lv_converged vars = true
       <-> (exists s_res, lv_s_res vars = Some s_res /\ s_res < s_tol)
           \/ lv_xyz_d vars < xyz_tol).

(** [runs n w xyz w' vars]: [n] passes in a row from the world [w] and the
    coordinates [xyz], none of the first [n - 1] converged; the last one
    leaves the world [w'] and the variables [vars]. *)
Inductive runs : nat -> World -> loc -> World -> loop_vars -> Prop :=
| runs_last w xyz w' vars :
    iteration s_tol xyz_tol fixed w xyz = Ok (w', vars) ->
    runs 1 w xyz w' vars
| runs_next n w xyz w1 vars1 w' vars :
    iteration s_tol xyz_tol fixed w xyz = Ok (w1, vars1) ->
    lv_converged vars1 = false ->
    runs n w1 (lv_xyz vars1) w' vars ->
    runs (S n) w xyz w' vars.

End Run.

(** The message of a run that made [n] passes. *)
Definition exit_message (n : nat) (vars : loop_vars) : message :=
  if lv_converged vars then Convergence_reached (Z.of_nat n)
  else No_convergence_reached (Z.of_nat n) (lv_s_res vars) (lv_xyz_d vars).

End WithGeometry.
End OuterLoop.

Module Assembly.
Import StiffnessMatrixAssembler Contribution.

(** The sum of the triplet values that sit in row [i]. *)
Fixpoint row_total (data : list R) (rows : list nat) (i : nat) : R :=
  match data, rows with
  | d :: data', r :: rows' =>
      (if (r =? i)%nat then d else 0) + row_total data' rows' i
  | _, _ => 0
  end.

(** What the assembler needs of a face in a matrix of size [n]: a face
    with 3 vertices has 3 force densities, one with 4 vertices has 6, and
    their vertices are below [n]; other faces are not looked at. *)
Definition face_ok (n : nat) (face : NaturalFace) : Prop :=
  (face_len face = 3%nat ->
     length (face_force_densities face) = 3%nat
     /\ forall v, In v (face_vertices_ids face) -> (v < n)%nat)
  /\ (face_len face = 4%nat ->
        length (face_force_densities face) = 6%nat
        /\ forall v, In v (face_vertices_ids face) -> (v < n)%nat).

(** The triplets of a sequence of blocks, one block after the other. *)
Definition concat_lists (blocks : list lists) : lists :=
  fold_right app_lists empty blocks.

Definition edge_ok (n : nat) (edge : NaturalEdge) : Prop :=
  (fst (edge_vertices_ids edge) < n)%nat
  /\ (snd (edge_vertices_ids edge) < n)%nat.

End Assembly.

(* ================================================================= *)
(** ** Equilibrium of a vertex *)

Module Equilibrium.

(** The part of the product of a matrix row with the coordinates that
    comes from the columns [ids]. *)
Definition gather_dot (row : list R) (x : Arr) (ids : list nat) : Vec3 :=
  fold_right vadd vzero
    (map (fun j => vscale (nth j x vzero) (nth j row 0)) ids).

End Equilibrium.

(* ================================================================= *)
(** ** Example inputs *)

Module Examples.
Import MathUtilities.

(** The value of a computation that does not raise. *)
Definition value_of {A} (m : res A) (default : A) : A :=
  match m with
  | Ok a => a
  | Raise _ => default
  end.

(** The quarter turn, as a 2x2 array. *)
Definition quarter_turn : Mat22 := mat22 0 (-1) 1 0.

Definition origin_frame : Frame :=
  mkFrame (vec3 0 0 0) (vec3 1 0 0) (vec3 0 1 0).

(** A triangle on the vertices 0, 1, 2 with an extra edge (0, 1); vertex 0
    is free. *)
Definition tri_face : NaturalFace :=
  mkFace [0; 1; 2]%nat [1; 2; 3] 1 origin_frame (vec3 1 1 0).

Definition tri_edges : list NaturalEdge := [mkEdge (0, 1)%nat 5].

Definition no_stiffness : StiffnessMatrixAssembler.t :=
  StiffnessMatrixAssembler.mk [] []
    (StiffnessMatrixAssembler.mkLists [] [] []) (mkMat 0 []).

Definition tri_stiffness : StiffnessMatrixAssembler.t :=
  value_of (StiffnessMatrixAssembler.__init__ [0]%nat [1; 2]%nat tri_edges
              [tri_face]) no_stiffness.

(** A path 0 - 1 - 2 with force density 2 on both edges; the middle vertex
    is free. *)
Definition path_edges : list NaturalEdge :=
  [mkEdge (0, 1)%nat 2; mkEdge (1, 2)%nat 2].

Definition path_stiffness : StiffnessMatrixAssembler.t :=
  value_of (StiffnessMatrixAssembler.__init__ [1]%nat [0; 2]%nat path_edges [])
    no_stiffness.

(** A quadrilateral on the vertices 0 to 3. *)
Definition quad_face : NaturalFace :=
  mkFace [0; 1; 2; 3]%nat [1; 2; 3; 4; 5; 6] 1 origin_frame (vec3 1 1 0).

(** A face with five vertices. *)
Definition pentagon : NaturalFace :=
  mkFace [0; 1; 2; 3; 4]%nat [1; 1; 1; 1; 1] 1 origin_frame (vec3 1 1 0).

(** A geometry to run the solver on: elements that keep their state, the
    goal stress as the stress of every face, force density as edge force,
    a direct solver for systems with one unknown row, and the frame axes
    as the rows of the rotation. *)
Definition spsolve_1 (A : Mat) (b : Arr) : res Arr :=
  match mrows A, b with
  | [[a]], [v] =>
    if negb (ncols A =? 1)%nat then Raise ValueError
    else if Req_dec_T a 0 then Raise ValueError
    else Ok [vscale v (/ a)]
  | _, _ => Raise ValueError
  end.

Definition geometry : Geometry := {|
  StressResult := Arr;
  face_update_xyz := fun _ face => face;
  edge_update_xyz := fun _ edge => edge;
  get_stresses := fun faces _ _ => map face_stress_goal faces;
  amplitudes := fun s => s;
  get_stress_goals := fun faces => map face_stress_goal faces;
  get_forces := fun edges _ => map edge_force_density edges;
  spsolve := spsolve_1;
  Rotation_from_frame := fun fr =>
    mat33 (xaxis fr) (yaxis fr) (vec3 0 0 1)
|}.



Definition no_loads : LoadMatrixAssembler.t :=
  LoadMatrixAssembler.mk [] None None false [].

(** The triangle under a global face load and a local face load. *)
Definition tri_loads : LoadMatrixAssembler.t :=
  value_of (LoadMatrixAssembler.__init__ (G := geometry) 3 [tri_face] None
              (Some [vec3 0 0 (-3)]) (Some [vec3 3 0 0])) no_loads.

(** The path under vertex loads only. *)
Definition path_loads : LoadMatrixAssembler.t :=
  value_of (LoadMatrixAssembler.__init__ (G := geometry) 3 []
              (Some [vec3 0 0 0; vec3 0 0 4; vec3 0 0 0]) None None) no_loads.

(** The path as a solver input: the middle vertex starts off the line. *)
Definition path_vertices : Arr := [vec3 0 0 0; vec3 1 1 1; vec3 2 0 0].

Definition path_world : NfdNumpy.World :=
  NfdNumpy.mkWorld [path_vertices] [] path_edges path_loads.

(** The equilibrium of the path, and the world after one solve. *)
Definition path_solution : Arr := [vec3 0 0 0; vec3 1 0 1; vec3 2 0 0].

Definition path_world_1 : NfdNumpy.World :=
  NfdNumpy.mkWorld [path_vertices; path_solution] [] path_edges path_loads.



End Examples.

(* ================================================================= *)
(** * Properties *)

(** ** Stress transforms *)

Section StressTransforms.
Import MathUtilities Examples.

Lemma npvec_eq (a b : NpVec) :
  v0 a = v0 b -> v1 a = v1 b -> v2 a = v2 b -> a = b.
Proof.
  destruct a, b; unfold v0, v1, v2; simpl; intros; subst; reflexivity.
Qed.

(** A left inverse of a 2x2 matrix is a right inverse: from Rᵀ·R = I the
    rows of R are orthonormal too. *)
Lemma orthogonal_rows (a b c d : R) :
  a * a + c * c = 1 -> a * b + c * d = 0 -> b * b + d * d = 1 ->
  a * a + b * b = 1 /\ a * c + b * d = 0 /\ c * c + d * d = 1.
Proof.
  intros H1 H2 H3. repeat split; nsatz.
Qed.

Lemma sin_cos_sq (a : R) : sin a * sin a + cos a * cos a = 1.
Proof. pose proof (sin2_cos2 a) as H. unfold Rsqr in H. exact H. Qed.

(** C9: transforming a stress pseudo-vector by an angle and then by the same
    angle with [invert] toggled returns it, and so does transforming by a
    matrix R with Rᵀ·R = I and then by R with [invert] toggled.  Without
    [invert] the matrix transform is Rᵀ·S·R, with it R·S·Rᵀ; for the angle
    form [invert] flips the sign of the angle. *)
Theorem transform_stress_round_trip (s : NpVec) (theta : R) (Rm : Mat22)
    (invert : bool) :
  dot22 (T22 Rm) Rm = I22 ->
  transform_stress_angle (transform_stress_angle s theta invert) theta
    (negb invert) = s
  /\ transform_stress (transform_stress s Rm invert) Rm (negb invert) = s
  /\ transform_stress s Rm false
     = stress_tensor_to_vec
         (dot22 (dot22 (T22 Rm) (stress_vec_to_tensor s)) Rm)
  /\ transform_stress s Rm true
     = stress_tensor_to_vec
         (dot22 (dot22 Rm (stress_vec_to_tensor s)) (T22 Rm))
  /\ transform_stress_angle s theta true
     = transform_stress_angle s (- theta) false.
Proof.
  intros HR.
  split; [| split; [| split; [| split]]]; [| | reflexivity ..].
  - pose proof (sin_cos_sq theta) as Hsc.
    assert (Hq : forall x y, x * x + y * y = 1 ->
              (x * x) * (x * x) + (y * y) * (y * y) + 2 * (x * y) * (x * y) = 1).
    { intros x y H.
      replace (x * x * (x * x) + y * y * (y * y) + 2 * (x * y) * (x * y))
        with ((x * x + y * y) * (x * x + y * y)) by ring.
      rewrite H. ring. }
    pose proof (Hq _ _ Hsc) as Hq1.
    destruct s as [a b c].
    destruct invert; unfold transform_stress_angle, s2, c2, v0, v1, v2, npvec;
      simpl; rewrite ?sin_neg, ?cos_neg, ?Ropp_involutive;
      set (sn := sin theta) in *; set (cs := cos theta) in *;
      f_equal.
    all: try (match goal with |- ?lhs = ?x =>
         replace lhs with
           (x * (sn * sn * (sn * sn) + cs * cs * (cs * cs) + 2 * (sn * cs) * (sn * cs)))
           by ring; rewrite Hq1; ring end).
  - destruct Rm as [a b c d]. destruct s as [x y z].
    unfold dot22, T22, I22 in HR. simpl in HR.
    injection HR as H1 H2 H3 H4.
    destruct (orthogonal_rows a b c d H1 H2 H4) as (G1 & G2 & G3).
    destruct invert; unfold transform_stress, stress_vec_to_tensor,
      stress_tensor_to_vec, dot22, T22, v0, v1, v2, npvec; simpl; f_equal.
    all: nsatz.
Qed.

Lemma transform_stress_round_trip_witness :
  dot22 (T22 quarter_turn) quarter_turn = I22
  /\ transform_stress_angle
       (transform_stress_angle (npvec 1 2 3) (PI / 2) false) (PI / 2) true
     = npvec 1 2 3
  /\ transform_stress (transform_stress (npvec 1 2 3) quarter_turn false)
       quarter_turn true = npvec 1 2 3.
Proof.
  assert (H : dot22 (T22 quarter_turn) quarter_turn = I22).
  { unfold dot22, T22, quarter_turn, I22; simpl; f_equal; lra. }
  split; [exact H |].
  destruct (transform_stress_round_trip (npvec 1 2 3) (PI / 2) quarter_turn
              false H) as (H1 & H2 & _).
  split; [exact H1 | exact H2].
Defined.
End StressTransforms.

(** ** Stiffness assembly *)

Section Stiffness.
Import StiffnessMatrixAssembler Contribution.

Lemma bind_Ok_inv {A B} (m : res A) (k : A -> res B) (b : B) :
  bind m k = Ok b -> exists a, m = Ok a /\ k a = Ok b.
Proof. destruct m as [a|e]; simpl; intros H; [eauto | discriminate]. Qed.

Lemma coo_sum_app (d1 d2 : list R) (r1 r2 c1 c2 : list nat) (i j : nat) :
  length r1 = length d1 -> length c1 = length d1 ->
  coo_sum (d1 ++ d2) (r1 ++ r2) (c1 ++ c2) i j
  = coo_sum d1 r1 c1 i j + coo_sum d2 r2 c2 i j.
Proof.
  revert r1 c1.
  induction d1 as [|d d1 IH]; intros [|r r1] [|c c1] Hr Hc;
    simpl in *; try discriminate.
  - lra.
  - rewrite IH by lia. lra.
Qed.

Lemma value_app (l m : lists) (i j : nat) :
  aligned l -> value (app_lists l m) i j = value l i j + value m i j.
Proof.
  intros [Hr Hc]. unfold value, app_lists; simpl.
  apply coo_sum_app; assumption.
Qed.

Lemma aligned_app (l m : lists) :
  aligned l -> aligned m -> aligned (app_lists l m).
Proof.
  intros [H1 H2] [H3 H4]. unfold aligned, app_lists; simpl.
  rewrite !length_app. lia.
Qed.

Lemma aligned_empty : aligned empty.
Proof. split; reflexivity. Qed.

Lemma app_lists_empty_l (l : lists) : app_lists empty l = l.
Proof. destruct l; reflexivity. Qed.

Lemma _add_faces_cons (self : lists) (face : NaturalFace) faces :
  _add_faces self (face :: faces)
  = bind (add_face self face) (fun self' => _add_faces self' faces).
Proof. reflexivity. Qed.

Lemma add_face_append (self : lists) (face : NaturalFace) :
  add_face self face
  = bind (add_face empty face) (fun t => Ok (app_lists self t)).
Proof.
  unfold add_face, _add_tri_face, _add_quad_face.
  destruct (face_len face =? 3)%nat.
  - destruct (face_vertices_ids face) as [|v0 [|v1 [|v2 [|]]]]; try reflexivity.
    destruct (face_force_densities face) as [|n0 [|n1 [|n2 [|]]]];
      reflexivity.
  - destruct (face_len face =? 4)%nat.
    + destruct (face_vertices_ids face) as [|v0 [|v1 [|v2 [|v3 [|]]]]];
        try reflexivity.
      destruct (face_force_densities face)
        as [|n0 [|n1 [|n2 [|n3 [|n4 [|n5 [|]]]]]]]; reflexivity.
    + simpl. destruct self; unfold app_lists; simpl.
      rewrite !app_nil_r. reflexivity.
Qed.

Lemma add_face_aligned (face : NaturalFace) (t : lists) :
  add_face empty face = Ok t -> aligned t.
Proof.
  unfold add_face, _add_tri_face, _add_quad_face.
  destruct (face_len face =? 3)%nat.
  - destruct (face_vertices_ids face) as [|v0 [|v1 [|v2 [|]]]];
      try discriminate.
    destruct (face_force_densities face) as [|n0 [|n1 [|n2 [|]]]];
      try discriminate.
    intros H; injection H as <-. split; reflexivity.
  - destruct (face_len face =? 4)%nat.
    + destruct (face_vertices_ids face) as [|v0 [|v1 [|v2 [|v3 [|]]]]];
        try discriminate.
      destruct (face_force_densities face)
        as [|n0 [|n1 [|n2 [|n3 [|n4 [|n5 [|]]]]]]]; try discriminate.
      intros H; injection H as <-. split; reflexivity.
    + intros H; injection H as <-. apply aligned_empty.
Qed.

Lemma face_triplets_add_face (face : NaturalFace) (t : lists) :
  add_face empty face = Ok t -> face_triplets face = t.
Proof.
  intros H. unfold face_triplets. rewrite _add_faces_cons, H. reflexivity.
Qed.

Lemma _add_faces_value (faces : list NaturalFace) (self self' : lists) :
  aligned self -> _add_faces self faces = Ok self' ->
  aligned self'
  /\ forall i j, value self' i j
       = value self i j + Rsum (map (fun f => face_block f i j) faces).
Proof.
  revert self. induction faces as [|face faces IH]; intros self Hal H.
  - simpl in H. injection H as <-. split; [assumption |].
    intros; simpl; lra.
  - rewrite _add_faces_cons, add_face_append in H.
    apply bind_Ok_inv in H as (s1 & H1 & H2).
    apply bind_Ok_inv in H1 as (t & Ht & Hs1).
    injection Hs1 as <-.
    pose proof (add_face_aligned _ _ Ht) as Halt.
    destruct (IH _ (aligned_app _ _ Hal Halt) H2) as [Hal' Hv].
    split; [assumption |].
    intros i j. rewrite Hv, value_app by assumption. simpl.
    unfold face_block at 2. rewrite (face_triplets_add_face _ _ Ht). lra.
Qed.

Lemma _add_edges_value (edges : list NaturalEdge) (self : lists) :
  aligned self ->
  aligned (_add_edges self edges)
  /\ forall i j, value (_add_edges self edges) i j
       = value self i j + Rsum (map (fun e => edge_block e i j) edges).
Proof.
  revert self. induction edges as [|edge edges IH]; intros self Hal.
  - simpl. split; [assumption | intros; lra].
  - simpl. destruct (edge_vertices_ids edge) as [v0 v1] eqn:Hv.
    set (t := mkLists [edge_force_density edge; edge_force_density edge;
                       - edge_force_density edge; - edge_force_density edge]
                      [v0; v1; v0; v1] [v0; v1; v1; v0]).
    assert (Halt : aligned t) by (split; reflexivity).
    change (mkLists _ _ _) with (app_lists self t).
    destruct (IH _ (aligned_app _ _ Hal Halt)) as [Hal' Hval].
    split; [assumption |].
    intros i j. rewrite Hval, value_app by assumption.
    assert (Hb : edge_block edge i j = value t i j).
    { unfold edge_block, edge_triplets. simpl. rewrite Hv. reflexivity. }
    rewrite Hb. lra.
Qed.

Lemma nth_map_seq {A} (f : nat -> A) (d : A) (n i : nat) :
  (i < n)%nat -> nth i (map f (seq 0 n)) d = f i.
Proof.
  intros H. rewrite nth_indep with (d' := f 0%nat) by (rewrite length_map, length_seq; exact H).
  rewrite map_nth, seq_nth by exact H. reflexivity.
Qed.

Lemma entry_coo_matrix data rows cols (n m : nat) (M : Mat) (i j : nat) :
  coo_matrix data rows cols (n, m) = Ok M -> (i < n)%nat -> (j < m)%nat ->
  entry M i j = coo_sum data rows cols i j.
Proof.
  unfold coo_matrix. simpl.
  destruct (forallb _ rows && forallb _ cols); [| discriminate].
  intros H Hi Hj. injection H as <-. unfold entry; simpl.
  rewrite nth_map_seq by exact Hi. apply nth_map_seq; exact Hj.
Qed.

(** Every entry of the assembled matrix is the sum of the blocks of the
    faces and of the edges. *)
Lemma matrix_entry_sum free fixed edges faces (A : t) (i j : nat) :
  __init__ free fixed edges faces = Ok A ->
  (i < v_count free fixed)%nat -> (j < v_count free fixed)%nat ->
  entry (matrix A) i j
  = Rsum (map (fun f => face_block f i j) faces)
    + Rsum (map (fun e => edge_block e i j) edges).
Proof.
  unfold __init__. intros H Hi Hj.
  apply bind_Ok_inv in H as (s1 & H1 & H).
  apply bind_Ok_inv in H as (M & HM & H). injection H as <-.
  unfold matrix; simpl.
  rewrite (entry_coo_matrix _ _ _ _ _ _ _ _ HM Hi Hj).
  destruct (_add_faces_value _ _ _ aligned_empty H1) as [Hal Hv].
  destruct (_add_edges_value edges s1 Hal) as [_ He].
  fold (value (_add_edges s1 edges) i j).
  rewrite He, Hv. unfold value at 1; simpl. lra.
Qed.

Ltac eqb_cases :=
  repeat match goal with
         | |- context [(?a =? ?b)%nat] =>
             destruct (Nat.eqb_spec a b); try subst; try congruence
         end.

Lemma tri_face_value (face : NaturalFace) (v0 v1 v2 : nat) (n0 n1 n2 : R)
    (i j : nat) :
  face_vertices_ids face = [v0; v1; v2] ->
  face_force_densities face = [n0; n1; n2] ->
  face_block face i j
  = coo_sum [n1 + n2; - n2; - n1; - n2; n0 + n2; - n0; - n1; - n0; n0 + n1]
            [v0; v0; v0; v1; v1; v1; v2; v2; v2]
            [v0; v1; v2; v0; v1; v2; v0; v1; v2] i j.
Proof.
  intros Hv Hn. unfold face_block, face_triplets. simpl.
  unfold face_len, _add_tri_face. rewrite Hv, Hn. reflexivity.
Qed.

(** C2: the assembler adds, for a triangular face (v0, v1, v2) with force
    densities (n0, n1, n2), a symmetric block whose diagonal entry at a
    vertex is the sum of the two adjacent force densities (n1+n2 at v0,
    n0+n2 at v1, n0+n1 at v2) and whose off-diagonal entry is minus the
    force density of the edge between the two vertices; the blocks of all
    faces and edges add up in the assembled matrix. *)
Theorem tri_face_block_accumulates (free fixed : list nat)
    (edges : list NaturalEdge) (faces : list NaturalFace) (A : t)
    (face : NaturalFace) (v0 v1 v2 : nat) (n0 n1 n2 : R) :
  __init__ free fixed edges faces = Ok A ->
  face_vertices_ids face = [v0; v1; v2] ->
  face_force_densities face = [n0; n1; n2] ->
  v0 <> v1 -> v0 <> v2 -> v1 <> v2 ->
  (face_block face v0 v0 = n1 + n2
   /\ face_block face v1 v1 = n0 + n2
   /\ face_block face v2 v2 = n0 + n1)
  /\ (face_block face v0 v1 = - n2 /\ face_block face v1 v0 = - n2
      /\ face_block face v0 v2 = - n1 /\ face_block face v2 v0 = - n1
      /\ face_block face v1 v2 = - n0 /\ face_block face v2 v1 = - n0)
  /\ (forall i j, ~ (In i [v0; v1; v2] /\ In j [v0; v1; v2]) ->
        face_block face i j = 0)
  /\ (forall i j, face_block face i j = face_block face j i)
  /\ (forall i j, (i < v_count free fixed)%nat -> (j < v_count free fixed)%nat ->
        entry (matrix A) i j
        = Rsum (map (fun f => face_block f i j) faces)
          + Rsum (map (fun e => edge_block e i j) edges)).
Proof.
  intros HA Hv Hn H01 H02 H12.
  pose proof (fun i j => tri_face_value face v0 v1 v2 n0 n1 n2 i j Hv Hn) as Hb.
  split; [| split; [| split; [| split]]].
  - repeat split; rewrite Hb; simpl; eqb_cases; simpl; lra.
  - repeat split; rewrite Hb; simpl; eqb_cases; simpl; lra.
  - intros i j Hout. rewrite Hb. simpl.
    eqb_cases; simpl; try lra; exfalso; apply Hout; simpl; tauto.
  - intros i j. rewrite !Hb. simpl. eqb_cases; simpl; lra.
  - intros i j Hi Hj. apply (matrix_entry_sum _ _ _ _ _ _ _ HA Hi Hj).
Qed.

Lemma tri_face_block_accumulates_witness :
  let face := Examples.tri_face in
  (face_block face 0 0 = 2 + 3 /\ face_block face 1 1 = 1 + 3
   /\ face_block face 2 2 = 1 + 2)
  /\ (forall i j, (i < 3)%nat -> (j < 3)%nat ->
        entry (matrix Examples.tri_stiffness) i j
        = Rsum (map (fun f => face_block f i j) [Examples.tri_face])
          + Rsum (map (fun e => edge_block e i j) Examples.tri_edges)).
Proof.
  destruct (tri_face_block_accumulates [0%nat] [1%nat; 2%nat]
              Examples.tri_edges [Examples.tri_face] Examples.tri_stiffness
              Examples.tri_face 0 1 2 1 2 3)
    as (Hd & _ & _ & _ & Hacc);
    [reflexivity | reflexivity | reflexivity | lia | lia | lia |].
  split; [exact Hd | exact Hacc].
Defined.

(** C8: a face with neither 3 nor 4 vertices contributes nothing: the
    assembly with the face is the assembly without it, raised exceptions
    included. *)
Theorem other_arity_face_skipped (free fixed : list nat)
    (edges : list NaturalEdge) (faces1 faces2 : list NaturalFace)
    (face : NaturalFace) :
  face_len face <> 3%nat -> face_len face <> 4%nat ->
  (forall self, _add_faces self [face] = Ok self)
  /\ __init__ free fixed edges (faces1 ++ face :: faces2)
     = __init__ free fixed edges (faces1 ++ faces2).
Proof.
  intros H3 H4.
  assert (Hstep : forall self, add_face self face = Ok self).
  { intros self. unfold add_face.
    destruct (Nat.eqb_spec (face_len face) 3); [contradiction |].
    destruct (Nat.eqb_spec (face_len face) 4); [contradiction |].
    reflexivity. }
  split.
  - intros self. rewrite _add_faces_cons, Hstep. reflexivity.
  - unfold __init__.
    assert (Hf : forall self, _add_faces self (faces1 ++ face :: faces2)
                              = _add_faces self (faces1 ++ faces2)).
    { induction faces1 as [|f faces1 IH]; intros self.
      - simpl app. rewrite _add_faces_cons, Hstep. reflexivity.
      - simpl app. rewrite !_add_faces_cons.
        destruct (add_face self f); simpl; [apply IH | reflexivity]. }
    rewrite Hf. reflexivity.
Qed.

Lemma other_arity_face_skipped_witness :
  __init__ [0%nat] [1%nat; 2%nat] Examples.tri_edges
    ([Examples.tri_face] ++ Examples.pentagon :: [])
  = __init__ [0%nat] [1%nat; 2%nat] Examples.tri_edges
      ([Examples.tri_face] ++ []).
Proof.
  apply (other_arity_face_skipped [0%nat] [1%nat; 2%nat] Examples.tri_edges
           [Examples.tri_face] [] Examples.pentagon);
    unfold face_len; simpl; lia.
Defined.

Section UniformEdges.
Import Laplacian.

Lemma edge_block_value (edge : NaturalEdge) (u v i j : nat) :
  edge_vertices_ids edge = (u, v) ->
  edge_block edge i j
  = coo_sum [edge_force_density edge; edge_force_density edge;
             - edge_force_density edge; - edge_force_density edge]
            [u; v; u; v] [u; v; v; u] i j.
Proof.
  intros Hv. unfold edge_block, edge_triplets. simpl. rewrite Hv. reflexivity.
Qed.

Lemma edge_block_delta (edge : NaturalEdge) (u v i j : nat) :
  edge_vertices_ids edge = (u, v) ->
  edge_block edge i j
  = edge_force_density edge
    * IZR ((delta i u - delta i v) * (delta j u - delta j v)).
Proof.
  intros Hv. rewrite (edge_block_value _ _ _ _ _ Hv). unfold delta. simpl.
  destruct (Nat.eqb_spec u i), (Nat.eqb_spec v i),
           (Nat.eqb_spec u j), (Nat.eqb_spec v j); subst;
    rewrite ?Nat.eqb_refl;
    repeat match goal with
           | H : ?a <> ?b |- context [(?a =? ?b)%nat] =>
               rewrite (proj2 (Nat.eqb_neq a b) H)
           | H : ?a <> ?b |- context [(?b =? ?a)%nat] =>
               rewrite (proj2 (Nat.eqb_neq b a) (not_eq_sym H))
           end;
    simpl; lra.
Qed.

Lemma edge_blocks_laplacian (edges : list NaturalEdge) (q : R) (i j : nat) :
  (forall e, In e edges -> edge_force_density e = q) ->
  Rsum (map (fun e => edge_block e i j) edges)
  = q * IZR (laplacian (map edge_vertices_ids edges) i j).
Proof.
  induction edges as [|e edges IH]; intros Hq.
  - unfold laplacian. simpl. lra.
  - simpl. destruct (edge_vertices_ids e) as [u v] eqn:Hv.
    rewrite (edge_block_delta _ _ _ _ _ Hv), (Hq e (or_introl eq_refl)).
    rewrite IH by (intros e' He'; apply Hq; right; exact He').
    unfold laplacian. simpl. rewrite plus_IZR. lra.
Qed.

Lemma laplacian_diagonal (E : list (nat * nat)) (i : nat) :
  no_loops E -> laplacian E i i = Z.of_nat (degree E i).
Proof.
  induction E as [|[u v] E IH]; intros Hl.
  - reflexivity.
  - assert (Huv : u <> v) by (apply Hl; left; reflexivity).
    assert (IH' : laplacian E i i = Z.of_nat (degree E i)).
    { apply IH. intros a b Hab. apply Hl. right. exact Hab. }
    unfold laplacian, degree in *. simpl. rewrite IH'. unfold delta.
    destruct (Nat.eqb_spec i u), (Nat.eqb_spec i v); subst;
      try congruence; rewrite ?Nat.eqb_refl;
      repeat match goal with
             | H : ?a <> ?b |- context [(?b =? ?a)%nat] =>
                 rewrite (proj2 (Nat.eqb_neq b a) (not_eq_sym H))
             | H : ?a <> ?b |- context [(?a =? ?b)%nat] =>
                 rewrite (proj2 (Nat.eqb_neq a b) H)
             end; simpl length; lia.
Qed.

Lemma laplacian_off_diagonal (E : list (nat * nat)) (i j : nat) :
  no_loops E -> i <> j ->
  laplacian E i j = (- Z.of_nat (multiplicity E i j))%Z.
Proof.
  induction E as [|[u v] E IH]; intros Hl Hij.
  - reflexivity.
  - assert (Huv : u <> v) by (apply Hl; left; reflexivity).
    assert (IH' : laplacian E i j = (- Z.of_nat (multiplicity E i j))%Z).
    { apply IH; [| exact Hij]. intros a b Hab. apply Hl. right. exact Hab. }
    unfold laplacian, multiplicity in *. simpl. rewrite IH'. unfold delta.
    destruct (Nat.eqb_spec i u), (Nat.eqb_spec i v),
             (Nat.eqb_spec j u), (Nat.eqb_spec j v); subst;
      try congruence; rewrite ?Nat.eqb_refl;
      repeat match goal with
             | H : ?a <> ?b |- context [(?b =? ?a)%nat] =>
                 rewrite (proj2 (Nat.eqb_neq b a) (not_eq_sym H))
             | H : ?a <> ?b |- context [(?a =? ?b)%nat] =>
                 rewrite (proj2 (Nat.eqb_neq a b) H)
             end; simpl length; lia.
Qed.

(** C7: with one force density q on every edge and no faces, the assembled
    matrix is q times the graph Laplacian of the edges.  Each edge (v0, v1)
    gives +q at (v0, v0) and (v1, v1) and -q at (v0, v1) and (v1, v0); for
    edges that join distinct vertices the diagonal holds q times the vertex
    degree and the off-diagonal -q times the edge multiplicity. *)
Theorem uniform_edges_laplacian (free fixed : list nat)
    (edges : list NaturalEdge) (q : R) (A : t) :
  (forall e, In e edges -> edge_force_density e = q) ->
  __init__ free fixed edges [] = Ok A ->
  let E := map edge_vertices_ids edges in
  (forall e u v, In e edges -> edge_vertices_ids e = (u, v) -> u <> v ->
     edge_block e u u = q /\ edge_block e v v = q
     /\ edge_block e u v = - q /\ edge_block e v u = - q)
  /\ (forall i j, (i < v_count free fixed)%nat -> (j < v_count free fixed)%nat ->
        entry (matrix A) i j = q * IZR (laplacian E i j))
  /\ (no_loops E ->
      forall i j, (i < v_count free fixed)%nat -> (j < v_count free fixed)%nat ->
        entry (matrix A) i j
        = if (i =? j)%nat then q * INR (degree E i)
          else - q * INR (multiplicity E i j)).
Proof.
  intros Hq HA E.
  assert (Hlap : forall i j, (i < v_count free fixed)%nat ->
                   (j < v_count free fixed)%nat ->
                   entry (matrix A) i j = q * IZR (laplacian E i j)).
  { intros i j Hi Hj.
    rewrite (matrix_entry_sum _ _ _ _ _ _ _ HA Hi Hj). simpl.
    rewrite (edge_blocks_laplacian _ q i j Hq). fold E. lra. }
  split; [| split].
  - intros e u v He Hv Huv.
    rewrite !(edge_block_value _ _ _ _ _ Hv), (Hq e He). simpl.
    repeat split; eqb_cases; simpl; lra.
  - exact Hlap.
  - intros Hl i j Hi Hj. rewrite (Hlap i j Hi Hj).
    destruct (Nat.eqb_spec i j) as [->|Hij].
    + rewrite (laplacian_diagonal E j Hl), <- INR_IZR_INZ. reflexivity.
    + rewrite (laplacian_off_diagonal E i j Hl Hij), opp_IZR, <- INR_IZR_INZ.
      lra.
Qed.

Lemma uniform_edges_laplacian_witness :
  entry (matrix Examples.path_stiffness) 1 1 = 2 * INR 2
  /\ entry (matrix Examples.path_stiffness) 0 1 = - 2 * INR 1.
Proof.
  destruct (uniform_edges_laplacian [1%nat] [0%nat; 2%nat]
              Examples.path_edges 2 Examples.path_stiffness)
    as (_ & _ & Hdeg).
  - intros e [<- | [<- | []]]; reflexivity.
  - reflexivity.
  - assert (Hl : no_loops (map edge_vertices_ids Examples.path_edges)).
    { intros u v [H | [H | []]]; injection H as <- <-; lia. }
    split.
    + apply (Hdeg Hl 1%nat 1%nat); unfold v_count; simpl; lia.
    + apply (Hdeg Hl 0%nat 1%nat); unfold v_count; simpl; lia.
Defined.

End UniformEdges.
End Stiffness.

(** ** Load assembly *)

Section Loads.
Import LoadMatrixAssembler FaceLoads.
Context {G : Geometry}.

Lemma vec3_eq (a b : Vec3) :
  c0 a = c0 b -> c1 a = c1 b -> c2 a = c2 b -> a = b.
Proof. destruct a, b; simpl; intros; subst; reflexivity. Qed.

Lemma vadd_zero_r (a : Vec3) : vadd a vzero = a.
Proof. apply vec3_eq; simpl; lra. Qed.

Lemma vadd_assoc (a b c : Vec3) : vadd (vadd a b) c = vadd a (vadd b c).
Proof. apply vec3_eq; simpl; lra. Qed.

Lemma mat33_dot_vscale (M : Mat33) (v : Vec3) (k : R) :
  mat33_dot M (vscale v k) = vscale (mat33_dot M v) k.
Proof. apply vec3_eq; unfold mat33_dot, vdot; simpl; lra. Qed.

Lemma mapM_Ok_cons_inv {A B} (f : A -> res B) (a : A) (l : list A) (bs : list B) :
  mapM f (a :: l) = Ok bs ->
  exists b bs', f a = Ok b /\ mapM f l = Ok bs' /\ bs = b :: bs'.
Proof.
  simpl. intros H.
  apply bind_Ok_inv in H as (b & Hb & H).
  apply bind_Ok_inv in H as (bs' & Hbs & H).
  injection H as <-. eauto.
Qed.

Lemma length_set_nth {A} (l : list A) (i : nat) (x : A) :
  length (set_nth l i x) = length l.
Proof.
  revert i. induction l as [|y l IH]; intros [|i]; simpl; auto.
Qed.

Lemma nth_set_nth {A} (l : list A) (i j : nat) (x d : A) :
  (i < length l)%nat ->
  nth j (set_nth l i x) d = if (j =? i)%nat then x else nth j l d.
Proof.
  revert i j. induction l as [|y l IH]; intros [|i] [|j] H; simpl in *;
    try lia; try reflexivity.
  apply IH. lia.
Qed.

Lemma length_scatter (ids : list nat) (a vals : Arr) :
  length (scatter a ids vals) = length a.
Proof.
  revert a vals. induction ids as [|i ids IH]; intros a [|x vals]; simpl;
    try reflexivity.
  rewrite IH. apply length_set_nth.
Qed.

(** Gathering the rows [ids] of [a0], adding [v] and scattering them into
    [a]: a listed row is the original row plus [v], whatever its number of
    occurrences. *)
Lemma scatter_gathered (a0 : Arr) (v : Vec3) (ids : list nat) :
  forall (a rows : Arr) (i : nat),
  length a = length a0 ->
  take_rows a0 ids = Ok rows ->
  nth i (scatter a ids (map (fun row => vadd row v) rows)) vzero
  = if existsb (Nat.eqb i) ids then vadd (nth i a0 vzero) v
    else nth i a vzero.
Proof.
  induction ids as [|k ids IH]; intros a rows i Hlen Hrows.
  - reflexivity.
  - unfold take_rows in Hrows.
    apply mapM_Ok_cons_inv in Hrows as (r & rows' & Hr & Hrows' & ->).
    fold (take_rows a0 ids) in Hrows'.
    destruct (nth_error a0 k) as [r'|] eqn:Hk; [| discriminate].
    injection Hr as ->.
    assert (Hklt : (k < length a0)%nat)
      by (apply nth_error_Some; congruence).
    simpl. rewrite (IH (set_nth a k (vadd r v)) rows' i);
      [| rewrite length_set_nth; exact Hlen | exact Hrows'].
    rewrite nth_set_nth by lia.
    destruct (Nat.eqb_spec i k) as [->|Hik].
    + rewrite (nth_error_nth _ _ _ Hk).
      destruct (existsb (Nat.eqb k) ids); reflexivity.
    + simpl. reflexivity.
Qed.

Lemma length_mapM {A B} (f : A -> res B) (l : list A) (bs : list B) :
  mapM f l = Ok bs -> length bs = length l.
Proof.
  revert bs. induction l as [|a l IH]; intros bs H.
  - injection H as <-. reflexivity.
  - apply mapM_Ok_cons_inv in H as (b & bs' & _ & H & ->).
    simpl. rewrite (IH _ H). reflexivity.
Qed.

Lemma iadd_rows_spec (a a' : Arr) (ids : list nat) (v : Vec3) :
  iadd_rows a ids v = Ok a' ->
  length a' = length a
  /\ forall i, nth i a' vzero
       = if existsb (Nat.eqb i) ids then vadd (nth i a vzero) v
         else nth i a vzero.
Proof.
  unfold iadd_rows, set_rows. intros H.
  apply bind_Ok_inv in H as (rows & Hrows & H).
  destruct (forallb _ ids); [| discriminate].
  pose proof (length_mapM _ _ _ Hrows) as Hlen.
  rewrite length_map, Hlen, Nat.eqb_refl in H.
  injection H as <-. split.
  - apply length_scatter.
  - intros i. apply scatter_gathered; [reflexivity | exact Hrows].
Qed.

Lemma _add_face_loads_zip_spec (local : bool) (faces : list NaturalFace) :
  forall (face_loads m m' : Arr),
  _add_face_loads_zip m local faces face_loads = Ok m' ->
  length m' = length m
  /\ forall i, nth i m' vzero
       = vadd (nth i m vzero) (received local faces (Some face_loads) i).
Proof.
  induction faces as [|face faces IH]; intros [|face_load face_loads] m m' H;
    simpl in H; try (injection H as <-; split; [reflexivity |];
                     intros i; unfold received; simpl;
                     rewrite vadd_zero_r; reflexivity).
  apply bind_Ok_inv in H as (m1 & H1 & H).
  destruct (iadd_rows_spec _ _ _ _ H1) as [Hlen1 Hnth1].
  destruct (IH _ _ _ H) as [Hlen Hnth].
  split; [congruence |].
  intros i. rewrite Hnth, Hnth1. unfold received. simpl.
  assert (Hshare :
    (if local
     then mat33_dot (Rotation_from_frame (face_frame face))
            (vscale face_load (face_area face / INR (face_len face)))
     else vscale face_load (face_area face / INR (face_len face)))
    = vertex_share local face face_load).
  { unfold vertex_share. destruct local; [apply mat33_dot_vscale | reflexivity]. }
  rewrite Hshare.
  destruct (existsb (Nat.eqb i) (face_vertices_ids face)).
  - apply vadd_assoc.
  - apply vec3_eq; simpl; lra.
Qed.

Lemma _add_face_loads_spec (self self' : t) (faces : list NaturalFace)
    (local : bool) :
  _add_face_loads self faces local = Ok self' ->
  _vertices_mat self' = _vertices_mat self /\ _gfl self' = _gfl self
  /\ _lfl self' = _lfl self /\ _has_face_loads self' = _has_face_loads self
  /\ length (_mat self') = length (_mat self)
  /\ forall i, nth i (_mat self') vzero
       = vadd (nth i (_mat self) vzero)
              (received local faces (if local then _lfl self else _gfl self) i).
Proof.
  unfold _add_face_loads. intros H.
  destruct (if local then _lfl self else _gfl self) as [face_loads|];
    [| discriminate].
  apply bind_Ok_inv in H as (m & Hm & H). injection H as <-.
  destruct (_add_face_loads_zip_spec _ _ _ _ _ Hm) as [Hlen Hnth].
  simpl. repeat split; assumption.
Qed.

Lemma update_spec (self self' : t) (faces : list NaturalFace) :
  _has_face_loads self = true ->
  update self faces = Ok self' ->
  _vertices_mat self' = _vertices_mat self /\ _gfl self' = _gfl self
  /\ _lfl self' = _lfl self /\ _has_face_loads self' = _has_face_loads self
  /\ length (_mat self') = length (_vertices_mat self)
  /\ forall i, nth i (_mat self') vzero
       = vadd (vadd (nth i (_vertices_mat self) vzero)
                    (received false faces (_gfl self) i))
              (received true faces (_lfl self) i).
Proof.
  unfold update. intros Hhas H. rewrite Hhas in H. simpl negb in H. cbv iota in H.
  apply bind_Ok_inv in H as (s1 & H1 & H2).
  assert (Hs1 : _vertices_mat s1 = _vertices_mat self /\ _gfl s1 = _gfl self
                /\ _lfl s1 = _lfl self
                /\ _has_face_loads s1 = _has_face_loads self
                /\ length (_mat s1) = length (_vertices_mat self)
                /\ forall i, nth i (_mat s1) vzero
                     = vadd (nth i (_vertices_mat self) vzero)
                            (received false faces (_gfl self) i)).
  { simpl in H1. destruct (_gfl self) as [g|] eqn:Hg.
    - apply _add_face_loads_spec in H1
        as (E1 & E2 & E3 & E4 & E5 & E6).
      simpl in E1, E2, E3, E4, E5, E6. rewrite <- Hg.
      repeat split; assumption.
    - injection H1 as <-. simpl. rewrite ?Hg. repeat split.
      intros i. rewrite vadd_zero_r. reflexivity. }
  destruct Hs1 as (E1 & E2 & E3 & E4 & E5 & E6).
  destruct (_lfl s1) as [l|] eqn:Hl.
  - apply _add_face_loads_spec in H2 as (F1 & F2 & F3 & F4 & F5 & F6).
    do 5 (split; [congruence |]).
    intros i. rewrite F6, E6, <- E3, Hl. reflexivity.
  - injection H2 as <-.
    do 5 (split; [congruence |]).
    intros i. rewrite E6, <- E3. unfold received at 3.
    rewrite vadd_zero_r. reflexivity.
Qed.

Lemma update_consistent (a a' : t) (faces : list NaturalFace) :
  consistent a -> update a faces = Ok a' -> consistent a'.
Proof.
  intros [Hc1 Hc2] H.
  destruct (_has_face_loads a) eqn:Hhas.
  - apply update_spec in H as (E1 & E2 & E3 & E4 & _); [| exact Hhas].
    unfold consistent. rewrite E2, E3, E4, Hhas.
    split; [exact Hc1 | discriminate].
  - unfold update in H. rewrite Hhas in H. injection H as <-.
    unfold consistent. rewrite Hhas. split; assumption.
Qed.

Lemma reachable_consistent (a : t) : reachable a -> consistent a.
Proof.
  intros Hr.
  induction Hr as [size faces vl gfl lfl a H | a faces a' Hr IH H].
  - unfold __init__ in H. apply update_consistent in H; [exact H |].
    unfold consistent, _load_mat; simpl.
    destruct gfl, lfl;
      (split; [split; [intros Hf | intros [Hg Hl]]; try congruence;
               split; reflexivity
              | intros _; reflexivity]).
  - exact (update_consistent _ _ _ IH H).
Qed.

(** C6: without global and local face loads, [update] leaves the assembler
    as it is and its matrix is the static vertex-load baseline.  With face
    loads, the updated matrix is the baseline plus, for every face with a
    global load, the load times (area / number of face vertices) on each
    row of the face, plus the same share of every local load rotated into
    the global frame by the rotation of the face's frame. *)
Theorem update_baseline_and_face_loads (a : t) (faces : list NaturalFace) :
  reachable a ->
  (_gfl a = None -> _lfl a = None ->
     update a faces = Ok a /\ matrix a = _vertices_mat a)
  /\ (forall a', update a faces = Ok a' ->
        _vertices_mat a' = _vertices_mat a
        /\ length (matrix a') = length (_vertices_mat a)
        /\ forall i, nth i (matrix a') vzero
             = vadd (vadd (nth i (_vertices_mat a) vzero)
                          (received false faces (_gfl a) i))
                    (received true faces (_lfl a) i)).
Proof.
  intros Hr. destruct (reachable_consistent a Hr) as [Hc1 Hc2].
  split.
  - intros Hg Hl.
    assert (Hhas : _has_face_loads a = false) by (apply Hc1; split; assumption).
    split; [| exact (Hc2 Hhas)].
    unfold update. rewrite Hhas. reflexivity.
  - intros a' H. destruct (_has_face_loads a) eqn:Hhas.
    + apply update_spec in H as (E1 & _ & _ & _ & E5 & E6); [| exact Hhas].
      unfold matrix. repeat split; assumption.
    + destruct (proj1 Hc1 eq_refl) as [Hg Hl].
      unfold update in H. rewrite Hhas in H. injection H as <-.
      unfold matrix. rewrite (Hc2 eq_refl), Hg, Hl.
      repeat split. intros i. unfold received. rewrite !vadd_zero_r.
      reflexivity.
Qed.

End Loads.

Section LoadsWitness.
Import LoadMatrixAssembler FaceLoads.

Lemma update_baseline_and_face_loads_witness :
  (update (G := Examples.geometry) Examples.path_loads [Examples.tri_face]
     = Ok Examples.path_loads
   /\ matrix Examples.path_loads = _vertices_mat Examples.path_loads)
  /\ (forall i, nth i (matrix Examples.tri_loads) vzero
        = vadd (vadd (nth i (_vertices_mat Examples.tri_loads) vzero)
                     (received (G := Examples.geometry) false
                        [Examples.tri_face] (_gfl Examples.tri_loads) i))
               (received (G := Examples.geometry) true
                  [Examples.tri_face] (_lfl Examples.tri_loads) i)).
Proof.
  split.
  - apply (update_baseline_and_face_loads (G := Examples.geometry)
             Examples.path_loads [Examples.tri_face]);
      [| reflexivity | reflexivity].
    apply (reachable_init (G := Examples.geometry) 3 []
             (Some [vec3 0 0 0; vec3 0 0 4; vec3 0 0 0]) None None).
    reflexivity.
  - apply (update_baseline_and_face_loads (G := Examples.geometry)
             Examples.tri_loads [Examples.tri_face]).
    + apply (reachable_init (G := Examples.geometry) 3 [Examples.tri_face]
               None (Some [vec3 0 0 (-3)]) (Some [vec3 3 0 0])).
      reflexivity.
    + reflexivity.
Defined.

End LoadsWitness.

(** ** Inner equilibrium solve *)

Section Solve.
Import NfdNumpy SolveSteps.
Context {G : Geometry}.

Lemma load_alloc_old (h : Heap) (a : Arr) (l : loc) (b : Arr) :
  load h l = Ok b -> load (fst (alloc h a)) l = Ok b.
Proof.
  unfold load, alloc. simpl.
  destruct (nth_error h l) as [x|] eqn:Hl; [| discriminate].
  rewrite nth_error_app1 by (apply nth_error_Some; congruence).
  rewrite Hl. auto.
Qed.

Lemma load_alloc_new (h : Heap) (a : Arr) :
  load (h ++ [a]) (length h) = Ok a.
Proof.
  unfold load. rewrite nth_error_app2, Nat.sub_diag by lia. reflexivity.
Qed.

Lemma load_fresh (h : Heap) (a : Arr) : load h (length h) <> Ok a.
Proof.
  unfold load.
  rewrite (proj2 (nth_error_None h (length h))) by lia. discriminate.
Qed.

Lemma store_alloc_new (h : Heap) (a a' : Arr) :
  store (h ++ [a]) (length h) a' = h ++ [a'].
Proof.
  unfold store. induction h as [|x h IH]; simpl; [reflexivity |].
  rewrite IH. reflexivity.
Qed.

Lemma load_Ok_lt (h : Heap) (l : loc) (a : Arr) :
  load h l = Ok a -> (l < length h)%nat.
Proof.
  unfold load. destruct (nth_error h l) eqn:E; [| discriminate].
  intros _. apply nth_error_Some. congruence.
Qed.

Lemma load_app_old (h : Heap) (a b : Arr) (l : loc) :
  load h l = Ok b -> load (h ++ [a]) l = Ok b.
Proof. exact (load_alloc_old h a l b). Qed.

Lemma _nfd_solve_steps (w : World) (xyz : loc) (fixed : list nat) (s_calc : Z)
    (w' : World) (_xyz : loc) (r : Arr) (s : StressResult) (f : list R) :
  _nfd_solve w xyz fixed s_calc = Ok (w', (_xyz, r, s, f)) ->
  solve_steps w xyz fixed s_calc w' _xyz r s f.
Proof.
  unfold _nfd_solve. intros H.
  apply bind_Ok_inv in H as (a & Ha & H). simpl in H.
  apply bind_Ok_inv in H as (st & Hst & H).
  apply bind_Ok_inv in H as (Di & HDi & H).
  apply bind_Ok_inv in H as (Df & HDf & H).
  apply bind_Ok_inv in H as (loads' & Hl & H).
  apply bind_Ok_inv in H as (p_free & Hpf & H).
  apply bind_Ok_inv in H as (a1 & Ha1 & H).
  rewrite (load_app_old _ _ _ _ Ha) in Ha1. injection Ha1 as <-.
  apply bind_Ok_inv in H as (x_fixed & Hxf & H).
  apply bind_Ok_inv in H as (Df_x & HDfx & H).
  apply bind_Ok_inv in H as (rhs & Hrhs & H).
  apply bind_Ok_inv in H as (sol & Hsol & H).
  apply bind_Ok_inv in H as (a2 & Ha2 & H).
  rewrite load_alloc_new in Ha2. injection Ha2 as <-.
  apply bind_Ok_inv in H as (x_new & Hnew & H).
  rewrite store_alloc_new in H.
  apply bind_Ok_inv in H as (a3 & Ha3 & H).
  rewrite (load_app_old _ _ _ _ Ha) in Ha3. injection Ha3 as <-.
  apply bind_Ok_inv in H as (D_x & HDx & H).
  apply bind_Ok_inv in H as (r' & Hr & H).
  injection H as <- <- <- <- <-.
  econstructor; simpl; try eassumption; reflexivity.
Qed.

Lemma coo_matrix_shape data rows cols (n m : nat) (M : Mat) :
  coo_matrix data rows cols (n, m) = Ok M ->
  ncols M = m /\ length (mrows M) = n.
Proof.
  unfold coo_matrix. simpl.
  destruct (forallb _ rows && forallb _ cols); [| discriminate].
  intros H; injection H as <-. simpl.
  rewrite length_map, length_seq. auto.
Qed.


Lemma dot_shape (M : Mat) (x y : Arr) :
  dot M x = Ok y ->
  ncols M = length x /\ y = map (fun row => dot_row row x) (mrows M).
Proof.
  unfold dot. destruct (Nat.eqb_spec (ncols M) (length x)); [| discriminate].
  intros H; injection H as <-. auto.
Qed.

Lemma asub_same_length (a b : Arr) :
  length a = length b -> asub a b = Ok (map2 vsub a b).
Proof.
  intros H. unfold asub, broadcast. rewrite H, Nat.eqb_refl. reflexivity.
Qed.

Lemma free_of_In (v : nat) (fixed : list nat) (i : nat) :
  In i (free_of v fixed) <-> (i < v)%nat /\ ~ In i fixed.
Proof.
  unfold free_of. rewrite filter_In, in_seq, negb_true_iff.
  split.
  - intros [Hi Hex]. split; [lia |]. intros Hin.
    assert (existsb (Nat.eqb i) fixed = true); [| congruence].
    apply existsb_exists. exists i. split; [exact Hin | apply Nat.eqb_refl].
  - intros [Hi Hnin]. split; [lia |].
    destruct (existsb (Nat.eqb i) fixed) eqn:E; [| reflexivity].
    apply existsb_exists in E as (j & Hj & Hij).
    apply Nat.eqb_eq in Hij. subst j. contradiction.
Qed.

Lemma free_of_NoDup (v : nat) (fixed : list nat) : NoDup (free_of v fixed).
Proof. apply NoDup_filter, seq_NoDup. Qed.

Lemma nth_error_set_nth {A} (l : list A) (i j : nat) (x : A) :
  nth_error (set_nth l i x) j
  = if (j =? i)%nat && (i <? length l)%nat then Some x else nth_error l j.
Proof.
  revert i j. induction l as [|y l IH]; intros [|i] [|j]; simpl;
    rewrite ?andb_false_r; try reflexivity.
  rewrite IH. reflexivity.
Qed.

Lemma nth_error_scatter_other (ids : list nat) (a vals : Arr) (i : nat) :
  ~ In i ids -> nth_error (scatter a ids vals) i = nth_error a i.
Proof.
  revert a vals. induction ids as [|k ids IH]; intros a [|x vals] Hi; simpl;
    try reflexivity.
  rewrite IH by (intros H; apply Hi; right; exact H).
  rewrite nth_error_set_nth.
  destruct (Nat.eqb_spec i k) as [->|]; [| reflexivity].
  exfalso. apply Hi. left. reflexivity.
Qed.

Lemma take_rows_ext (a b : Arr) (ids : list nat) :
  (forall i, In i ids -> nth_error a i = nth_error b i) ->
  take_rows a ids = take_rows b ids.
Proof.
  unfold take_rows. induction ids as [|k ids IH]; intros H; simpl.
  - reflexivity.
  - rewrite (H k (or_introl eq_refl)), IH; [reflexivity |].
    intros i Hi. apply H. right. exact Hi.
Qed.

Lemma take_rows_scatter (ids : list nat) :
  forall (a vals : Arr),
  NoDup ids -> length vals = length ids ->
  (forall i, In i ids -> (i < length a)%nat) ->
  take_rows (scatter a ids vals) ids = Ok vals.
Proof.
  induction ids as [|k ids IH]; intros a [|x vals] Hnd Hlen Hin;
    simpl in Hlen; try discriminate.
  - reflexivity.
  - inversion Hnd as [|k' ids' Hk Hnd']; subst.
    simpl scatter.
    change (take_rows ?b (k :: ids))
      with (bind (match nth_error b k with
                  | Some row => Ok row
                  | None => Raise IndexError
                  end)
                 (fun r => bind (take_rows b ids) (fun rs => Ok (r :: rs)))).
    rewrite (nth_error_scatter_other ids _ vals k Hk), nth_error_set_nth,
      Nat.eqb_refl.
    assert (Hk' : (k <? length a)%nat = true)
      by (apply Nat.ltb_lt, Hin; left; reflexivity).
    rewrite Hk'. simpl.
    rewrite IH; [reflexivity | exact Hnd' | lia |].
    intros i Hi. rewrite length_set_nth. apply Hin. right. exact Hi.
Qed.

Lemma take_rows_In_lt (a rows : Arr) (ids : list nat) :
  take_rows a ids = Ok rows -> forall i, In i ids -> (i < length a)%nat.
Proof.
  unfold take_rows. revert rows.
  induction ids as [|k ids IH]; intros rows H i Hi; [destruct Hi |].
  apply mapM_Ok_cons_inv in H as (r & rows' & Hr & Hrows & _).
  destruct Hi as [<- | Hi]; [| exact (IH _ Hrows i Hi)].
  destruct (nth_error a k) eqn:E; [| discriminate].
  apply nth_error_Some. congruence.
Qed.

(** The assignment [_xyz[free] = sol] of a solve whose solution has one row
    per free vertex. *)
Lemma set_rows_free (a a' sol : Arr) (fixed : list nat) :
  set_rows a (free_of (length a) fixed) sol = Ok a' ->
  length a' = length a
  /\ (forall i, ~ In i (free_of (length a) fixed) ->
        nth_error a' i = nth_error a i)
  /\ (length sol = length (free_of (length a) fixed) ->
      take_rows a' (free_of (length a) fixed) = Ok sol).
Proof.
  unfold set_rows. set (free := free_of (length a) fixed).
  destruct (forallb _ free); [| discriminate].
  intros H.
  assert (Hlt : forall i, In i free -> (i < length a)%nat)
    by (intros i Hi; apply free_of_In in Hi; tauto).
  destruct (Nat.eqb_spec (length sol) (length free)) as [Hlen|Hlen].
  - injection H as <-. split; [apply length_scatter |]. split.
    + intros i Hi. apply nth_error_scatter_other. exact Hi.
    + intros _. apply take_rows_scatter;
        [apply free_of_NoDup | exact Hlen | exact Hlt].
  - destruct sol as [|x [|y sol]]; try discriminate.
    injection H as <-. split; [apply length_scatter |]. split.
    + intros i Hi. apply nth_error_scatter_other. exact Hi.
    + intros Hl. contradiction.
Qed.

(** C4: the reactions returned by a solve are P - K_full . x_old: P the
    refreshed load matrix, K_full the stiffness matrix assembled in this
    solve, x_old the array passed in, which is not the array of the new
    coordinates. *)
Theorem reactions_from_previous_iterate (w : World) (xyz : loc)
    (fixed : list nat) (s_calc : Z) (w' : World) (_xyz : loc) (r : Arr)
    (s : StressResult) (f : list R) :
  _nfd_solve w xyz fixed s_calc = Ok (w', (_xyz, r, s, f)) ->
  exists (x_old : Arr) (K : StiffnessMatrixAssembler.t) (Kx : Arr),
    let P := LoadMatrixAssembler.matrix (loads w') in
    let K_full := StiffnessMatrixAssembler.matrix K in
    load (heap w) xyz = Ok x_old
    /\ StiffnessMatrixAssembler.__init__ (free_of (length x_old) fixed) fixed
         (edges w) (faces w) = Ok K
    /\ LoadMatrixAssembler.update (loads w) (faces w) = Ok (loads w')
    /\ dot K_full x_old = Ok Kx
    /\ asub P Kx = Ok r
    /\ length Kx = length x_old
    /\ (forall i, (i < length x_old)%nat ->
          nth i Kx vzero = dot_row (nth i (mrows K_full) []) x_old)
    /\ (length P = length x_old -> r = map2 vsub P Kx)
    /\ _xyz <> xyz
    /\ load (heap w') xyz = Ok x_old.
Proof.
  intros H. destruct (_nfd_solve_steps _ _ _ _ _ _ _ _ _ H).
  exists x_old, stiff, D_x. cbv zeta.
  destruct (dot_shape _ _ _ step_D_x) as [Hc HDx].
  assert (Hrows : length (mrows (StiffnessMatrixAssembler.matrix stiff))
                  = length x_old).
  { unfold StiffnessMatrixAssembler.__init__ in step_stiff.
    apply bind_Ok_inv in step_stiff as (l1 & _ & Hs).
    apply bind_Ok_inv in Hs as (M & HM & Hs). injection Hs as <-.
    apply coo_matrix_shape in HM as [HM1 HM2].
    unfold StiffnessMatrixAssembler.matrix in *. simpl in *. lia. }
  assert (Hlen : length D_x = length x_old)
    by (rewrite HDx, length_map; exact Hrows).
  repeat split; try assumption.
  - intros i Hi. rewrite HDx.
    rewrite nth_indep with (d' := dot_row [] x_old)
      by (rewrite length_map; lia).
    apply (map_nth (fun row => dot_row row x_old)).
  - intros HP. rewrite asub_same_length in step_r by lia. congruence.
  - pose proof (load_Ok_lt _ _ _ step_load). lia.
  - rewrite step_heap. apply load_app_old. exact step_load.
Qed.



(** C10: a solve leaves every array it was given as it was, the input
    coordinates among them; the coordinates it returns are a new array of
    the same length whose rows at the fixed vertices, and at every index
    that is not free, are the rows of the input. *)
Theorem solve_keeps_input_and_fixed_rows (w : World) (xyz : loc)
    (fixed : list nat) (s_calc : Z) (w' : World) (_xyz : loc) (r : Arr)
    (s : StressResult) (f : list R) :
  _nfd_solve w xyz fixed s_calc = Ok (w', (_xyz, r, s, f)) ->
  exists x_old x_new : Arr,
    load (heap w) xyz = Ok x_old
    /\ load (heap w') _xyz = Ok x_new
    /\ (forall l a, load (heap w) l = Ok a -> load (heap w') l = Ok a)
    /\ load (heap w') xyz = Ok x_old
    /\ _xyz <> xyz
    /\ (forall a, load (heap w) _xyz <> Ok a)
    /\ length x_new = length x_old
    /\ (forall i, In i fixed -> nth_error x_new i = nth_error x_old i)
    /\ (forall i, ~ In i (free_of (length x_old) fixed) ->
          nth_error x_new i = nth_error x_old i).
Proof.
  intros H. destruct (_nfd_solve_steps _ _ _ _ _ _ _ _ _ H).
  exists x_old, x_new.
  destruct (set_rows_free _ _ _ _ step_assign) as (Hlen & Hother & _).
  assert (Hkeep : forall l a, load (heap w) l = Ok a -> load (heap w') l = Ok a).
  { intros l a Hl. rewrite step_heap. apply load_app_old. exact Hl. }
  repeat split; try assumption.
  - subst _xyz. rewrite step_heap. apply load_alloc_new.
  - apply Hkeep. exact step_load.
  - pose proof (load_Ok_lt _ _ _ step_load). lia.
  - intros a. subst _xyz. apply load_fresh.
  - intros i Hi. apply Hother. intros Hf. apply free_of_In in Hf. tauto.
Qed.

(** C3: with [kmax = 1] the driver is one inner solve with the requested
    stress mode: it returns the coordinates, reactions, stresses and forces
    of that solve and prints nothing; [nfd] is [nfd_ur] at [kmax = 1]. *)
Theorem single_pass_is_inner_solve (faces : list NaturalFace)
    (edges : list NaturalEdge) (vertices : Arr) (fixed : list nat)
    (vertex_loads global_face_loads local_face_loads : option Arr)
    (s_calc : Z) (s_tol xyz_tol : R) :
  nfd_ur faces edges vertices fixed vertex_loads global_face_loads
    local_face_loads s_calc s_tol xyz_tol 1
  = (loads <- LoadMatrixAssembler.__init__ (length vertices) faces
               vertex_loads global_face_loads local_face_loads ;;
     '(w, (_xyz, r, s, f)) <-
        _nfd_solve (mkWorld [vertices] faces edges loads) 0%nat fixed s_calc ;;
     _xyz_a <- load (heap w) _xyz ;;
     Ok (mkOutput _xyz_a r s f None))
  /\ nfd faces edges vertices fixed vertex_loads global_face_loads
       local_face_loads s_calc s_tol xyz_tol
     = nfd_ur faces edges vertices fixed vertex_loads global_face_loads
         local_face_loads s_calc s_tol xyz_tol 1
  /\ forall out,
       nfd_ur faces edges vertices fixed vertex_loads global_face_loads
         local_face_loads s_calc s_tol xyz_tol 1 = Ok out ->
       exists loads w _xyz,
         LoadMatrixAssembler.__init__ (length vertices) faces vertex_loads
           global_face_loads local_face_loads = Ok loads
         /\ _nfd_solve (mkWorld [vertices] faces edges loads) 0%nat fixed s_calc
            = Ok (w, (_xyz, ret_r out, ret_s out, ret_f out))
         /\ load (heap w) _xyz = Ok (ret_xyz out)
         /\ printed out = None.
Proof.
  split; [reflexivity |]. split; [reflexivity |].
  intros out H. unfold nfd_ur in H.
  apply bind_Ok_inv in H as (loads & Hl & H). simpl in H.
  apply bind_Ok_inv in H as ([w [[[_xyz r] s] f]] & Hs & H).
  apply bind_Ok_inv in H as (a & Ha & H). injection H as <-.
  exists loads, w, _xyz. simpl. auto.
Qed.

End Solve.

Section SolveWitness.
Import NfdNumpy SolveSteps Examples.

Lemma spsolve_1_solves : spsolve_solves (G := geometry).
Proof.
  intros A b x. simpl. unfold spsolve_1.
  destruct A as [n rows]. simpl.
  destruct rows as [|[|a [|]] [|]]; try discriminate.
  destruct b as [|v [|]]; try discriminate.
  destruct (Nat.eqb_spec n 1) as [->|]; [| discriminate]. simpl.
  destruct (Req_dec_T a 0) as [|Ha]; [discriminate |].
  intros H; injection H as <-.
  unfold dot. simpl.
  assert (E : vadd (vscale (vscale v (/ a)) a) vzero = v)
    by (apply vec3_eq; simpl; field; exact Ha).
  rewrite E. reflexivity.
Qed.

(** The solve of the path example returns. *)
Lemma path_solve_runs :
  exists w' _xyz r s f,
    _nfd_solve (G := geometry) path_world 0%nat [0; 2]%nat 1
    = Ok (w', (_xyz, r, s, f)).
Proof.
  unfold _nfd_solve. cbn.
  destruct (Req_dec_T _ 0) as [E|E]; [exfalso; lra |].
  cbn. do 5 eexists. reflexivity.
Qed.

Lemma reactions_from_previous_iterate_witness :
  exists w' _xyz r s f,
    _nfd_solve (G := geometry) path_world 0%nat [0; 2]%nat 1
    = Ok (w', (_xyz, r, s, f))
    /\ exists Kx,
         asub (LoadMatrixAssembler.matrix (loads w')) Kx = Ok r
         /\ length Kx = 3%nat
         /\ _xyz <> 0%nat
         /\ load (heap w') 0%nat = Ok path_vertices.
Proof.
  destruct path_solve_runs as (w' & _xyz & r & s & f & H).
  exists w', _xyz, r, s, f. split; [exact H |].
  destruct (reactions_from_previous_iterate (G := geometry) _ _ _ _ _ _ _ _ _ H)
    as (x_old & K & Kx & Hload & _ & _ & _ & Hr & Hlen & _ & _ & Hne & Hkeep).
  assert (Hx : x_old = path_vertices) by (injection Hload as <-; reflexivity).
  subst x_old. exists Kx. auto.
Defined.




Lemma solve_keeps_input_and_fixed_rows_witness :
  exists w' _xyz r s f,
    _nfd_solve (G := geometry) path_world 0%nat [0; 2]%nat 1
    = Ok (w', (_xyz, r, s, f))
    /\ load (heap w') 0%nat = Ok path_vertices
    /\ exists x_new,
         load (heap w') _xyz = Ok x_new
         /\ nth_error x_new 0 = Some (vec3 0 0 0)
         /\ nth_error x_new 2 = Some (vec3 2 0 0).
Proof.
  destruct path_solve_runs as (w' & _xyz & r & s & f & H).
  exists w', _xyz, r, s, f. split; [exact H |].
  destruct (solve_keeps_input_and_fixed_rows (G := geometry)
              _ _ _ _ _ _ _ _ _ H)
    as (x_old & x_new & Hload & Hnew & _ & Hkeep & _ & _ & _ & Hfixed & _).
  assert (Hx : x_old = path_vertices) by (injection Hload as <-; reflexivity).
  subst x_old. split; [exact Hkeep |].
  exists x_new. split; [exact Hnew |]. split.
  - rewrite (Hfixed 0%nat) by (simpl; auto). reflexivity.
  - rewrite (Hfixed 2%nat) by (simpl; auto). reflexivity.
Defined.

End SolveWitness.

(** ** Outer iteration *)

Section Loop.
Import NfdNumpy SolveSteps OuterLoop.
Context {G : Geometry}.

Lemma Rltb_true_iff (x y : R) : Rltb x y = true <-> x < y.
Proof.
  unfold Rltb. destruct (Rlt_dec x y); split; intros; try assumption;
    try reflexivity; try discriminate; contradiction.
Qed.

Lemma fold_left_Rmax_spec (l : list R) (x : R) :
  (x <= fold_left Rmax l x /\ forall y, In y l -> y <= fold_left Rmax l x)
  /\ (fold_left Rmax l x = x \/ In (fold_left Rmax l x) l).
Proof.
  revert x. induction l as [|z l IH]; intros x; simpl.
  - split; [split; [lra | tauto] | left; reflexivity].
  - destruct (IH (Rmax x z)) as [[H1 H2] H3].
    pose proof (Rmax_l x z). pose proof (Rmax_r x z).
    split; [split |].
    + lra.
    + intros y [<- | Hy]; [lra | apply H2; exact Hy].
    + destruct H3 as [H3 | H3]; [| right; right; exact H3].
      rewrite H3. unfold Rmax. destruct (Rle_dec x z); auto.
Qed.

Lemma In_map2 {A B C} (f : A -> B -> C) (l : list A) (m : list B) (z : C) :
  In z (map2 f l m)
  <-> exists i a b, nth_error l i = Some a /\ nth_error m i = Some b
                    /\ f a b = z.
Proof.
  revert m. induction l as [|a l IH]; intros [|b m]; simpl.
  - split; [tauto | intros ([|i] & ? & ? & H & _); discriminate].
  - split; [tauto | intros ([|i] & ? & ? & H & _); discriminate].
  - split; [tauto | intros ([|i] & ? & ? & _ & H & _); discriminate].
  - rewrite IH. split.
    + intros [H | (i & a' & b' & H)].
      * exists 0%nat, a, b. auto.
      * exists (S i), a', b'. exact H.
    + intros ([|i] & a' & b' & Ha & Hb & Hz); simpl in *.
      * left. congruence.
      * right. exists i, a', b'. auto.
Qed.

Lemma length_map2 {A B C} (f : A -> B -> C) (l : list A) (m : list B) :
  length l = length m -> length (map2 f l m) = length l.
Proof.
  revert m. induction l as [|a l IH]; intros [|b m] H; simpl in *;
    try discriminate; auto.
Qed.

Lemma norm_axis1_map2 (a b : Arr) :
  norm_axis1 (map2 vsub a b) = map2 distance a b.
Proof.
  revert b. induction a as [|x a IH]; intros [|y b]; simpl; try reflexivity.
  rewrite <- IH. reflexivity.
Qed.

Lemma py_max_spec (prev this : Arr) (d : R) :
  py_max (map2 distance prev this) = Ok d -> is_max_distance prev this d.
Proof.
  unfold py_max. destruct (map2 distance prev this) as [|x l] eqn:E;
    [discriminate |].
  intros H; injection H as <-.
  destruct (fold_left_Rmax_spec l x) as [[H1 H2] H3].
  assert (Hin : forall y, In y (x :: l) -> y <= fold_left Rmax l x).
  { intros y [<- | Hy]; [exact H1 | exact (H2 y Hy)]. }
  rewrite <- E in Hin. split.
  - intros i p t Hp Ht. apply Hin. apply In_map2.
    exists i, p, t. auto.
  - assert (Hm : In (fold_left Rmax l x) (map2 distance prev this)).
    { rewrite E. destruct H3 as [-> | H3]; [left; reflexivity | right; exact H3]. }
    apply In_map2 in Hm. exact Hm.
Qed.

(** A pass that returns computes the residuals and the flag as stated. *)
Lemma iteration_meets_spec (s_tol xyz_tol : R) (fixed : list nat)
    (w : World) (xyz : loc) (w' : World) (vars : loop_vars) :
  stress_rows ->
  iteration s_tol xyz_tol fixed w xyz = Ok (w', vars) ->
  iteration_spec s_tol xyz_tol fixed w xyz w' vars.
Proof.
  intros Hrows H. unfold iteration in H.
  apply bind_Ok_inv in H as ([w1 [[[_xyz r] s] f]] & Hsolve & H).
  cbv beta iota zeta in H.
  apply bind_Ok_inv in H as (ds & Hds & H).
  apply bind_Ok_inv in H as (x_prev & Hprev & H).
  apply bind_Ok_inv in H as (x_this & Hthis & H).
  apply bind_Ok_inv in H as (dx & Hdx & H).
  apply bind_Ok_inv in H as (xyz_d & Hmax & H).
  injection H as <- <-. simpl.
  destruct (_nfd_solve_steps _ _ _ _ _ _ _ _ _ Hsolve).
  assert (Hp : x_prev = x_old).
  { rewrite step_heap, (load_app_old _ _ _ _ step_load) in Hprev. congruence. }
  assert (Ht : x_this = x_new).
  { subst _xyz. rewrite step_heap, load_alloc_new in Hthis. congruence. }
  subst x_prev x_this.
  destruct (set_rows_free _ _ _ _ step_assign) as (Hlen & _ & _).
  rewrite asub_same_length in Hdx by lia. injection Hdx as <-.
  rewrite norm_axis1_map2 in Hmax.
  destruct (Hrows (faces w1) x_new) as [Hra Hrg].
  rewrite <- step_s in Hra.
  rewrite asub_same_length in Hds by lia. injection Hds as <-.
  rewrite norm_axis1_map2.
  apply (Iteration_spec _ _ _ _ _ _ _ s x_old x_new); simpl.
  - exact Hsolve.
  - exact Hprev.
  - exact Hthis.
  - unfold average, mean_distance.
    destruct (get_stress_goals (faces w1)) as [|g goals] eqn:Eg.
    + reflexivity.
    + destruct (amplitudes s) as [|a amps] eqn:Ea;
        [simpl in Hra, Hrg; lia |].
      assert (Hl : length (map2 distance (g :: goals) (a :: amps))
                   = length (g :: goals))
        by (apply length_map2; simpl in Hra, Hrg; simpl; lia).
      rewrite <- Hl. reflexivity.
  - apply py_max_spec. exact Hmax.
  - rewrite orb_true_iff, Rltb_true_iff. unfold nan_ltb.
    destruct (average _) as [sr|].
    + rewrite Rltb_true_iff. split.
      * intros [Hs | Hx]; [left; exists sr; auto | right; exact Hx].
      * intros [(sr' & E & Hs) | Hx]; [left; congruence | right; exact Hx].
    + split.
      * intros [Hs | Hx]; [discriminate | right; exact Hx].
      * intros [(sr' & E & _) | Hx]; [discriminate | right; exact Hx].
Qed.

Section ForLoop.
Variables (s_tol xyz_tol : R) (fixed : list nat).

Ltac same_pass :=
  match goal with
  | |- Some (Z.of_nat ?a, ?v) = Some (Z.of_nat ?b, ?v) =>
      apply f_equal; apply (f_equal (fun z => (z, v)));
      apply f_equal; lia
  end.

Lemma for_loop_runs (m : nat) :
  forall (k0 : nat) (w : World) (xyz : loc) last w' xyz' last',
  for_loop s_tol xyz_tol fixed (map Z.of_nat (seq k0 m)) w xyz last
  = Ok (w', xyz', last') ->
  (m = 0%nat /\ w' = w /\ xyz' = xyz /\ last' = last)
  \/ exists n vars,
       (1 <= n <= m)%nat
       /\ runs s_tol xyz_tol fixed n w xyz w' vars
       /\ last' = Some (Z.of_nat (k0 + n - 1), vars)
       /\ xyz' = lv_xyz vars
       /\ (lv_converged vars = true \/ n = m).
Proof.
  induction m as [|m IH]; intros k0 w xyz last w' xyz' last' H.
  - simpl in H. injection H as <- <- <-. left. auto.
  - right. simpl in H.
    apply bind_Ok_inv in H as ([w1 vars1] & Hit & H). cbv beta iota in H.
    destruct (lv_converged vars1) eqn:Hc.
    + injection H as <- <- <-. exists 1%nat, vars1.
      repeat split; try lia; auto.
      * apply runs_last. exact Hit.
      * same_pass.
    + apply IH in H as [(-> & -> & -> & ->) | (n & vars & Hn & Hr & -> & -> & Hx)].
      * exists 1%nat, vars1.
        repeat split; try lia; auto.
        -- apply runs_last. exact Hit.
        -- same_pass.
      * exists (S n), vars.
        repeat split; try lia; auto.
        -- eapply runs_next; eassumption.
        -- same_pass.
        -- destruct Hx as [Hx | ->]; auto.
Qed.

Lemma runs_for_loop (n : nat) (w : World) (xyz : loc) (w' : World)
    (vars : loop_vars) :
  runs s_tol xyz_tol fixed n w xyz w' vars ->
  forall (m k0 : nat) last,
  (n <= m)%nat -> lv_converged vars = true \/ n = m ->
  for_loop s_tol xyz_tol fixed (map Z.of_nat (seq k0 m)) w xyz last
  = Ok (w', lv_xyz vars, Some (Z.of_nat (k0 + n - 1), vars)).
Proof.
  induction 1 as [w xyz w' vars Hit | n w xyz w1 vars1 w' vars Hit Hc Hr IH];
    intros m k0 last Hn Hx.
  - destruct m as [|m]; [lia |]. simpl. rewrite Hit. simpl.
    replace (k0 + 1 - 1)%nat with k0 by lia.
    destruct (lv_converged vars) eqn:Hc; [reflexivity |].
    destruct Hx as [Hx | Hx]; [discriminate |].
    assert (m = 0%nat) by lia. subst m. reflexivity.
  - destruct m as [|m]; [lia |]. simpl. rewrite Hit. simpl. rewrite Hc.
    rewrite (IH m (S k0) (Some (Z.of_nat k0, vars1))); [| lia |].
    + apply f_equal, f_equal. same_pass.
    + destruct Hx as [Hx | Hx]; [left; exact Hx | right; lia].
Qed.

Lemma runs_positive (n : nat) (w : World) (xyz : loc) (w' : World)
    (vars : loop_vars) :
  runs s_tol xyz_tol fixed n w xyz w' vars -> (1 <= n)%nat.
Proof. induction 1; lia. Qed.

Lemma runs_loaded (n : nat) (w : World) (xyz : loc) (w' : World)
    (vars : loop_vars) :
  stress_rows ->
  runs s_tol xyz_tol fixed n w xyz w' vars ->
  exists a, load (heap w') (lv_xyz vars) = Ok a.
Proof.
  intros Hrows. induction 1 as [w xyz w' vars Hit | ]; [| assumption].
  destruct (iteration_meets_spec _ _ _ _ _ _ _ Hrows Hit). eauto.
Qed.

End ForLoop.

(** C1: in a run with [kmax > 1], every pass computes the stress residual
    as the mean over the faces of the norm of goal stress minus the stress
    just computed, the displacement residual as the largest distance between
    a vertex's previous and new coordinates, and counts as converged exactly
    when the stress residual is below [s_tol] or the displacement residual
    below [xyz_tol].  The loop stops at the first converged pass and
    otherwise makes [kmax] passes; it returns whenever its passes do. *)
Theorem outer_loop_exit (faces : list NaturalFace) (edges : list NaturalEdge)
    (vertices : Arr) (fixed : list nat)
    (vertex_loads global_face_loads local_face_loads : option Arr)
    (s_calc : Z) (s_tol xyz_tol : R) (kmax : Z) :
  (1 < kmax)%Z ->
  stress_rows ->
  let init := LoadMatrixAssembler.__init__ (length vertices) faces
                vertex_loads global_face_loads local_face_loads in
  let run := nfd_ur faces edges vertices fixed vertex_loads
               global_face_loads local_face_loads s_calc s_tol xyz_tol kmax in
  (forall w xyz w' vars,
     iteration s_tol xyz_tol fixed w xyz = Ok (w', vars) ->
     iteration_spec s_tol xyz_tol fixed w xyz w' vars)
  /\ (forall out, run = Ok out ->
      exists loads n w' vars,
        init = Ok loads
        /\ runs s_tol xyz_tol fixed n (mkWorld [vertices] faces edges loads)
             0%nat w' vars
        /\ (1 <= n)%nat /\ (Z.of_nat n <= kmax)%Z
        /\ (lv_converged vars = true \/ Z.of_nat n = kmax)
        /\ printed out = Some (exit_message n vars)
        /\ load (heap w') (lv_xyz vars) = Ok (ret_xyz out)
        /\ ret_r out = lv_r vars /\ ret_f out = lv_f vars
        /\ ret_s out = get_stresses (NfdNumpy.faces w') (ret_xyz out) s_calc)
  /\ (forall loads n w' vars,
        init = Ok loads ->
        runs s_tol xyz_tol fixed n (mkWorld [vertices] faces edges loads)
          0%nat w' vars ->
        (Z.of_nat n <= kmax)%Z ->
        lv_converged vars = true \/ Z.of_nat n = kmax ->
        exists out, run = Ok out /\ printed out = Some (exit_message n vars)).
Proof.
  intros Hk Hrows init run.
  assert (Hne : (kmax =? 1)%Z = false) by (apply Z.eqb_neq; lia).
  split; [| split].
  - intros w xyz w' vars. apply iteration_meets_spec. exact Hrows.
  - intros out H. unfold run, nfd_ur in H.
    apply bind_Ok_inv in H as (loads & Hl & H). simpl in H.
    rewrite Hne in H.
    apply bind_Ok_inv in H as ([[w' xyz'] last] & Hloop & H).
    cbv beta iota in H. unfold range in Hloop.
    apply for_loop_runs in Hloop
      as [(Hz & _) | (n & vars & Hn & Hr & -> & -> & Hx)]; [lia |].
    apply bind_Ok_inv in H as (a & Ha & H). injection H as <-.
    exists loads, n, w', vars. simpl.
    repeat split; try assumption; try lia.
    + destruct Hx as [Hx | ->]; [left; exact Hx | right; lia].
    + unfold _output_message, exit_message. f_equal.
      destruct (lv_converged vars); f_equal; lia.
  - intros loads n w' vars Hl Hr Hn Hx.
    destruct (runs_loaded _ _ _ _ _ _ _ _ Hrows Hr) as (a & Ha).
    pose proof (runs_positive _ _ _ _ _ _ _ _ Hr) as Hpos.
    eexists. unfold run, nfd_ur. fold init. rewrite Hl. simpl.
    rewrite Hne. unfold range.
    rewrite (runs_for_loop _ _ _ _ _ _ _ _ Hr (Z.to_nat kmax) 0%nat None);
      [| lia | destruct Hx as [Hx | Hx]; [left; exact Hx | right; lia]].
    simpl. rewrite Ha. simpl. split; [reflexivity |].
    simpl. unfold _output_message, exit_message. f_equal.
    destruct (lv_converged vars); f_equal; lia.
Qed.

End Loop.

Section LoopWitness.
Import NfdNumpy SolveSteps OuterLoop Examples.

Lemma stress_rows_geometry : stress_rows (G := geometry).
Proof. intros faces xyz. simpl. rewrite length_map. auto. Qed.

Lemma vnorm_null (v : Vec3) :
  c0 v = 0 -> c1 v = 0 -> c2 v = 0 -> vnorm v = 0.
Proof.
  intros H0 H1 H2. unfold vnorm. rewrite H0, H1, H2.
  replace (0 ^ 2 + 0 ^ 2 + 0 ^ 2) with 0 by lra. apply sqrt_0.
Qed.

Lemma vnorm_unit_y (v : Vec3) :
  c0 v = 0 -> c1 v = 1 -> c2 v = 0 -> vnorm v = 1.
Proof.
  intros H0 H1 H2. unfold vnorm. rewrite H0, H1, H2.
  replace (0 ^ 2 + 1 ^ 2 + 0 ^ 2) with 1 by lra. apply sqrt_1.
Qed.

Lemma Rltb_false (x y : R) : y <= x -> Rltb x y = false.
Proof. intros H. unfold Rltb. destruct (Rlt_dec x y); [lra | reflexivity]. Qed.

Lemma Rltb_true (x y : R) : x < y -> Rltb x y = true.
Proof. intros H. apply Rltb_true_iff. exact H. Qed.

Ltac solve_path :=
  match goal with
  | |- context [vscale ?a (/ ?b)] =>
      replace (vscale a (/ b)) with (vec3 1 0 1)
        by (replace b with 4 by lra; apply vec3_eq; simpl; lra)
  end.

Ltac norms :=
  repeat match goal with
         | |- context [vnorm ?v] =>
             first [ rewrite (vnorm_null v) by (simpl; lra)
                   | rewrite (vnorm_unit_y v) by (simpl; lra) ]
         end.

(** The first pass on the path moves the middle vertex by 1. *)
Lemma path_pass_1 :
  exists vars,
    iteration (G := geometry) (1 / 2) (1 / 2) [0; 2]%nat path_world 0%nat
    = Ok (path_world_1, vars)
    /\ lv_xyz vars = 1%nat /\ lv_converged vars = false.
Proof.
  unfold iteration, _nfd_solve. cbn.
  destruct (Req_dec_T _ 0) as [E|E]; [exfalso; lra |].
  cbn. solve_path. eexists. split; [reflexivity |].
  split; [reflexivity |]. cbn. norms.
  apply Rltb_false.
  rewrite (Rmax_right 0 1) by lra. rewrite (Rmax_left 1 0) by lra. lra.
Qed.

(** The second pass leaves it where it is. *)
Lemma path_pass_2 :
  exists w' vars,
    iteration (G := geometry) (1 / 2) (1 / 2) [0; 2]%nat path_world_1 1%nat
    = Ok (w', vars)
    /\ lv_converged vars = true.
Proof.
  unfold iteration, _nfd_solve. cbn.
  destruct (Req_dec_T _ 0) as [E|E]; [exfalso; lra |].
  cbn. solve_path. do 2 eexists. split; [reflexivity |].
  cbn. norms.
  apply Rltb_true.
  rewrite (Rmax_left 0 0) by lra. rewrite (Rmax_left 0 0) by lra. lra.
Qed.

Lemma path_runs :
  exists w' vars,
    runs (G := geometry) (1 / 2) (1 / 2) [0; 2]%nat 2 path_world 0%nat w' vars
    /\ lv_converged vars = true.
Proof.
  destruct path_pass_1 as (vars1 & H1 & Hx & Hc1).
  destruct path_pass_2 as (w' & vars & H2 & Hc).
  exists w', vars. split; [| exact Hc].
  eapply runs_next; [exact H1 | exact Hc1 |].
  rewrite Hx. apply runs_last. exact H2.
Qed.

Lemma outer_loop_exit_witness :
  exists out,
    nfd_ur (G := geometry) [] path_edges path_vertices [0; 2]%nat
      (Some [vec3 0 0 0; vec3 0 0 4; vec3 0 0 0]) None None 1
      (1 / 2) (1 / 2) 3
    = Ok out
    /\ printed out = Some (Convergence_reached 2).
Proof.
  destruct (outer_loop_exit (G := geometry) [] path_edges path_vertices
              [0; 2]%nat (Some [vec3 0 0 0; vec3 0 0 4; vec3 0 0 0])
              None None 1 (1 / 2) (1 / 2) 3)
    as (_ & _ & Hreturns); [lia | exact stress_rows_geometry |].
  destruct path_runs as (w' & vars & Hruns & Hc).
  destruct (Hreturns path_loads 2%nat w' vars) as (out & Hout & Hp);
    [reflexivity | exact Hruns | lia | left; exact Hc |].
  exists out. split; [exact Hout |].
  rewrite Hp. unfold exit_message. rewrite Hc. reflexivity.
Defined.

End LoopWitness.

(** * Further properties *)

(** ** Stress tensors, rotations and the helpers of [math_utilities] *)

Section MathUtilitiesFacts.
Import MathUtilities Examples.

Lemma mat22_eq (A B : Mat22) :
  m00 A = m00 B -> m01 A = m01 B -> m10 A = m10 B -> m11 A = m11 B -> A = B.
Proof. destruct A, B; simpl; intros; subst; reflexivity. Qed.

Lemma Reqb_true_iff (x y : R) : Reqb x y = true <-> x = y.
Proof.
  unfold Reqb. destruct (Req_dec_T x y); split; intros; try assumption;
    try reflexivity; try discriminate; contradiction.
Qed.

(** Pseudo-vector and tensor forms convert back and forth: every
    pseudo-vector survives the round trip through a tensor, the tensor is
    symmetric, and a tensor survives the round trip through a pseudo-vector
    exactly when it is symmetric. *)
Theorem stress_vec_tensor_round_trip (v : NpVec) (t : Mat22) :
  stress_tensor_to_vec (stress_vec_to_tensor v) = v
  /\ T22 (stress_vec_to_tensor v) = stress_vec_to_tensor v
  /\ (stress_vec_to_tensor (stress_tensor_to_vec t) = t <-> m10 t = m01 t).
Proof.
  split; [| split].
  - destruct v; reflexivity.
  - destruct v; reflexivity.
  - destruct t as [a b c d].
    unfold stress_vec_to_tensor, stress_tensor_to_vec, npvec, v0, v1, v2.
    simpl. split.
    + intros H. injection H as H. symmetry. exact H.
    + intros ->. reflexivity.
Qed.

(** The rotation matrices form a group action: a rotation matrix is
    orthogonal with determinant 1, its transpose is the rotation by the
    opposite angle, the zero angle gives the identity and the product of
    two rotations is the rotation by the sum of the angles. *)
Theorem planar_rotation_group (a b : R) :
  dot22 (T22 (planar_rotation a)) (planar_rotation a) = I22
  /\ dot22 (planar_rotation a) (T22 (planar_rotation a)) = I22
  /\ m00 (planar_rotation a) * m11 (planar_rotation a)
     - m01 (planar_rotation a) * m10 (planar_rotation a) = 1
  /\ T22 (planar_rotation a) = planar_rotation (- a)
  /\ planar_rotation 0 = I22
  /\ dot22 (planar_rotation a) (planar_rotation b) = planar_rotation (a + b).
Proof.
  pose proof (sin_cos_sq a) as Ha.
  repeat split.
  - apply mat22_eq; simpl; nra.
  - apply mat22_eq; simpl; nra.
  - simpl. nra.
  - apply mat22_eq; simpl; rewrite ?sin_neg, ?cos_neg; lra.
  - apply mat22_eq; simpl; rewrite ?sin_0, ?cos_0; lra.
  - apply mat22_eq; simpl; rewrite ?sin_plus, ?cos_plus; lra.
Qed.

(** The angle form of the stress transform is the matrix form with the
    rotation matrix of the angle, for both values of [invert]. *)
Theorem angle_form_is_matrix_form (s : NpVec) (theta : R) (invert : bool) :
  transform_stress_angle s theta invert
  = transform_stress s (planar_rotation theta) invert.
Proof.
  destruct s as [x y z].
  destruct invert;
    unfold transform_stress_angle, transform_stress, s2, c2, npvec, v0, v1, v2,
      stress_vec_to_tensor, stress_tensor_to_vec, planar_rotation, dot22, T22;
    simpl; rewrite ?sin_neg, ?cos_neg; apply npvec_eq;
    unfold v0, v1, v2; simpl; ring.
Qed.

(** The angle the angle form works with. *)
Lemma transform_stress_angle_signed (s : NpVec) (theta : R) :
  transform_stress_angle s theta true = transform_stress_angle s (- theta) false.
Proof. reflexivity. Qed.

(** Transforms by angles compose: transforming by [a] and then by [b] is
    transforming by [a + b], the zero angle changes nothing, and with
    [invert] an angle counts with the opposite sign. *)
Theorem transform_stress_angle_compose (s : NpVec) (a b : R) (i j : bool) :
  let signed (theta : R) (invert : bool) := if invert then - theta else theta in
  transform_stress_angle (transform_stress_angle s a i) b j
  = transform_stress_angle s (signed a i + signed b j) false
  /\ transform_stress_angle s 0 i = s.
Proof.
  cbv zeta. split.
  - assert (H : forall x y,
              transform_stress_angle (transform_stress_angle s x false) y false
              = transform_stress_angle s (x + y) false).
    { intros x y. destruct s as [p q r].
      unfold transform_stress_angle, s2, c2, npvec, v0, v1, v2. simpl.
      rewrite sin_plus, cos_plus. apply npvec_eq; unfold v0, v1, v2; simpl; ring. }
    destruct i, j; rewrite ?transform_stress_angle_signed; apply H.
  - destruct s as [p q r].
    destruct i; unfold transform_stress_angle, s2, c2, npvec, v0, v1, v2; simpl;
      rewrite ?Ropp_0, sin_0, cos_0; apply npvec_eq; unfold v0, v1, v2; simpl;
      ring.
Qed.

(** A stress transform keeps the two invariants of the tensor, the trace
    σx + σy and the determinant σx·σy - τxy²: for every angle, and for
    every matrix R with Rᵀ·R = I. *)
Theorem transform_keeps_invariants (s : NpVec) (theta : R) (Rm : Mat22)
    (invert : bool) :
  dot22 (T22 Rm) Rm = I22 ->
  let trace (v : NpVec) := v0 v + v1 v in
  let det (v : NpVec) := v0 v * v1 v - v2 v * v2 v in
  trace (transform_stress_angle s theta invert) = trace s
  /\ det (transform_stress_angle s theta invert) = det s
  /\ trace (transform_stress s Rm invert) = trace s
  /\ det (transform_stress s Rm invert) = det s.
Proof.
  intros HR. cbv zeta.
  assert (Hm : forall inv,
            v0 (transform_stress s Rm inv) + v1 (transform_stress s Rm inv)
            = v0 s + v1 s
            /\ v0 (transform_stress s Rm inv) * v1 (transform_stress s Rm inv)
               - v2 (transform_stress s Rm inv) * v2 (transform_stress s Rm inv)
               = v0 s * v1 s - v2 s * v2 s).
  { intros inv. destruct Rm as [a b c d]. destruct s as [x y z].
    unfold dot22, T22, I22 in HR. simpl in HR.
    injection HR as H1 H2 H3 H4.
    destruct (orthogonal_rows a b c d H1 H2 H4) as (G1 & G2 & G3).
    destruct inv; unfold transform_stress, stress_vec_to_tensor,
      stress_tensor_to_vec, dot22, T22, v0, v1, v2, npvec; simpl;
      split; nsatz. }
  split; [| split; [| split]].
  - destruct s as [x y z].
    pose proof (sin_cos_sq theta) as Hsc.
    pose proof (sin_cos_sq (- theta)) as Hsc'.
    destruct invert; unfold transform_stress_angle, s2, c2, v0, v1, v2, npvec;
      simpl; nsatz.
  - destruct s as [x y z].
    pose proof (sin_cos_sq theta) as Hsc.
    pose proof (sin_cos_sq (- theta)) as Hsc'.
    destruct invert; unfold transform_stress_angle, s2, c2, v0, v1, v2, npvec;
      simpl; nsatz.
  - apply Hm.
  - apply Hm.
Qed.

Lemma transform_keeps_invariants_witness :
  v0 (transform_stress (npvec 1 2 3) quarter_turn false)
  + v1 (transform_stress (npvec 1 2 3) quarter_turn false) = 1 + 2.
Proof.
  assert (H : dot22 (T22 quarter_turn) quarter_turn = I22).
  { unfold dot22, T22, quarter_turn, I22; simpl; f_equal; lra. }
  destruct (transform_keeps_invariants (npvec 1 2 3) 0 quarter_turn false H)
    as (_ & _ & Ht & _).
  exact Ht.
Defined.

(** [is_isotropic] holds exactly for σx = σy and τxy = 0, and an isotropic
    stress is left as it is by every angle transform and by the transform
    with every matrix R with Rᵀ·R = I. *)
Theorem isotropic_stress_is_invariant (s : NpVec) (theta : R) (Rm : Mat22)
    (invert : bool) :
  (is_isotropic s = true <-> v0 s = v1 s /\ v2 s = 0)
  /\ (is_isotropic s = true ->
      transform_stress_angle s theta invert = s
      /\ (dot22 (T22 Rm) Rm = I22 -> transform_stress s Rm invert = s)).
Proof.
  assert (Hiff : is_isotropic s = true <-> v0 s = v1 s /\ v2 s = 0).
  { unfold is_isotropic. rewrite andb_true_iff, !Reqb_true_iff. tauto. }
  split; [exact Hiff |].
  intros Hiso. apply Hiff in Hiso as [H01 H2].
  destruct s as [x y z]. unfold v0, v1, v2 in H01, H2. simpl in H01, H2.
  subst y z. split.
  - pose proof (sin_cos_sq theta) as Hsc.
    destruct invert; unfold transform_stress_angle, s2, c2, npvec, v0, v1, v2;
      simpl; rewrite ?sin_neg, ?cos_neg; apply npvec_eq;
      unfold v0, v1, v2; simpl; nsatz.
  - intros HR. destruct Rm as [a b c d].
    unfold dot22, T22, I22 in HR. simpl in HR.
    injection HR as H1 H2 H3 H4.
    destruct (orthogonal_rows a b c d H1 H2 H4) as (G1 & G2 & G3).
    destruct invert; unfold transform_stress, stress_vec_to_tensor,
      stress_tensor_to_vec, dot22, T22, v0, v1, v2, npvec; simpl;
      apply npvec_eq; unfold v0, v1, v2; simpl; nsatz.
Qed.

Lemma clamp_bounds (num : R) :
  - (9999 / 10000) <= clamp num <= 9999 / 10000.
Proof.
  unfold clamp, Rmax, Rmin.
  destruct (Rle_dec num (9999 / 10000)), (Rle_dec _ (- (9999 / 10000))); lra.
Qed.

Lemma clamp_inside (num : R) :
  - (9999 / 10000) <= num <= 9999 / 10000 -> clamp num = num.
Proof.
  intros H. unfold clamp, Rmax, Rmin.
  destruct (Rle_dec num (9999 / 10000)), (Rle_dec _ (- (9999 / 10000))); lra.
Qed.

Lemma clamp_above (num : R) : 9999 / 10000 <= num -> clamp num = 9999 / 10000.
Proof.
  intros H. unfold clamp, Rmax, Rmin.
  destruct (Rle_dec num (9999 / 10000)), (Rle_dec _ (- (9999 / 10000))); lra.
Qed.

Lemma clamp_below (num : R) :
  num <= - (9999 / 10000) -> clamp num = - (9999 / 10000).
Proof.
  intros H. unfold clamp, Rmax, Rmin.
  destruct (Rle_dec num (9999 / 10000)), (Rle_dec _ (- (9999 / 10000))); lra.
Qed.

(** [arc_sin] is defined on every number: its result lies strictly between
    -π/2 and π/2 and its sine is the input clamped to [-0.9999, 0.9999]; so
    it inverts the sine on that interval and is constant beyond it. *)
Theorem arc_sin_clamped (num : R) :
  - (PI / 2) < arc_sin num < PI / 2
  /\ sin (arc_sin num) = clamp num
  /\ (- (9999 / 10000) <= num <= 9999 / 10000 -> sin (arc_sin num) = num)
  /\ (9999 / 10000 <= num -> arc_sin num = asin (9999 / 10000))
  /\ (num <= - (9999 / 10000) -> arc_sin num = asin (- (9999 / 10000))).
Proof.
  pose proof (clamp_bounds num) as Hb.
  assert (Hs : sin (arc_sin num) = clamp num)
    by (apply sin_asin; lra).
  repeat split.
  - apply asin_bound_lt; lra.
  - apply asin_bound_lt; lra.
  - exact Hs.
  - intros H. rewrite Hs. apply clamp_inside. exact H.
  - intros H. unfold arc_sin. rewrite clamp_above by exact H. reflexivity.
  - intros H. unfold arc_sin. rewrite clamp_below by exact H. reflexivity.
Qed.

(** [arc_cos] is defined on every number: its result lies strictly between
    0 and π and its cosine is the input clamped to [-0.9999, 0.9999]. *)
Theorem arc_cos_clamped (num : R) :
  0 < arc_cos num < PI
  /\ cos (arc_cos num) = clamp num
  /\ (- (9999 / 10000) <= num <= 9999 / 10000 -> cos (arc_cos num) = num)
  /\ (9999 / 10000 <= num -> arc_cos num = acos (9999 / 10000))
  /\ (num <= - (9999 / 10000) -> arc_cos num = acos (- (9999 / 10000)))
  /\ arc_sin num + arc_cos num = PI / 2.
Proof.
  pose proof (clamp_bounds num) as Hb.
  assert (Hc : cos (arc_cos num) = clamp num)
    by (apply cos_acos; lra).
  repeat split.
  - apply acos_bound_lt; lra.
  - apply acos_bound_lt; lra.
  - exact Hc.
  - intros H. rewrite Hc. apply clamp_inside. exact H.
  - intros H. unfold arc_cos. rewrite clamp_above by exact H. reflexivity.
  - intros H. unfold arc_cos. rewrite clamp_below by exact H. reflexivity.
  - unfold arc_sin, arc_cos. rewrite acos_asin by lra. lra.
Qed.

Lemma isotropic_stress_is_invariant_witness :
  transform_stress_angle (npvec 1 1 0) (PI / 3) true = npvec 1 1 0
  /\ transform_stress (npvec 1 1 0) quarter_turn false = npvec 1 1 0.
Proof.
  destruct (isotropic_stress_is_invariant (npvec 1 1 0) (PI / 3) quarter_turn
              true) as [Hiff Hinv].
  destruct (isotropic_stress_is_invariant (npvec 1 1 0) (PI / 3) quarter_turn
              false) as [_ Hinv'].
  assert (Hiso : is_isotropic (npvec 1 1 0) = true)
    by (apply Hiff; split; reflexivity).
  split; [apply Hinv; exact Hiso |].
  apply Hinv'; [exact Hiso |].
  unfold dot22, T22, quarter_turn, I22; simpl; f_equal; lra.
Defined.

Lemma sum_sq_nonneg (a b c : R) : 0 <= a ^ 2 + b ^ 2 + c ^ 2.
Proof. nra. Qed.

Lemma sum_sq_zero (a b c : R) :
  a ^ 2 + b ^ 2 + c ^ 2 = 0 -> a = 0 /\ b = 0 /\ c = 0.
Proof.
  intros H.
  pose proof (pow2_ge_0 a). pose proof (pow2_ge_0 b). pose proof (pow2_ge_0 c).
  assert (Ha : a ^ 2 = 0) by lra.
  assert (Hb : b ^ 2 = 0) by lra.
  assert (Hc : c ^ 2 = 0) by lra.
  assert (Hz : forall x, x ^ 2 = 0 -> x = 0).
  { intros x Hx. destruct (Req_dec x 0) as [E | E]; [exact E |].
    exfalso. exact (pow_nonzero x 2 E Hx). }
  repeat split; apply Hz; assumption.
Qed.

(** Cauchy-Schwarz in three dimensions, on the norms. *)
Lemma dot_le_norms (a1 a2 a3 b1 b2 b3 : R) :
  a1 * b1 + a2 * b2 + a3 * b3
  <= sqrt (a1 ^ 2 + a2 ^ 2 + a3 ^ 2) * sqrt (b1 ^ 2 + b2 ^ 2 + b3 ^ 2).
Proof.
  set (A := a1 ^ 2 + a2 ^ 2 + a3 ^ 2). set (B := b1 ^ 2 + b2 ^ 2 + b3 ^ 2).
  assert (HA : 0 <= A) by apply sum_sq_nonneg.
  assert (HB : 0 <= B) by apply sum_sq_nonneg.
  pose proof (sqrt_pos A) as HsA. pose proof (sqrt_pos B) as HsB.
  pose proof (sqrt_sqrt A HA) as EA. pose proof (sqrt_sqrt B HB) as EB.
  set (d := a1 * b1 + a2 * b2 + a3 * b3).
  destruct (Rle_dec d 0) as [Hd | Hd]; [nra |].
  assert (Hcs : d * d <= A * B).
  { unfold d, A, B.
    assert (0 <= (a1 * b2 - a2 * b1) ^ 2 + (a1 * b3 - a3 * b1) ^ 2
                 + (a2 * b3 - a3 * b2) ^ 2) by apply sum_sq_nonneg.
    nra. }
  assert (Hsq : d * d <= (sqrt A * sqrt B) * (sqrt A * sqrt B)).
  { replace (sqrt A * sqrt B * (sqrt A * sqrt B))
      with ((sqrt A * sqrt A) * (sqrt B * sqrt B)) by ring.
    rewrite EA, EB. exact Hcs. }
  assert (0 <= sqrt A * sqrt B) by nra.
  nra.
Qed.

(** [euclidean_distance] is a metric on points: it is never negative, it
    is symmetric, it is zero exactly between a point and itself, and it
    satisfies the triangle inequality. *)
Theorem euclidean_distance_metric (a b c : Vec3) :
  0 <= euclidean_distance a b
  /\ euclidean_distance a b = euclidean_distance b a
  /\ (euclidean_distance a b = 0 <-> a = b)
  /\ euclidean_distance a c <= euclidean_distance a b + euclidean_distance b c.
Proof.
  destruct a as [a1 a2 a3], b as [b1 b2 b3], c as [c1 c2 c3].
  unfold euclidean_distance, v0, v1, v2. simpl.
  repeat match goal with
         | |- context [?x * (?x * 1)] => change (x * (x * 1)) with (x ^ 2)
         end.
  split; [apply sqrt_pos |]. split; [| split].
  - f_equal. ring.
  - split.
    + intros H. apply sqrt_eq_0 in H; [| apply sum_sq_nonneg].
      apply sum_sq_zero in H as (H1 & H2 & H3).
      f_equal; lra.
    + intros H. injection H as -> -> ->.
      replace ((b1 - b1) ^ 2 + (b2 - b2) ^ 2 + (b3 - b3) ^ 2) with 0 by ring.
      apply sqrt_0.
  - set (x1 := a1 - b1). set (x2 := a2 - b2). set (x3 := a3 - b3).
    set (y1 := b1 - c1). set (y2 := b2 - c2). set (y3 := b3 - c3).
    replace (a1 - c1) with (x1 + y1) by (unfold x1, y1; ring).
    replace (a2 - c2) with (x2 + y2) by (unfold x2, y2; ring).
    replace (a3 - c3) with (x3 + y3) by (unfold x3, y3; ring).
    pose proof (dot_le_norms x1 x2 x3 y1 y2 y3) as Hcs.
    set (X := x1 ^ 2 + x2 ^ 2 + x3 ^ 2) in *.
    set (Y := y1 ^ 2 + y2 ^ 2 + y3 ^ 2) in *.
    assert (HX : 0 <= X) by apply sum_sq_nonneg.
    assert (HY : 0 <= Y) by apply sum_sq_nonneg.
    pose proof (sqrt_pos X) as HsX. pose proof (sqrt_pos Y) as HsY.
    pose proof (sqrt_sqrt X HX) as EX. pose proof (sqrt_sqrt Y HY) as EY.
    rewrite <- (sqrt_square (sqrt X + sqrt Y)) by lra.
    apply sqrt_le_1_alt.
    unfold X, Y in *. nra.
Qed.

Lemma arc_sin_clamped_witness : sin (arc_sin (1 / 2)) = 1 / 2.
Proof.
  destruct (arc_sin_clamped (1 / 2)) as (_ & _ & H & _).
  apply H. lra.
Defined.

Lemma arc_cos_clamped_witness : arc_cos 2 = acos (9999 / 10000).
Proof.
  destruct (arc_cos_clamped 2) as (_ & _ & _ & H & _).
  apply H. lra.
Defined.

End MathUtilitiesFacts.

(** ** The assembled stiffness matrix *)

Section StiffnessFacts.
Import StiffnessMatrixAssembler Contribution Assembly.

Ltac split_eqb :=
  repeat match goal with
         | |- context [(?a =? ?b)%nat] =>
             destruct (Nat.eqb_spec a b); try subst; try congruence
         end.

Lemma quad_face_value (face : NaturalFace) (v0 v1 v2 v3 : nat)
    (n0 n1 n2 n3 n4 n5 : R) (i j : nat) :
  face_vertices_ids face = [v0; v1; v2; v3] ->
  face_force_densities face = [n0; n1; n2; n3; n4; n5] ->
  face_block face i j
  = coo_sum [n0 + n3 + n5; - n0; - n5; - n3;
             - n0; n0 + n1 + n4; - n1; - n4;
             - n5; - n1; n1 + n2 + n5; - n2;
             - n3; - n4; - n2; n2 + n3 + n4]
            [v0; v0; v0; v0; v1; v1; v1; v1; v2; v2; v2; v2; v3; v3; v3; v3]
            [v0; v1; v2; v3; v0; v1; v2; v3; v0; v1; v2; v3; v0; v1; v2; v3]
            i j.
Proof.
  intros Hv Hn. unfold face_block, face_triplets. simpl.
  unfold face_len, _add_quad_face. rewrite Hv, Hn. reflexivity.
Qed.

(** The block of a quadrilateral face (v0, v1, v2, v3) with force
    densities (n0, ..., n5): n0 to n3 belong to the sides v0v1, v1v2, v2v3
    and v3v0, n4 and n5 to the diagonals v1v3 and v0v2.  The entry of two
    vertices is minus the force density between them, the diagonal entry
    of a vertex the sum of the three force densities that meet there, and
    nothing is added outside the four vertices. *)
Theorem quad_face_block (face : NaturalFace) (v0 v1 v2 v3 : nat)
    (n0 n1 n2 n3 n4 n5 : R) :
  face_vertices_ids face = [v0; v1; v2; v3] ->
  face_force_densities face = [n0; n1; n2; n3; n4; n5] ->
  NoDup [v0; v1; v2; v3] ->
  (face_block face v0 v0 = n0 + n3 + n5
   /\ face_block face v1 v1 = n0 + n1 + n4
   /\ face_block face v2 v2 = n1 + n2 + n5
   /\ face_block face v3 v3 = n2 + n3 + n4)
  /\ (face_block face v0 v1 = - n0 /\ face_block face v1 v2 = - n1
      /\ face_block face v2 v3 = - n2 /\ face_block face v3 v0 = - n3
      /\ face_block face v1 v3 = - n4 /\ face_block face v0 v2 = - n5)
  /\ (forall i j, ~ (In i [v0; v1; v2; v3] /\ In j [v0; v1; v2; v3]) ->
        face_block face i j = 0).
Proof.
  intros Hv Hn Hnd.
  assert (Hd : v0 <> v1 /\ v0 <> v2 /\ v0 <> v3 /\ v1 <> v2 /\ v1 <> v3
               /\ v2 <> v3).
  { inversion Hnd as [|? ? H0 Hnd1]; subst.
    inversion Hnd1 as [|? ? H1 Hnd2]; subst.
    inversion Hnd2 as [|? ? H2 _]; subst.
    simpl in H0, H1, H2. repeat split; intros ->; tauto. }
  destruct Hd as (H01 & H02 & H03 & H12 & H13 & H23).
  pose proof (fun i j =>
    quad_face_value face v0 v1 v2 v3 n0 n1 n2 n3 n4 n5 i j Hv Hn) as Hb.
  split; [| split].
  - repeat split; rewrite Hb; simpl; split_eqb; simpl; lra.
  - repeat split; rewrite Hb; simpl; split_eqb; simpl; lra.
  - intros i j Hout. rewrite Hb. simpl.
    split_eqb; simpl; try lra; exfalso; apply Hout; simpl; tauto.
Qed.

Lemma quad_face_block_witness :
  face_block Examples.quad_face 0 0 = 1 + 4 + 6
  /\ face_block Examples.quad_face 1 3 = - 5.
Proof.
  destruct (quad_face_block Examples.quad_face 0 1 2 3 1 2 3 4 5 6)
    as ((H00 & _) & (_ & _ & _ & _ & H13 & _) & _);
    [reflexivity | reflexivity | | split; assumption].
  repeat constructor; simpl; intuition lia.
Defined.

Lemma app_lists_assoc (a b c : lists) :
  app_lists (app_lists a b) c = app_lists a (app_lists b c).
Proof. unfold app_lists; simpl. rewrite !app_assoc. reflexivity. Qed.

Lemma app_lists_empty_r (l : lists) : app_lists l empty = l.
Proof. destruct l; unfold app_lists; simpl. rewrite !app_nil_r. reflexivity. Qed.

Lemma add_face_triplets (face : NaturalFace) (t : lists) :
  add_face empty face = Ok t -> t = face_triplets face.
Proof. intros H. symmetry. apply face_triplets_add_face. exact H. Qed.

(** The triplet lists after the faces are the lists before them followed
    by the blocks of the faces, in order. *)
Lemma _add_faces_concat (faces : list NaturalFace) :
  forall self self',
  _add_faces self faces = Ok self' ->
  self' = app_lists self (concat_lists (map face_triplets faces))
  /\ Forall (fun f => add_face empty f = Ok (face_triplets f)) faces.
Proof.
  induction faces as [|face faces IH]; intros self self' H.
  - simpl in H. injection H as <-. simpl. rewrite app_lists_empty_r. auto.
  - rewrite _add_faces_cons, add_face_append in H.
    apply bind_Ok_inv in H as (s1 & H1 & H2).
    apply bind_Ok_inv in H1 as (t & Ht & Hs1). injection Hs1 as <-.
    destruct (IH _ _ H2) as [-> Hall].
    pose proof (add_face_triplets _ _ Ht) as ->.
    split; [simpl; apply app_lists_assoc |].
    constructor; assumption.
Qed.

Lemma _add_edges_concat (edges : list NaturalEdge) :
  forall self,
  _add_edges self edges
  = app_lists self (concat_lists (map edge_triplets edges)).
Proof.
  induction edges as [|edge edges IH]; intros self.
  - simpl. rewrite app_lists_empty_r. reflexivity.
  - simpl. destruct (edge_vertices_ids edge) as [v0 v1] eqn:Hv.
    rewrite IH. unfold edge_triplets at 2. simpl. rewrite Hv.
    rewrite <- app_lists_assoc. reflexivity.
Qed.

Lemma edge_triplets_aligned (edge : NaturalEdge) : aligned (edge_triplets edge).
Proof.
  unfold edge_triplets. simpl. destruct (edge_vertices_ids edge).
  split; reflexivity.
Qed.

Lemma face_triplets_aligned (face : NaturalFace) : aligned (face_triplets face).
Proof.
  unfold face_triplets. rewrite _add_faces_cons.
  destruct (add_face empty face) as [t|] eqn:Ht; simpl.
  - apply (add_face_aligned _ _ Ht).
  - apply aligned_empty.
Qed.

Lemma concat_lists_aligned (blocks : list lists) :
  Forall aligned blocks -> aligned (concat_lists blocks).
Proof.
  induction 1 as [|b blocks Hb _ IH]; simpl.
  - apply aligned_empty.
  - apply aligned_app; assumption.
Qed.


End StiffnessFacts.
Section AssemblyFacts.
Import StiffnessMatrixAssembler Contribution Assembly.

Ltac split_eqb :=
  repeat match goal with
         | |- context [(?a =? ?b)%nat] =>
             destruct (Nat.eqb_spec a b); try subst; try congruence
         end.

Lemma concat_lists_app (a b : list lists) :
  concat_lists (a ++ b) = app_lists (concat_lists a) (concat_lists b).
Proof.
  induction a as [|x a IH]; simpl.
  - symmetry. apply app_lists_empty_l.
  - rewrite IH, app_lists_assoc. reflexivity.
Qed.

(** The triplets of an assembler that was built. *)
Lemma assembled_lists free fixed edges faces (A : t) :
  __init__ free fixed edges faces = Ok A ->
  coo A = concat_lists (map face_triplets faces ++ map edge_triplets edges)
  /\ Forall (fun f => add_face empty f = Ok (face_triplets f)) faces
  /\ coo_matrix (data (coo A)) (rows (coo A)) (cols (coo A))
       (v_count free fixed, v_count free fixed) = Ok (_mat A).
Proof.
  unfold __init__. intros H.
  apply bind_Ok_inv in H as (s1 & H1 & H).
  apply bind_Ok_inv in H as (M & HM & H). injection H as <-. simpl.
  destruct (_add_faces_concat _ _ _ H1) as [-> Hall].
  split; [| split; [exact Hall | exact HM]].
  rewrite _add_edges_concat, concat_lists_app.
  fold empty. rewrite app_lists_empty_l. reflexivity.
Qed.

Lemma row_total_app (d1 d2 : list R) (r1 r2 : list nat) (i : nat) :
  length r1 = length d1 ->
  row_total (d1 ++ d2) (r1 ++ r2) i = row_total d1 r1 i + row_total d2 r2 i.
Proof.
  revert r1. induction d1 as [|d d1 IH]; intros [|r r1] H; simpl in *;
    try discriminate.
  - lra.
  - rewrite IH by lia. lra.
Qed.

Lemma Rsum_map_plus {A} (f g : A -> R) (l : list A) :
  Rsum (map (fun x => f x + g x) l) = Rsum (map f l) + Rsum (map g l).
Proof. induction l as [|x l IH]; simpl; [lra | rewrite IH; lra]. Qed.

Lemma Rsum_indicator (c : nat) (d : R) (s n : nat) :
  Rsum (map (fun j => if (c =? j)%nat then d else 0) (seq s n))
  = if (s <=? c)%nat && (c <? s + n)%nat then d else 0.
Proof.
  revert s. induction n as [|n IH]; intros s; simpl.
  - destruct (Nat.leb_spec s c), (Nat.ltb_spec c (s + 0)); simpl; try lra; lia.
  - rewrite IH.
    destruct (Nat.eqb_spec c s), (Nat.leb_spec s c), (Nat.leb_spec (S s) c),
      (Nat.ltb_spec c (S s + n)), (Nat.ltb_spec c (s + S n));
      simpl; try lra; lia.
Qed.

Lemma Rsum_zero {A} (l : list A) : Rsum (map (fun _ => 0) l) = 0.
Proof. induction l as [|x l IH]; simpl; [reflexivity | rewrite IH; lra]. Qed.

Lemma coo_row_sum (n i : nat) (d : list R) :
  forall (r c : list nat),
  length r = length d -> length c = length d ->
  (forall x, In x c -> (x < n)%nat) ->
  Rsum (map (fun j => coo_sum d r c i j) (seq 0 n)) = row_total d r i.
Proof.
  induction d as [|x d IH]; intros [|r0 r] [|c0 c] Hr Hc Hin; simpl in *;
    try discriminate.
  - apply Rsum_zero.
  - rewrite Rsum_map_plus, IH; try lia; [| intros y Hy; apply Hin; auto].
    assert (Hc0 : (c0 < n)%nat) by (apply Hin; auto).
    destruct (Nat.eqb_spec r0 i); simpl.
    + rewrite Rsum_indicator.
      destruct (Nat.leb_spec 0 c0), (Nat.ltb_spec c0 (0 + n)); simpl;
        try lra; lia.
    + rewrite Rsum_zero. lra.
Qed.

Lemma face_row_total (face : NaturalFace) (i : nat) :
  row_total (data (face_triplets face)) (rows (face_triplets face)) i = 0.
Proof.
  unfold face_triplets. rewrite _add_faces_cons.
  unfold add_face, _add_tri_face, _add_quad_face.
  destruct (face_len face =? 3)%nat.
  - destruct (face_vertices_ids face) as [|v0 [|v1 [|v2 [|]]]];
      try reflexivity.
    destruct (face_force_densities face) as [|n0 [|n1 [|n2 [|]]]];
      try reflexivity.
    simpl. split_eqb; lra.
  - destruct (face_len face =? 4)%nat; [| reflexivity].
    destruct (face_vertices_ids face) as [|v0 [|v1 [|v2 [|v3 [|]]]]];
      try reflexivity.
    destruct (face_force_densities face)
      as [|n0 [|n1 [|n2 [|n3 [|n4 [|n5 [|]]]]]]]; try reflexivity.
    simpl. split_eqb; lra.
Qed.

Lemma edge_row_total (edge : NaturalEdge) (i : nat) :
  row_total (data (edge_triplets edge)) (rows (edge_triplets edge)) i = 0.
Proof.
  unfold edge_triplets. simpl. destruct (edge_vertices_ids edge) as [v0 v1].
  simpl. split_eqb; lra.
Qed.

Lemma concat_row_total (blocks : list lists) (i : nat) :
  Forall aligned blocks ->
  Forall (fun b => row_total (data b) (rows b) i = 0) blocks ->
  row_total (data (concat_lists blocks)) (rows (concat_lists blocks)) i = 0.
Proof.
  induction 1 as [|b blocks Hb _ IH]; intros Hz; simpl.
  - reflexivity.
  - inversion Hz as [|? ? Hb0 Hz']; subst.
    rewrite row_total_app by apply Hb. rewrite Hb0, IH by assumption. lra.
Qed.

Lemma blocks_aligned faces edges :
  Forall aligned (map face_triplets faces ++ map edge_triplets edges).
Proof.
  apply Forall_app. split; apply Forall_map, Forall_forall; intros x _.
  - apply face_triplets_aligned.
  - apply edge_triplets_aligned.
Qed.

Lemma face_block_sym (face : NaturalFace) (i j : nat) :
  face_block face i j = face_block face j i.
Proof.
  unfold face_block, value, face_triplets. rewrite _add_faces_cons.
  unfold add_face, _add_tri_face, _add_quad_face.
  destruct (face_len face =? 3)%nat.
  - destruct (face_vertices_ids face) as [|v0 [|v1 [|v2 [|]]]];
      try reflexivity.
    destruct (face_force_densities face) as [|n0 [|n1 [|n2 [|]]]];
      try reflexivity.
    simpl. split_eqb; simpl; lra.
  - destruct (face_len face =? 4)%nat; [| reflexivity].
    destruct (face_vertices_ids face) as [|v0 [|v1 [|v2 [|v3 [|]]]]];
      try reflexivity.
    destruct (face_force_densities face)
      as [|n0 [|n1 [|n2 [|n3 [|n4 [|n5 [|]]]]]]]; try reflexivity.
    simpl. split_eqb; simpl; lra.
Qed.

Lemma edge_block_sym (edge : NaturalEdge) (i j : nat) :
  edge_block edge i j = edge_block edge j i.
Proof.
  unfold edge_block, value, edge_triplets. simpl.
  destruct (edge_vertices_ids edge) as [v0 v1]. simpl.
  split_eqb; simpl; lra.
Qed.

Lemma coo_matrix_inv data rows cols (n : nat) (M : Mat) :
  coo_matrix data rows cols (n, n) = Ok M ->
  (forall x, In x rows -> (x < n)%nat)
  /\ (forall x, In x cols -> (x < n)%nat)
  /\ M = mkMat n (map (fun i => map (fun j => coo_sum data rows cols i j)
                                   (seq 0 n)) (seq 0 n)).
Proof.
  unfold coo_matrix. simpl.
  destruct (forallb _ rows) eqn:Hr; [| discriminate].
  destruct (forallb _ cols) eqn:Hc; [| discriminate].
  simpl. intros H; injection H as <-.
  rewrite forallb_forall in Hr, Hc.
  repeat split.
  - intros x Hx. apply Nat.ltb_lt, Hr, Hx.
  - intros x Hx. apply Nat.ltb_lt, Hc, Hx.
Qed.

Lemma dot_row_constant (t : Vec3) (row : list R) :
  dot_row row (repeat t (length row)) = vscale t (Rsum row).
Proof.
  induction row as [|m row IH]; simpl.
  - apply vec3_eq; simpl; lra.
  - rewrite IH. apply vec3_eq; simpl; lra.
Qed.

(** Every assembled stiffness matrix is square of the size of the vertex
    lists, symmetric, and has rows that sum to zero; so it sends every array
    whose rows are all the same point, a rigid translation, to zero. *)
Theorem stiffness_symmetric_zero_row_sums (free fixed : list nat)
    (edges : list NaturalEdge) (faces : list NaturalFace) (A : t) :
  __init__ free fixed edges faces = Ok A ->
  let n := v_count free fixed in
  ncols (matrix A) = n
  /\ length (mrows (matrix A)) = n
  /\ (forall i j, (i < n)%nat -> (j < n)%nat ->
        entry (matrix A) i j = entry (matrix A) j i)
  /\ (forall i, (i < n)%nat -> Rsum (nth i (mrows (matrix A)) []) = 0)
  /\ (forall t, dot (matrix A) (repeat t n) = Ok (repeat vzero n)).
Proof.
  intros HA n.
  destruct (assembled_lists _ _ _ _ _ HA) as (Hcoo & _ & HM).
  destruct (coo_matrix_inv _ _ _ _ _ HM) as (_ & Hcols & EM).
  fold n in EM. unfold matrix.
  assert (Hal : aligned (coo A)).
  { rewrite Hcoo. apply concat_lists_aligned, blocks_aligned. }
  assert (Hrow : forall i, (i < n)%nat ->
            Rsum (nth i (mrows (_mat A)) []) = 0).
  { intros i Hi. rewrite EM. simpl.
    rewrite nth_map_seq by exact Hi.
    rewrite coo_row_sum; [| apply Hal | apply Hal | exact Hcols].
    rewrite Hcoo. apply concat_row_total; [apply blocks_aligned |].
    apply Forall_app. split; apply Forall_map, Forall_forall; intros x _.
    - apply face_row_total.
    - apply edge_row_total. }
  assert (Hlen : forall row, In row (mrows (_mat A)) -> length row = n).
  { intros row Hin. rewrite EM in Hin. simpl in Hin.
    apply in_map_iff in Hin as (i & <- & _).
    rewrite length_map, length_seq. reflexivity. }
  split; [rewrite EM; reflexivity |].
  split; [rewrite EM; simpl; rewrite length_map, length_seq; reflexivity |].
  split; [| split; [exact Hrow |]].
  - intros i j Hi Hj. fold (matrix A).
    rewrite (matrix_entry_sum _ _ _ _ _ _ _ HA Hi Hj),
      (matrix_entry_sum _ _ _ _ _ _ _ HA Hj Hi).
    f_equal; f_equal; apply map_ext; intros x.
    + apply face_block_sym.
    + apply edge_block_sym.
  - intros t. unfold dot.
    assert (Hn : ncols (_mat A) = n) by (rewrite EM; reflexivity).
    rewrite Hn, repeat_length, Nat.eqb_refl. f_equal.
    assert (Hrows : length (mrows (_mat A)) = n)
      by (rewrite EM; simpl; rewrite length_map, length_seq; reflexivity).
    assert (Hz : forall i, (i < n)%nat ->
              dot_row (nth i (mrows (_mat A)) []) (repeat t n) = vzero).
    { intros i Hi.
      assert (Hl : length (nth i (mrows (_mat A)) []) = n)
        by (apply Hlen, nth_In; lia).
      rewrite <- Hl at 1. rewrite dot_row_constant, (Hrow i Hi).
      apply vec3_eq; simpl; lra. }
    apply nth_ext with (d := dot_row [] (repeat t n)) (d' := vzero).
    + rewrite length_map, repeat_length. exact Hrows.
    + intros k Hk. rewrite length_map in Hk.
      rewrite (map_nth (fun row => dot_row row (repeat t n))).
      rewrite Hz by lia. symmetry. apply nth_repeat.
Qed.

Lemma stiffness_symmetric_zero_row_sums_witness :
  dot (matrix Examples.tri_stiffness) (repeat (vec3 1 2 3) 3)
  = Ok (repeat vzero 3)
  /\ entry (matrix Examples.tri_stiffness) 0 2
     = entry (matrix Examples.tri_stiffness) 2 0.
Proof.
  destruct (stiffness_symmetric_zero_row_sums [0%nat] [1%nat; 2%nat]
              Examples.tri_edges [Examples.tri_face] Examples.tri_stiffness)
    as (_ & _ & Hsym & _ & Hdot); [reflexivity |].
  split; [apply Hdot | apply Hsym; unfold v_count; simpl; lia].
Defined.

Lemma length_3_inv {A} (l : list A) :
  length l = 3%nat -> exists a b c, l = [a; b; c].
Proof.
  destruct l as [|a [|b [|c [|]]]]; simpl; try discriminate. eauto.
Qed.

Lemma length_4_inv {A} (l : list A) :
  length l = 4%nat -> exists a b c d, l = [a; b; c; d].
Proof.
  destruct l as [|a [|b [|c [|d [|]]]]]; simpl; try discriminate. eauto.
Qed.

Lemma length_6_inv {A} (l : list A) :
  length l = 6%nat -> exists a b c d e f, l = [a; b; c; d; e; f].
Proof.
  destruct l as [|a [|b [|c [|d [|e [|f [|]]]]]]]; simpl; try discriminate.
  do 6 eexists. reflexivity.
Qed.

Lemma add_face_Ok_iff (face : NaturalFace) :
  (exists t, add_face empty face = Ok t)
  <-> (face_len face = 3%nat -> length (face_force_densities face) = 3%nat)
      /\ (face_len face = 4%nat -> length (face_force_densities face) = 6%nat).
Proof.
  unfold add_face, _add_tri_face, _add_quad_face.
  destruct (Nat.eqb_spec (face_len face) 3) as [H3 | H3].
  - destruct (length_3_inv _ H3) as (v0 & v1 & v2 & Hv). rewrite Hv.
    split.
    + intros [t Ht]. split; [intros _ | intros H4; lia].
      destruct (face_force_densities face) as [|n0 [|n1 [|n2 [|]]]];
        try discriminate. reflexivity.
    + intros [Hn _].
      destruct (length_3_inv _ (Hn H3)) as (n0 & n1 & n2 & ->). eauto.
  - destruct (Nat.eqb_spec (face_len face) 4) as [H4 | H4].
    + destruct (length_4_inv _ H4) as (v0 & v1 & v2 & v3 & Hv). rewrite Hv.
      split.
      * intros [t Ht]. split; [intros H; lia | intros _].
        destruct (face_force_densities face)
          as [|n0 [|n1 [|n2 [|n3 [|n4 [|n5 [|]]]]]]]; try discriminate.
        reflexivity.
      * intros [_ Hn].
        destruct (length_6_inv _ (Hn H4))
          as (n0 & n1 & n2 & n3 & n4 & n5 & ->). eauto.
    + split; [intros _; split; intros; contradiction | eauto].
Qed.

Lemma add_face_raises (self : lists) (face : NaturalFace) (e : exn) :
  add_face self face = Raise e -> e = ValueError.
Proof.
  unfold add_face, _add_tri_face, _add_quad_face.
  destruct (face_len face =? 3)%nat.
  - destruct (face_vertices_ids face) as [|v0 [|v1 [|v2 [|]]]];
      try (intros H; injection H as <-; reflexivity).
    destruct (face_force_densities face) as [|n0 [|n1 [|n2 [|]]]];
      intros H; try discriminate; injection H as <-; reflexivity.
  - destruct (face_len face =? 4)%nat; [| discriminate].
    destruct (face_vertices_ids face) as [|v0 [|v1 [|v2 [|v3 [|]]]]];
      try (intros H; injection H as <-; reflexivity).
    destruct (face_force_densities face)
      as [|n0 [|n1 [|n2 [|n3 [|n4 [|n5 [|]]]]]]];
      intros H; try discriminate; injection H as <-; reflexivity.
Qed.

(** The vertices that a face enters rows and columns for. *)
Lemma face_triplets_indices (face : NaturalFace) (t : lists) :
  add_face empty face = Ok t ->
  (forall x, In x (rows t) <->
     In x (face_vertices_ids face)
     /\ (face_len face = 3%nat \/ face_len face = 4%nat))
  /\ (forall x, In x (cols t) <->
        In x (face_vertices_ids face)
        /\ (face_len face = 3%nat \/ face_len face = 4%nat)).
Proof.
  unfold add_face, _add_tri_face, _add_quad_face.
  destruct (Nat.eqb_spec (face_len face) 3) as [H3 | H3].
  - destruct (length_3_inv _ H3) as (v0 & v1 & v2 & Hv). rewrite Hv.
    destruct (face_force_densities face) as [|n0 [|n1 [|n2 [|]]]];
      try discriminate.
    intros H; injection H as <-. simpl. split; intros x; tauto.
  - destruct (Nat.eqb_spec (face_len face) 4) as [H4 | H4].
    + destruct (length_4_inv _ H4) as (v0 & v1 & v2 & v3 & Hv). rewrite Hv.
      destruct (face_force_densities face)
        as [|n0 [|n1 [|n2 [|n3 [|n4 [|n5 [|]]]]]]]; try discriminate.
      intros H; injection H as <-. simpl. split; intros x; tauto.
    + intros H; injection H as <-. simpl. split; intros x; tauto.
Qed.

Lemma edge_triplets_indices (edge : NaturalEdge) :
  (forall x, In x (rows (edge_triplets edge)) <->
     x = fst (edge_vertices_ids edge) \/ x = snd (edge_vertices_ids edge))
  /\ (forall x, In x (cols (edge_triplets edge)) <->
        x = fst (edge_vertices_ids edge) \/ x = snd (edge_vertices_ids edge)).
Proof.
  unfold edge_triplets. simpl. destruct (edge_vertices_ids edge) as [v0 v1].
  simpl. split; intros x; intuition congruence.
Qed.

Lemma concat_lists_rows (blocks : list lists) (x : nat) :
  In x (rows (concat_lists blocks)) <-> exists b, In b blocks /\ In x (rows b).
Proof.
  induction blocks as [|b blocks IH]; simpl.
  - split; [tauto | intros (b & [] & _)].
  - rewrite in_app_iff, IH. split.
    + intros [H | (b' & Hb & H)]; [exists b; auto | exists b'; auto].
    + intros (b' & [<- | Hb] & H); [left; exact H | right; exists b'; auto].
Qed.

Lemma concat_lists_cols (blocks : list lists) (x : nat) :
  In x (cols (concat_lists blocks)) <-> exists b, In b blocks /\ In x (cols b).
Proof.
  induction blocks as [|b blocks IH]; simpl.
  - split; [tauto | intros (b & [] & _)].
  - rewrite in_app_iff, IH. split.
    + intros [H | (b' & Hb & H)]; [exists b; auto | exists b'; auto].
    + intros (b' & [<- | Hb] & H); [left; exact H | right; exists b'; auto].
Qed.

Lemma _add_faces_Ok (faces : list NaturalFace) :
  Forall (fun f => exists t, add_face empty f = Ok t) faces ->
  forall self, exists self', _add_faces self faces = Ok self'.
Proof.
  induction 1 as [|face faces [t Ht] _ IH]; intros self.
  - exists self. reflexivity.
  - rewrite _add_faces_cons, add_face_append, Ht. simpl. apply IH.
Qed.

Lemma _add_faces_raises (faces : list NaturalFace) :
  forall self e, _add_faces self faces = Raise e -> e = ValueError.
Proof.
  induction faces as [|face faces IH]; intros self e H.
  - discriminate.
  - rewrite _add_faces_cons in H.
    destruct (add_face self face) as [s1|e1] eqn:E; simpl in H.
    + exact (IH _ _ H).
    + injection H as <-. exact (add_face_raises _ _ _ E).
Qed.

Lemma coo_matrix_Ok data rows cols (n : nat) :
  (forall x, In x rows -> (x < n)%nat) ->
  (forall x, In x cols -> (x < n)%nat) ->
  exists M, coo_matrix data rows cols (n, n) = Ok M.
Proof.
  intros Hr Hc. unfold coo_matrix. simpl.
  assert (Er : forallb (fun r => (r <? n)%nat) rows = true)
    by (apply forallb_forall; intros x Hx; apply Nat.ltb_lt, Hr, Hx).
  assert (Ec : forallb (fun c => (c <? n)%nat) cols = true)
    by (apply forallb_forall; intros x Hx; apply Nat.ltb_lt, Hc, Hx).
  rewrite Er, Ec. simpl. eauto.
Qed.

(** The assembler can be built exactly when every face with 3 vertices has
    3 force densities, every face with 4 vertices has 6, and the vertices of
    these faces and of the edges are below the size of the matrix; when it
    cannot, the exception is a ValueError. *)
Theorem assembly_succeeds_iff (free fixed : list nat)
    (edges : list NaturalEdge) (faces : list NaturalFace) :
  let n := v_count free fixed in
  ((exists A, __init__ free fixed edges faces = Ok A)
   <-> Forall (face_ok n) faces /\ Forall (edge_ok n) edges)
  /\ (forall e, __init__ free fixed edges faces = Raise e -> e = ValueError).
Proof.
  intros n. split; [split |].
  - intros [A HA].
    destruct (assembled_lists _ _ _ _ _ HA) as (Hcoo & Hall & HM).
    destruct (coo_matrix_inv _ _ _ _ _ HM) as (Hrows & _ & _).
    fold n in Hrows. rewrite Hcoo in Hrows.
    rewrite Forall_forall in Hall.
    split; apply Forall_forall.
    + intros f Hf.
      pose proof (Hall f Hf) as Ht.
      destruct (proj1 (add_face_Ok_iff f) (ex_intro _ _ Ht)) as [H3 H4].
      destruct (face_triplets_indices _ _ Ht) as [Hr _].
      assert (Hin : forall v, In v (face_vertices_ids f) ->
                face_len f = 3%nat \/ face_len f = 4%nat -> (v < n)%nat).
      { intros v Hv Hlen. apply Hrows, concat_lists_rows.
        exists (face_triplets f). split.
        - apply in_or_app. left. apply in_map. exact Hf.
        - apply Hr. auto. }
      split; intros Hlen; (split; [auto |]); intros v Hv; apply Hin; auto.
    + intros ed He.
      destruct (edge_triplets_indices ed) as [Hr _].
      split; apply Hrows, concat_lists_rows; exists (edge_triplets ed);
        (split; [apply in_or_app; right; apply in_map; exact He
                | apply Hr; auto]).
  - intros [Hfaces Hedges].
    rewrite Forall_forall in Hfaces, Hedges.
    assert (Hadd : Forall (fun f => exists t, add_face empty f = Ok t) faces).
    { apply Forall_forall. intros f Hf. apply add_face_Ok_iff.
      destruct (Hfaces f Hf) as [H3 H4]. split; intros Hlen.
      - apply H3. exact Hlen.
      - apply H4. exact Hlen. }
    destruct (_add_faces_Ok faces Hadd empty) as [s1 Hs1].
    destruct (_add_faces_concat _ _ _ Hs1) as [-> Hall].
    rewrite Forall_forall in Hall.
    assert (Hidx : forall x,
              In x (rows (_add_edges (app_lists empty
                       (concat_lists (map face_triplets faces))) edges))
              \/ In x (cols (_add_edges (app_lists empty
                       (concat_lists (map face_triplets faces))) edges)) ->
              (x < n)%nat).
    { intros x Hx. rewrite _add_edges_concat, app_lists_empty_l in Hx.
      rewrite <- concat_lists_app in Hx.
      assert (Hb : exists b,
                In b (map face_triplets faces ++ map edge_triplets edges)
                /\ (In x (rows b) \/ In x (cols b))).
      { destruct Hx as [Hx | Hx].
        - apply concat_lists_rows in Hx as (b & Hb & Hx). eauto.
        - apply concat_lists_cols in Hx as (b & Hb & Hx). eauto. }
      destruct Hb as (b & Hb & Hxb).
      apply in_app_or in Hb as [Hb | Hb]; apply in_map_iff in Hb as (y & <- & Hy).
      - destruct (face_triplets_indices _ _ (Hall y Hy)) as [Hr Hc].
        assert (Hv : In x (face_vertices_ids y)
                     /\ (face_len y = 3%nat \/ face_len y = 4%nat)).
        { destruct Hxb as [Hxb | Hxb]; [apply Hr | apply Hc]; exact Hxb. }
        destruct Hv as [Hv [Hl | Hl]]; destruct (Hfaces y Hy) as [H3 H4].
        + apply (proj2 (H3 Hl)). exact Hv.
        + apply (proj2 (H4 Hl)). exact Hv.
      - destruct (edge_triplets_indices y) as [Hr Hc].
        destruct (Hedges y Hy) as [H1 H2].
        assert (Hv : x = fst (edge_vertices_ids y)
                     \/ x = snd (edge_vertices_ids y)).
        { destruct Hxb as [Hxb | Hxb]; [apply Hr | apply Hc]; exact Hxb. }
        destruct Hv as [-> | ->]; assumption. }
    destruct (coo_matrix_Ok
                (data (_add_edges (app_lists empty
                         (concat_lists (map face_triplets faces))) edges))
                _ _ n (fun x H => Hidx x (or_introl H))
                (fun x H => Hidx x (or_intror H))) as [M HM].
    unfold __init__. fold empty. rewrite Hs1. simpl. fold n.
    unfold v_count in HM. fold n in HM. unfold n, v_count in HM.
    rewrite HM. simpl. eauto.
  - intros e H. unfold __init__ in H.
    destruct (_add_faces (mkLists [] [] []) faces) as [s1|e1] eqn:E1;
      simpl in H.
    + unfold coo_matrix in H.
      destruct (_ && _); simpl in H; [discriminate |].
      injection H as <-. reflexivity.
    + injection H as <-. exact (_add_faces_raises _ _ _ E1).
Qed.

End AssemblyFacts.

Section Views.
Import StiffnessMatrixAssembler Contribution Assembly.

Lemma ix__spec (M : Mat) (rs cs : list nat) :
  ((forall i, In i rs -> (i < length (mrows M))%nat)
   /\ (forall j, In j cs -> (j < ncols M)%nat) ->
   ix_ M rs cs
   = Ok (mkMat (length cs) (map (fun i => map (fun j => entry M i j) cs) rs)))
  /\ (~ ((forall i, In i rs -> (i < length (mrows M))%nat)
         /\ (forall j, In j cs -> (j < ncols M)%nat)) ->
      ix_ M rs cs = Raise IndexError).
Proof.
  unfold ix_.
  destruct (forallb (fun i => (i <? length (mrows M))%nat) rs) eqn:Er;
    destruct (forallb (fun j => (j <? ncols M)%nat) cs) eqn:Ec; simpl;
    split; try reflexivity.
  - intros H. exfalso. apply H.
    rewrite forallb_forall in Er, Ec.
    split; intros x Hx; apply Nat.ltb_lt; auto.
  - intros [_ H]. exfalso.
    assert (forallb (fun j => (j <? ncols M)%nat) cs = true); [| congruence].
    apply forallb_forall. intros x Hx. apply Nat.ltb_lt, H, Hx.
  - intros [H _]. exfalso.
    assert (forallb (fun i => (i <? length (mrows M))%nat) rs = true);
      [| congruence].
    apply forallb_forall. intros x Hx. apply Nat.ltb_lt, H, Hx.
  - intros [H _]. exfalso.
    assert (forallb (fun i => (i <? length (mrows M))%nat) rs = true);
      [| congruence].
    apply forallb_forall. intros x Hx. apply Nat.ltb_lt, H, Hx.
Qed.

Lemma entry_submatrix (M : Mat) (rs cs : list nat) (a b : nat) :
  (a < length rs)%nat -> (b < length cs)%nat ->
  entry (mkMat (length cs) (map (fun i => map (fun j => entry M i j) cs) rs))
    a b
  = entry M (nth a rs 0%nat) (nth b cs 0%nat).
Proof.
  intros Ha Hb. unfold entry at 1. simpl.
  set (f := fun i => map (fun j => entry M i j) cs).
  rewrite (nth_indep (map f rs) _ (f 0%nat))
    by (rewrite length_map; exact Ha).
  rewrite (map_nth f rs 0%nat a). unfold f.
  rewrite nth_indep with (d' := entry M (nth a rs 0%nat) 0%nat)
    by (rewrite length_map; exact Hb).
  apply (map_nth (fun j => entry M (nth a rs 0%nat) j)).
Qed.

(** The two read-only views of an assembler.  When the indices of the free
    and fixed lists are below the matrix size, the free and fixed matrices
    are the blocks of the full matrix at the rows of the free list and the
    columns of the free list, respectively of the fixed list, in the order
    of the lists; an index at or beyond the size raises an IndexError. *)
Theorem submatrix_views (free fixed : list nat) (edges : list NaturalEdge)
    (faces : list NaturalFace) (A : t) :
  __init__ free fixed edges faces = Ok A ->
  let n := v_count free fixed in
  ((forall i, In i (free ++ fixed) -> (i < n)%nat) ->
   exists K_free K_fixed,
     free_matrix A = Ok K_free /\ fixed_matrix A = Ok K_fixed
     /\ ncols K_free = length free /\ length (mrows K_free) = length free
     /\ ncols K_fixed = length fixed /\ length (mrows K_fixed) = length free
     /\ (forall a b, (a < length free)%nat -> (b < length free)%nat ->
           entry K_free a b
           = entry (matrix A) (nth a free 0%nat) (nth b free 0%nat))
     /\ (forall a b, (a < length free)%nat -> (b < length fixed)%nat ->
           entry K_fixed a b
           = entry (matrix A) (nth a free 0%nat) (nth b fixed 0%nat)))
  /\ ((exists i, In i free /\ (n <= i)%nat) ->
      free_matrix A = Raise IndexError /\ fixed_matrix A = Raise IndexError).
Proof.
  intros HA n.
  assert (Hfields : StiffnessMatrixAssembler.free A = free
                    /\ StiffnessMatrixAssembler.fixed A = fixed).
  { unfold __init__ in HA.
    apply bind_Ok_inv in HA as (s1 & _ & H).
    apply bind_Ok_inv in H as (M & _ & H). injection H as <-. auto. }
  destruct Hfields as [Hfree Hfixed].
  destruct (coo_matrix_shape _ _ _ _ _ _
              (proj2 (proj2 (assembled_lists _ _ _ _ _ HA)))) as [Hc Hr].
  fold n in Hc, Hr.
  unfold free_matrix, fixed_matrix, matrix. rewrite Hfree, Hfixed.
  split.
  - intros Hin.
    assert (Hf : forall i, In i free -> (i < n)%nat)
      by (intros i Hi; apply Hin, in_or_app; auto).
    assert (Hx : forall i, In i fixed -> (i < n)%nat)
      by (intros i Hi; apply Hin, in_or_app; auto).
    exists (mkMat (length free)
              (map (fun i => map (fun j => entry (_mat A) i j) free) free)),
           (mkMat (length fixed)
              (map (fun i => map (fun j => entry (_mat A) i j) fixed) free)).
    split; [apply ix__spec; rewrite Hc, Hr; auto |].
    split; [apply ix__spec; rewrite Hc, Hr; auto |].
    simpl. rewrite !length_map.
    repeat split; intros a b Ha Hb; apply entry_submatrix; assumption.
  - intros (i & Hi & Hge).
    split; apply ix__spec; rewrite Hr; intros [H _];
      specialize (H i Hi); lia.
Qed.

Lemma submatrix_views_witness :
  exists K_free K_fixed,
    free_matrix Examples.path_stiffness = Ok K_free
    /\ fixed_matrix Examples.path_stiffness = Ok K_fixed
    /\ entry K_free 0 0 = entry (matrix Examples.path_stiffness) 1 1
    /\ entry K_fixed 0 1 = entry (matrix Examples.path_stiffness) 1 2.
Proof.
  destruct (submatrix_views [1%nat] [0%nat; 2%nat] Examples.path_edges []
              Examples.path_stiffness eq_refl) as [Hviews _].
  destruct Hviews as (K_free & K_fixed & H1 & H2 & _ & _ & _ & _ & E1 & E2).
  - intros i Hi. unfold v_count. simpl in *. intuition lia.
  - exists K_free, K_fixed.
    split; [exact H1 |]. split; [exact H2 |]. split.
    + apply (E1 0%nat 0%nat); simpl; lia.
    + apply (E2 0%nat 1%nat); simpl; lia.
Defined.

End Views.

Section LoadFacts.
Import LoadMatrixAssembler FaceLoads.
Context {G : Geometry}.

Lemma update_ignores_mat (a : t) (m : Arr) (faces : list NaturalFace) :
  _has_face_loads a = true ->
  update (set_mat a m) faces = update a faces.
Proof. intros H. unfold update. simpl. rewrite H. reflexivity. Qed.

(** Updating twice on the same geometry gives what updating once gives:
    the face loads are added to the baseline anew and do not pile up. *)
Theorem update_idempotent (a a' : t) (faces : list NaturalFace) :
  update a faces = Ok a' -> update a' faces = Ok a'.
Proof.
  intros H. destruct (_has_face_loads a) eqn:Hhas.
  - destruct (update_spec _ _ _ Hhas H) as (E1 & E2 & E3 & E4 & _).
    assert (Ea : a' = set_mat a (_mat a')).
    { destruct a, a'. unfold set_mat. simpl in *. subst. reflexivity. }
    rewrite Ea at 1. rewrite update_ignores_mat by exact Hhas. exact H.
  - unfold update in H. rewrite Hhas in H. injection H as <-.
    unfold update. rewrite Hhas. reflexivity.
Qed.

Lemma iadd_rows_in_range (a a' : Arr) (ids : list nat) (v : Vec3) :
  iadd_rows a ids v = Ok a' -> forall i, In i ids -> (i < length a)%nat.
Proof.
  unfold iadd_rows. intros H.
  apply bind_Ok_inv in H as (rows & Hrows & _).
  exact (take_rows_In_lt _ _ _ Hrows).
Qed.

Lemma _add_face_loads_zip_in_range (local : bool) (faces : list NaturalFace) :
  forall (face_loads m m' : Arr),
  _add_face_loads_zip m local faces face_loads = Ok m' ->
  forall f l v, In (f, l) (combine faces face_loads) ->
    In v (face_vertices_ids f) -> (v < length m)%nat.
Proof.
  induction faces as [|face faces IH]; intros [|face_load face_loads] m m' H;
    simpl; try (intros f0 l v Hnil; contradiction).
  simpl in H. apply bind_Ok_inv in H as (m1 & H1 & H).
  destruct (iadd_rows_spec _ _ _ _ H1) as [Hlen _].
  intros f0 l v [Hfl | Hfl] Hv.
  - injection Hfl as <- <-. exact (iadd_rows_in_range _ _ _ _ H1 v Hv).
  - rewrite <- Hlen. exact (IH _ _ _ H f0 l v Hfl Hv).
Qed.

Lemma update_unfold (a : t) (faces : list NaturalFace) :
  _has_face_loads a = true ->
  update a faces
  = bind (match _gfl a with
          | Some g => _add_face_loads_zip (_vertices_mat a) false faces g
          | None => Ok (_vertices_mat a)
          end)
         (fun m1 =>
            bind (match _lfl a with
                  | Some l => _add_face_loads_zip m1 true faces l
                  | None => Ok m1
                  end)
                 (fun m2 => Ok (set_mat a m2))).
Proof.
  intros Hhas. unfold update, _add_face_loads. rewrite Hhas.
  destruct a as [vm g l has m]. simpl.
  destruct g as [g|]; simpl.
  - destruct (_add_face_loads_zip vm false faces g) as [m1|]; simpl;
      [| reflexivity].
    destruct l as [l|]; simpl; [| reflexivity].
    destruct (_add_face_loads_zip m1 true faces l); reflexivity.
  - destruct l as [l|]; simpl; [| reflexivity].
    destruct (_add_face_loads_zip vm true faces l); reflexivity.
Qed.

(** An update that returns has found a row for every vertex it adds to.
    With face loads present, every vertex of every face that is paired with
    a global or a local face load is then a row of the vertex load matrix,
    and the refreshed matrix has as many rows; a vertex beyond the rows
    stops the update, which then returns for no result. *)
Theorem update_returns_only_in_range (a : t) (faces : list NaturalFace) :
  _has_face_loads a = true ->
  let paired (f : NaturalFace) :=
    exists loads l,
      (_gfl a = Some loads \/ _lfl a = Some loads)
      /\ In (f, l) (combine faces loads) in
  (forall a', update a faces = Ok a' ->
     length (matrix a') = length (_vertices_mat a)
     /\ forall f v, paired f -> In v (face_vertices_ids f) ->
          (v < length (_vertices_mat a))%nat)
  /\ (forall f v, paired f -> In v (face_vertices_ids f) ->
        (length (_vertices_mat a) <= v)%nat ->
        forall a', update a faces <> Ok a').
Proof.
  intros Hhas paired.
  assert (Hret : forall a', update a faces = Ok a' ->
            length (matrix a') = length (_vertices_mat a)
            /\ forall f v, paired f -> In v (face_vertices_ids f) ->
                 (v < length (_vertices_mat a))%nat).
  { intros a' H.
    destruct (update_spec _ _ _ Hhas H) as (_ & _ & _ & _ & Hrows & _).
    split; [exact Hrows |].
    rewrite (update_unfold a faces Hhas) in H.
    apply bind_Ok_inv in H as (m1 & H1 & H).
    apply bind_Ok_inv in H as (m2 & H2 & _).
    assert (Hm1 : length m1 = length (_vertices_mat a)).
    { destruct (_gfl a) as [g|].
      - apply (_add_face_loads_zip_spec _ _ _ _ _ H1).
      - injection H1 as <-. reflexivity. }
    intros f v (loads & l & [Hg | Hl] & Hfl) Hv.
    - rewrite Hg in H1.
      exact (_add_face_loads_zip_in_range _ _ _ _ _ H1 f l v Hfl Hv).
    - rewrite Hl in H2. rewrite <- Hm1.
      exact (_add_face_loads_zip_in_range _ _ _ _ _ H2 f l v Hfl Hv). }
  split; [exact Hret |].
  intros f v Hp Hv Hge a' H.
  destruct (Hret a' H) as [_ Hin].
  specialize (Hin f v Hp Hv). lia.
Qed.

End LoadFacts.

Section LoadFactsWitness.
Import LoadMatrixAssembler.

Lemma update_idempotent_witness :
  update (G := Examples.geometry) Examples.tri_loads [Examples.tri_face]
  = Ok Examples.tri_loads.
Proof.
  apply (update_idempotent (G := Examples.geometry)
           (mk (zeros 3) (Some [vec3 0 0 (-3)]) (Some [vec3 3 0 0]) true
               (zeros 3))).
  reflexivity.
Defined.

(** The triangle under both kinds of face load: with three rows the update
    returns; with two rows vertex 2 is beyond the rows. *)
Lemma update_returns_only_in_range_witness :
  update (G := Examples.geometry)
    (mk (zeros 3) (Some [vec3 0 0 (-3)]) (Some [vec3 3 0 0]) true (zeros 3))
    [Examples.tri_face]
  = Ok Examples.tri_loads
  /\ length (matrix Examples.tri_loads) = 3%nat
  /\ forall a',
       update (G := Examples.geometry)
         (mk (zeros 2) (Some [vec3 0 0 (-3)]) None true (zeros 2))
         [Examples.tri_face]
       <> Ok a'.
Proof.
  assert (H3 : update (G := Examples.geometry)
                 (mk (zeros 3) (Some [vec3 0 0 (-3)]) (Some [vec3 3 0 0])
                    true (zeros 3)) [Examples.tri_face]
               = Ok Examples.tri_loads) by reflexivity.
  split; [exact H3 |]. split.
  - destruct (update_returns_only_in_range (G := Examples.geometry)
                (mk (zeros 3) (Some [vec3 0 0 (-3)]) (Some [vec3 3 0 0])
                   true (zeros 3)) [Examples.tri_face] eq_refl)
      as [Hret _].
    exact (proj1 (Hret _ H3)).
  - destruct (update_returns_only_in_range (G := Examples.geometry)
                (mk (zeros 2) (Some [vec3 0 0 (-3)]) None true (zeros 2))
                [Examples.tri_face] eq_refl) as [_ Hstop].
    apply (Hstop Examples.tri_face 2%nat).
    + exists [vec3 0 0 (-3)], (vec3 0 0 (-3)). split.
      * left. reflexivity.
      * simpl. left. reflexivity.
    + simpl. auto.
    + simpl. lia.
Defined.

End LoadFactsWitness.

Section SolveFacts.
Import NfdNumpy SolveSteps.
Context {G : Geometry}.

Lemma init_fields free fixed edges faces (A : StiffnessMatrixAssembler.t) :
  StiffnessMatrixAssembler.__init__ free fixed edges faces = Ok A ->
  StiffnessMatrixAssembler.free A = free
  /\ StiffnessMatrixAssembler.fixed A = fixed
  /\ ncols (StiffnessMatrixAssembler.matrix A) = length (free ++ fixed)
  /\ length (mrows (StiffnessMatrixAssembler.matrix A)) = length (free ++ fixed).
Proof.
  unfold StiffnessMatrixAssembler.__init__. intros H.
  apply bind_Ok_inv in H as (s1 & _ & H).
  apply bind_Ok_inv in H as (M & HM & H). injection H as <-.
  apply coo_matrix_shape in HM as [H1 H2].
  unfold StiffnessMatrixAssembler.matrix. simpl. auto.
Qed.

(** From the sizes alone: the vertices split into the free list and the
    fixed list only when no fixed vertex is listed twice. *)
Lemma fixed_NoDup_of_count (v : nat) (fixed : list nat) :
  (forall i, In i fixed -> (i < v)%nat) ->
  length (free_of v fixed ++ fixed) = v ->
  NoDup fixed.
Proof.
  intros Hin Hlen.
  set (p := fun i => existsb (Nat.eqb i) fixed).
  pose proof (filter_length p (seq 0 v)) as Hpart.
  rewrite length_seq in Hpart.
  rewrite length_app in Hlen.
  change (filter (fun x => negb (p x)) (seq 0 v)) with (free_of v fixed)
    in Hpart.
  apply NoDup_incl_NoDup with (l := filter p (seq 0 v)).
  - apply NoDup_filter, seq_NoDup.
  - lia.
  - intros i Hi. apply filter_In in Hi as [_ Hi]. unfold p in Hi.
    apply existsb_exists in Hi as (j & Hj & E).
    apply Nat.eqb_eq in E. subst j. exact Hj.
Qed.

(** The sizes that a solve that returns has checked: the fixed vertices
    are rows of the coordinates, and the free and the fixed list together
    are as long as the coordinate array. *)
Lemma solve_sizes (w : World) (xyz : loc)
    (fixed : list nat) (s_calc : Z) (w' : World) (_xyz : loc) (r : Arr)
    (s : StressResult) (f : list R) :
  _nfd_solve w xyz fixed s_calc = Ok (w', (_xyz, r, s, f)) ->
  exists x_old,
    load (heap w) xyz = Ok x_old
    /\ (forall i, In i fixed -> (i < length x_old)%nat)
    /\ length (free_of (length x_old) fixed ++ fixed) = length x_old.
Proof.
  intros H. destruct (_nfd_solve_steps _ _ _ _ _ _ _ _ _ H).
  exists x_old.
  pose proof (take_rows_In_lt _ _ _ step_x_fixed) as Hin.
  destruct (init_fields _ _ _ _ _ step_stiff) as (_ & _ & Hc & _).
  destruct (dot_shape _ _ _ step_D_x) as [Hd _].
  repeat split; try assumption. congruence.
Qed.

(** A solve returns only for a list of fixed vertices that are vertices
    and are listed once each: the assembled matrix then has one row per
    vertex.  A vertex listed twice makes the matrix larger than the
    coordinate array, and the product with the coordinates raises. *)
Theorem solve_needs_distinct_fixed (w : World) (xyz : loc)
    (fixed : list nat) (s_calc : Z) (w' : World) (_xyz : loc) (r : Arr)
    (s : StressResult) (f : list R) :
  _nfd_solve w xyz fixed s_calc = Ok (w', (_xyz, r, s, f)) ->
  exists x_old,
    load (heap w) xyz = Ok x_old
    /\ NoDup fixed
    /\ (forall i, In i fixed -> (i < length x_old)%nat)
    /\ (length (free_of (length x_old) fixed) + length fixed)%nat
       = length x_old.
Proof.
  intros H.
  destruct (solve_sizes _ _ _ _ _ _ _ _ _ H) as (x_old & Hload & Hin & Hlen).
  exists x_old. split; [exact Hload |]. split; [| split].
  - exact (fixed_NoDup_of_count _ _ Hin Hlen).
  - exact Hin.
  - rewrite <- length_app. exact Hlen.
Qed.

End SolveFacts.

Section EquilibriumFacts.
Import NfdNumpy SolveSteps Equilibrium.
Context {G : Geometry}.

Lemma vadd_comm (a b : Vec3) : vadd a b = vadd b a.
Proof. apply vec3_eq; simpl; lra. Qed.

Lemma gather_dot_app (row : list R) (x : Arr) (l m : list nat) :
  gather_dot row x (l ++ m) = vadd (gather_dot row x l) (gather_dot row x m).
Proof.
  unfold gather_dot. induction l as [|j l IH]; simpl.
  - apply vec3_eq; simpl; lra.
  - rewrite IH. symmetry. apply vadd_assoc.
Qed.

Lemma gather_dot_perm (row : list R) (x : Arr) (l m : list nat) :
  Permutation l m -> gather_dot row x l = gather_dot row x m.
Proof.
  unfold gather_dot. induction 1 as [| j l m _ IH | j k l | l m n _ IH1 _ IH2];
    simpl.
  - reflexivity.
  - rewrite IH. reflexivity.
  - rewrite <- !vadd_assoc. f_equal. apply vadd_comm.
  - congruence.
Qed.

Lemma gather_dot_shift (m : R) (row : list R) (xj : Vec3) (x : Arr)
    (ids : list nat) :
  gather_dot (m :: row) (xj :: x) (map S ids) = gather_dot row x ids.
Proof.
  unfold gather_dot. rewrite map_map. reflexivity.
Qed.

Lemma dot_row_gather (row : list R) (x : Arr) :
  length row = length x ->
  dot_row row x = gather_dot row x (seq 0 (length x)).
Proof.
  revert x. induction row as [|m row IH]; intros [|xj x] H; simpl in H;
    try discriminate.
  - reflexivity.
  - simpl length. rewrite <- cons_seq, <- seq_shift.
    change (gather_dot (m :: row) (xj :: x) (0%nat :: map S (seq 0 (length x))))
      with (vadd (vscale xj m)
                 (gather_dot (m :: row) (xj :: x) (map S (seq 0 (length x))))).
    rewrite gather_dot_shift, <- IH by lia. reflexivity.
Qed.

(** The product of the columns [ids] of a row with the rows [ids] of the
    coordinates. *)
Lemma dot_row_taken (row : list R) (x : Arr) (ids : list nat) :
  forall xs, take_rows x ids = Ok xs ->
  dot_row (map (fun j => nth j row 0) ids) xs = gather_dot row x ids.
Proof.
  induction ids as [|k ids IH]; intros xs H.
  - injection H as <-. reflexivity.
  - unfold take_rows in H.
    apply mapM_Ok_cons_inv in H as (r & xs' & Hr & Hxs & ->).
    fold (take_rows x ids) in Hxs.
    destruct (nth_error x k) as [r'|] eqn:E; [| discriminate].
    injection Hr as ->. simpl.
    rewrite (IH _ Hxs). unfold gather_dot at 2. simpl.
    rewrite (nth_error_nth _ _ _ E). reflexivity.
Qed.

Lemma free_fixed_permutation (v : nat) (fixed : list nat) :
  NoDup fixed -> (forall i, In i fixed -> (i < v)%nat) ->
  Permutation (free_of v fixed ++ fixed) (seq 0 v).
Proof.
  intros Hnd Hin. apply NoDup_Permutation.
  - apply NoDup_app; [apply free_of_NoDup | exact Hnd |].
    intros i Hi. apply free_of_In in Hi. tauto.
  - apply seq_NoDup.
  - intros i. rewrite in_app_iff, free_of_In, in_seq.
    split.
    + intros [[Hi _] | Hi]; [lia | specialize (Hin i Hi); lia].
    + intros [_ Hi]. destruct (in_dec Nat.eq_dec i fixed); [right | left];
        auto.
Qed.

Lemma ix__Ok_inv (M N : Mat) (rs cs : list nat) :
  ix_ M rs cs = Ok N ->
  N = mkMat (length cs) (map (fun i => map (fun j => entry M i j) cs) rs).
Proof.
  unfold ix_. destruct (_ && _); [| discriminate].
  intros H; injection H as <-. reflexivity.
Qed.

Lemma take_rows_nth (x xs : Arr) (ids : list nat) (a : nat) :
  take_rows x ids = Ok xs -> (a < length ids)%nat ->
  nth a xs vzero = nth (nth a ids 0%nat) x vzero.
Proof.
  revert xs a. induction ids as [|k ids IH]; intros xs a H Ha;
    [simpl in Ha; lia |].
  unfold take_rows in H.
  apply mapM_Ok_cons_inv in H as (r & xs' & Hr & Hxs & ->).
  fold (take_rows x ids) in Hxs.
  destruct (nth_error x k) as [r'|] eqn:E; [| discriminate].
  injection Hr as ->.
  destruct a as [|a]; simpl.
  - symmetry. apply nth_error_nth. exact E.
  - apply IH; [exact Hxs | simpl in Ha; lia].
Qed.

Lemma nth_map2_vsub (a b : Arr) (k : nat) :
  length a = length b -> (k < length a)%nat ->
  nth k (map2 vsub a b) vzero = vsub (nth k a vzero) (nth k b vzero).
Proof.
  revert b k. induction a as [|x a IH]; intros [|y b] k Hl Hk; simpl in *;
    try lia.
  destruct k as [|k]; [reflexivity |]. apply IH; lia.
Qed.

(** After a solve, the product of the assembled stiffness matrix with the
    new coordinates is the load on every free vertex: the geometry that the
    solve returns is in equilibrium with the loads there. *)
Theorem free_vertices_in_equilibrium (w : World) (xyz : loc)
    (fixed : list nat) (s_calc : Z) (w' : World) (_xyz : loc) (r : Arr)
    (s : StressResult) (f : list R) :
  spsolve_solves ->
  _nfd_solve w xyz fixed s_calc = Ok (w', (_xyz, r, s, f)) ->
  exists (x_new : Arr) (K : StiffnessMatrixAssembler.t),
    load (heap w') _xyz = Ok x_new
    /\ StiffnessMatrixAssembler.__init__ (free_of (length x_new) fixed) fixed
         (edges w) (faces w) = Ok K
    /\ forall i, In i (free_of (length x_new) fixed) ->
         dot_row (nth i (mrows (StiffnessMatrixAssembler.matrix K)) []) x_new
         = nth i (LoadMatrixAssembler.matrix (loads w')) vzero.
Proof.
  intros Hsp H.
  destruct (solve_sizes _ _ _ _ _ _ _ _ _ H) as (x0 & Hx0 & Hfix & Hcount).
  pose proof (fixed_NoDup_of_count _ _ Hfix Hcount) as Hnd.
  rewrite length_app in Hcount.
  destruct (_nfd_solve_steps _ _ _ _ _ _ _ _ _ H).
  assert (x0 = x_old) by congruence. subst x0.
  set (free := free_of (length x_old) fixed) in *.
  set (M := StiffnessMatrixAssembler.matrix stiff) in *.
  pose proof (Hsp _ _ _ step_sol) as Hsolved.
  destruct (init_fields _ _ _ _ _ step_stiff) as (Efree & Efixed & Hc & Hr).
  fold M in Hc, Hr. rewrite length_app in Hc, Hr.
  unfold StiffnessMatrixAssembler.free_matrix in step_Di.
  unfold StiffnessMatrixAssembler.fixed_matrix in step_Df.
  rewrite Efree in step_Di, step_Df. rewrite Efixed in step_Df.
  apply ix__Ok_inv in step_Di. apply ix__Ok_inv in step_Df.
  fold M in step_Di, step_Df.
  destruct (dot_shape _ _ _ Hsolved) as [Hc1 Hrhs].
  destruct (dot_shape _ _ _ step_Df_x) as [_ HDfx].
  rewrite step_Di in Hc1, Hrhs. rewrite step_Df in HDfx.
  simpl in Hc1, Hrhs, HDfx.
  destruct (set_rows_free _ _ _ _ step_assign) as (Hlen & Hother & Htake).
  fold free in Hother, Htake. specialize (Htake (eq_sym Hc1)).
  assert (Hxf : take_rows x_new fixed = Ok x_fixed).
  { rewrite <- step_x_fixed. apply take_rows_ext.
    intros i Hi. apply Hother. intros Hf. apply free_of_In in Hf. tauto. }
  exists x_new, stiff. rewrite Hlen. fold free. fold M.
  split; [subst _xyz; rewrite step_heap; apply load_alloc_new |].
  split; [exact step_stiff |].
  intros i Hi.
  destruct (In_nth free i 0%nat Hi) as (a & Ha & Ea).
  set (row := nth i (mrows M) []).
  assert (Hi_lt : (i < length x_old)%nat)
    by (apply free_of_In in Hi; tauto).
  assert (Hrow : length row = length x_new).
  { destruct (assembled_lists _ _ _ _ _ step_stiff) as (_ & _ & HM).
    destruct (coo_matrix_inv _ _ _ _ _ HM) as (_ & _ & EM).
    unfold Contribution.v_count in EM. rewrite length_app in EM.
    fold free in EM. rewrite Hcount in EM.
    unfold row, M, StiffnessMatrixAssembler.matrix. rewrite EM. simpl.
    rewrite nth_map_seq by exact Hi_lt.
    rewrite length_map, length_seq. lia. }
  assert (Hentry : forall ids, map (fun j => entry M i j) ids
                               = map (fun j => nth j row 0) ids)
    by reflexivity.
  (* the free columns *)
  assert (Hfree_part : gather_dot row x_new free = nth a rhs vzero).
  { rewrite <- (dot_row_taken row x_new free sol Htake), <- Hentry.
    rewrite Hrhs.
    rewrite nth_indep with (d' := dot_row [] sol)
      by (rewrite !length_map; exact Ha).
    rewrite (map_nth (fun row' => dot_row row' sol)).
    set (g := fun i0 => map (fun j => entry M i0 j) free).
    rewrite (nth_indep (map g free) _ (g 0%nat))
      by (rewrite length_map; exact Ha).
    rewrite (map_nth g free 0%nat a), Ea. reflexivity. }
  (* the fixed columns *)
  assert (Hfixed_part : gather_dot row x_new fixed = nth a Df_x vzero).
  { rewrite <- (dot_row_taken row x_new fixed x_fixed Hxf), <- Hentry.
    rewrite HDfx.
    rewrite nth_indep with (d' := dot_row [] x_fixed)
      by (rewrite !length_map; exact Ha).
    rewrite (map_nth (fun row' => dot_row row' x_fixed)).
    set (g := fun i0 => map (fun j => entry M i0 j) fixed).
    rewrite (nth_indep (map g free) _ (g 0%nat))
      by (rewrite length_map; exact Ha).
    rewrite (map_nth g free 0%nat a), Ea. reflexivity. }
  (* the right-hand side *)
  assert (Hpl : length p_free = length free)
    by (apply (length_mapM _ _ _ step_p_free)).
  assert (Hdl : length Df_x = length free)
    by (rewrite HDfx, !length_map; reflexivity).
  rewrite asub_same_length in step_rhs by lia.
  injection step_rhs as Erhs.
  assert (Hrhs_a : nth a rhs vzero
                   = vsub (nth i (LoadMatrixAssembler.matrix (loads w')) vzero)
                          (nth a Df_x vzero)).
  { rewrite <- Erhs, nth_map2_vsub by lia.
    rewrite (take_rows_nth _ _ _ a step_p_free Ha), Ea. reflexivity. }
  (* all columns *)
  rewrite (dot_row_gather row x_new Hrow).
  rewrite <- (gather_dot_perm row x_new (free ++ fixed)
                (seq 0 (length x_new))).
  - rewrite gather_dot_app, Hfree_part, Hfixed_part, Hrhs_a.
    apply vec3_eq; simpl; lra.
  - rewrite Hlen. apply free_fixed_permutation; assumption.
Qed.

End EquilibriumFacts.

Section DriverFacts.
Import NfdNumpy SolveSteps OuterLoop.
Context {G : Geometry}.

(** With [kmax] zero or negative the loop body never runs, and the call
    ends in a NameError from the unset loop variables once the load
    assembler is built; it returns for no input. *)
Theorem nonpositive_kmax_raises (faces : list NaturalFace)
    (edges : list NaturalEdge) (vertices : Arr) (fixed : list nat)
    (vertex_loads global_face_loads local_face_loads : option Arr)
    (s_calc : Z) (s_tol xyz_tol : R) (kmax : Z) :
  (kmax <= 0)%Z ->
  (forall loads,
     LoadMatrixAssembler.__init__ (length vertices) faces vertex_loads
       global_face_loads local_face_loads = Ok loads ->
     nfd_ur faces edges vertices fixed vertex_loads global_face_loads
       local_face_loads s_calc s_tol xyz_tol kmax = Raise NameError)
  /\ (forall out,
        nfd_ur faces edges vertices fixed vertex_loads global_face_loads
          local_face_loads s_calc s_tol xyz_tol kmax <> Ok out).
Proof.
  intros Hk.
  assert (Hne : (kmax =? 1)%Z = false) by (apply Z.eqb_neq; lia).
  assert (Hr : range kmax = []).
  { unfold range. replace (Z.to_nat kmax) with 0%nat by lia. reflexivity. }
  assert (H : forall loads,
            LoadMatrixAssembler.__init__ (length vertices) faces vertex_loads
              global_face_loads local_face_loads = Ok loads ->
            nfd_ur faces edges vertices fixed vertex_loads global_face_loads
              local_face_loads s_calc s_tol xyz_tol kmax = Raise NameError).
  { intros loads Hl. unfold nfd_ur. rewrite Hl. simpl.
    rewrite Hne, Hr. reflexivity. }
  split; [exact H |].
  intros out Hout.
  destruct (LoadMatrixAssembler.__init__ (length vertices) faces vertex_loads
              global_face_loads local_face_loads) as [loads|e] eqn:Hl.
  - rewrite (H loads eq_refl) in Hout. discriminate.
  - unfold nfd_ur in Hout. rewrite Hl in Hout. discriminate.
Qed.

Lemma iteration_solved (s_tol xyz_tol : R) (fixed : list nat) (w : World)
    (xyz : loc) (w' : World) (vars : loop_vars) :
  iteration s_tol xyz_tol fixed w xyz = Ok (w', vars) ->
  exists s,
    _nfd_solve w xyz fixed (-1)
    = Ok (w', (lv_xyz vars, lv_r vars, s, lv_f vars)).
Proof.
  unfold iteration. intros H.
  apply bind_Ok_inv in H as ([w1 [[[_xyz r] s] f]] & Hsolve & H).
  cbv beta iota zeta in H.
  apply bind_Ok_inv in H as (ds & _ & H).
  apply bind_Ok_inv in H as (x_prev & _ & H).
  apply bind_Ok_inv in H as (x_this & _ & H).
  apply bind_Ok_inv in H as (dx & _ & H).
  apply bind_Ok_inv in H as (xyz_d & _ & H).
  injection H as <- <-. simpl. eauto.
Qed.

(** What one solve does to the heap and to the rows of the fixed
    vertices. *)
Lemma solve_frame (w : World) (xyz : loc) (fixed : list nat) (s_calc : Z)
    (w' : World) (_xyz : loc) (r : Arr) (s : StressResult) (f : list R) :
  _nfd_solve w xyz fixed s_calc = Ok (w', (_xyz, r, s, f)) ->
  exists x_old x_new,
    load (heap w) xyz = Ok x_old
    /\ load (heap w') _xyz = Ok x_new
    /\ heap w' = heap w ++ [x_new]
    /\ _xyz = length (heap w)
    /\ length x_new = length x_old
    /\ forall i, In i fixed -> nth_error x_new i = nth_error x_old i.
Proof.
  intros H. destruct (_nfd_solve_steps _ _ _ _ _ _ _ _ _ H).
  exists x_old, x_new.
  destruct (set_rows_free _ _ _ _ step_assign) as (Hlen & Hother & _).
  repeat split; try assumption.
  - subst _xyz. rewrite step_heap. apply load_alloc_new.
  - intros i Hi. apply Hother. intros Hf. apply free_of_In in Hf. tauto.
Qed.

(** Over a sequence of passes the number of rows and the rows of the fixed
    vertices stay those of the first array. *)
Lemma runs_fixed_rows (s_tol xyz_tol : R) (fixed : list nat)
    (n : nat) (w : World) (xyz : loc) (w' : World) (vars : loop_vars) :
  runs s_tol xyz_tol fixed n w xyz w' vars ->
  exists x_first x_last,
    load (heap w) xyz = Ok x_first
    /\ load (heap w') (lv_xyz vars) = Ok x_last
    /\ length x_last = length x_first
    /\ forall i, In i fixed -> nth_error x_last i = nth_error x_first i.
Proof.
  induction 1 as [w xyz w' vars Hit
                 | n w xyz w1 vars1 w' vars Hit Hc Hr IH].
  - destruct (iteration_solved _ _ _ _ _ _ _ Hit) as (s & Hs).
    destruct (solve_frame _ _ _ _ _ _ _ _ _ Hs)
      as (x_old & x_new & H1 & H2 & H3 & H4 & H5 & H6).
    exists x_old, x_new. auto.
  - destruct (iteration_solved _ _ _ _ _ _ _ Hit) as (s & Hs).
    destruct (solve_frame _ _ _ _ _ _ _ _ _ Hs)
      as (x_old & x_new & H1 & H2 & H3 & H4 & H5 & H6).
    destruct IH as (x1 & x_last & J1 & J2 & J3 & J4).
    assert (x1 = x_new) by congruence. subst x1.
    exists x_old, x_last. repeat split; try assumption; try congruence.
    intros i Hi. rewrite (J4 i Hi). apply H6. exact Hi.
Qed.

(** Passes never write to an array that exists: [n] passes add [n] arrays
    to the heap, one per pass, and leave every earlier array, the
    caller's coordinates among them, as it was; the rows of the fixed
    vertices and the number of rows are those of the first array in every
    later one. *)
Theorem passes_allocate_and_keep (s_tol xyz_tol : R) (fixed : list nat)
    (n : nat) (w : World) (xyz : loc) (w' : World) (vars : loop_vars) :
  runs s_tol xyz_tol fixed n w xyz w' vars ->
  length (heap w') = (length (heap w) + n)%nat
  /\ (forall l a, load (heap w) l = Ok a -> load (heap w') l = Ok a)
  /\ exists x_first x_last,
       load (heap w) xyz = Ok x_first
       /\ load (heap w') (lv_xyz vars) = Ok x_last
       /\ length x_last = length x_first
       /\ forall i, In i fixed -> nth_error x_last i = nth_error x_first i.
Proof.
  intros Hruns.
  split; [| split; [| exact (runs_fixed_rows _ _ _ _ _ _ _ _ Hruns)]].
  - induction Hruns as [w xyz w' vars Hit
                       | n w xyz w1 vars1 w' vars Hit Hc Hr IH].
    + destruct (iteration_solved _ _ _ _ _ _ _ Hit) as (s & Hs).
      destruct (solve_frame _ _ _ _ _ _ _ _ _ Hs)
        as (x_old & x_new & _ & _ & H3 & _).
      rewrite H3, length_app. simpl. lia.
    + destruct (iteration_solved _ _ _ _ _ _ _ Hit) as (s & Hs).
      destruct (solve_frame _ _ _ _ _ _ _ _ _ Hs)
        as (x_old & x_new & _ & _ & H3 & _).
      rewrite IH, H3, length_app. simpl. lia.
  - induction Hruns as [w xyz w' vars Hit
                       | n w xyz w1 vars1 w' vars Hit Hc Hr IH];
      intros l a Hl.
    + destruct (iteration_solved _ _ _ _ _ _ _ Hit) as (s & Hs).
      destruct (solve_frame _ _ _ _ _ _ _ _ _ Hs)
        as (x_old & x_new & _ & _ & H3 & _).
      rewrite H3. apply load_app_old. exact Hl.
    + destruct (iteration_solved _ _ _ _ _ _ _ Hit) as (s & Hs).
      destruct (solve_frame _ _ _ _ _ _ _ _ _ Hs)
        as (x_old & x_new & _ & _ & H3 & _).
      apply IH. rewrite H3. apply load_app_old. exact Hl.
Qed.


(** Whatever [kmax] is, the coordinates that [nfd_ur] returns have as many
    rows as the vertices it was given, and every fixed vertex has the
    coordinates it was given. *)
Theorem fixed_vertices_keep_coordinates (faces : list NaturalFace)
    (edges : list NaturalEdge) (vertices : Arr) (fixed : list nat)
    (vertex_loads global_face_loads local_face_loads : option Arr)
    (s_calc : Z) (s_tol xyz_tol : R) (kmax : Z) (out : output) :
  nfd_ur faces edges vertices fixed vertex_loads global_face_loads
    local_face_loads s_calc s_tol xyz_tol kmax = Ok out ->
  length (ret_xyz out) = length vertices
  /\ forall i, In i fixed -> nth_error (ret_xyz out) i = nth_error vertices i.
Proof.
  unfold nfd_ur. intros H.
  apply bind_Ok_inv in H as (loads & Hl & H). simpl in H.
  destruct (kmax =? 1)%Z.
  - apply bind_Ok_inv in H as ([w [[[_xyz r] s] f]] & Hs & H).
    apply bind_Ok_inv in H as (a & Ha & H). injection H as <-. simpl.
    destruct (solve_frame _ _ _ _ _ _ _ _ _ Hs)
      as (x_old & x_new & H1 & H2 & _ & _ & H5 & H6).
    simpl in H1. injection H1 as <-.
    assert (a = x_new) by congruence. subst a. auto.
  - apply bind_Ok_inv in H as ([[w' xyz'] last] & Hloop & H).
    cbv beta iota in H. unfold range in Hloop.
    apply for_loop_runs in Hloop
      as [(_ & _ & _ & ->) | (n & vars & Hn & Hr & -> & -> & Hx)];
      [discriminate |].
    apply bind_Ok_inv in H as (a & Ha & H). injection H as <-. simpl.
    destruct (runs_fixed_rows _ _ _ _ _ _ _ _ Hr)
      as (x_first & x_last & J1 & J2 & J3 & J4).
    simpl in J1. injection J1 as <-.
    assert (a = x_last) by congruence. subst a. auto.
Qed.

End DriverFacts.

Section SolverFactsWitness.
Import NfdNumpy SolveSteps OuterLoop Examples.

(** The driver returns on the path example with up to three passes. *)
Lemma path_nfd_ur_returns :
  exists out,
    nfd_ur (G := geometry) [] path_edges path_vertices [0; 2]%nat
      (Some [vec3 0 0 0; vec3 0 0 4; vec3 0 0 0]) None None 1
      (1 / 2) (1 / 2) 3
    = Ok out.
Proof.
  destruct path_runs as (w' & vars & Hr & Hc).
  destruct (runs_loaded _ _ _ _ _ _ _ _ stress_rows_geometry Hr) as (a & Ha).
  assert (Hl : LoadMatrixAssembler.__init__ (G := geometry)
                 (length path_vertices) []
                 (Some [vec3 0 0 0; vec3 0 0 4; vec3 0 0 0]) None None
               = Ok path_loads) by reflexivity.
  pose proof (runs_for_loop _ _ _ _ _ _ _ _ Hr 3%nat 0%nat None
                ltac:(lia) (or_introl Hc)) as Hloop.
  eexists. unfold nfd_ur. rewrite Hl.
  change (range 3) with (map Z.of_nat (seq 0 3)).
  unfold bind at 1. unfold alloc. cbv beta iota zeta.
  change (length (@nil Arr)) with 0%nat.
  change ([] ++ [path_vertices]) with [path_vertices].
  change (3 =? 1)%Z with false. cbv iota.
  change (mkWorld [path_vertices] [] path_edges path_loads) with path_world.
  rewrite Hloop. unfold bind at 1. cbv beta iota. rewrite Ha. reflexivity.
Qed.

Lemma solve_needs_distinct_fixed_witness :
  exists w' _xyz r s f,
    _nfd_solve (G := geometry) path_world 0%nat [0; 2]%nat 1
    = Ok (w', (_xyz, r, s, f))
    /\ NoDup [0; 2]%nat
    /\ (length (free_of 3 [0; 2]%nat) + 2 = 3)%nat.
Proof.
  destruct path_solve_runs as (w' & _xyz & r & s & f & H).
  exists w', _xyz, r, s, f. split; [exact H |].
  destruct (solve_needs_distinct_fixed (G := geometry) _ _ _ _ _ _ _ _ _ H)
    as (x_old & Hold & Hnd & _ & Hcount).
  simpl in Hold. injection Hold as <-.
  split; [exact Hnd | exact Hcount].
Defined.

Lemma free_vertices_in_equilibrium_witness :
  exists w' _xyz r s f,
    _nfd_solve (G := geometry) path_world 0%nat [0; 2]%nat 1
    = Ok (w', (_xyz, r, s, f))
    /\ exists (x_new : Arr) (K : StiffnessMatrixAssembler.t),
         load (heap w') _xyz = Ok x_new
         /\ dot_row (nth 1 (mrows (StiffnessMatrixAssembler.matrix K)) [])
              x_new
            = nth 1 (LoadMatrixAssembler.matrix (loads w')) vzero.
Proof.
  destruct path_solve_runs as (w' & _xyz & r & s & f & H).
  exists w', _xyz, r, s, f. split; [exact H |].
  destruct (free_vertices_in_equilibrium (G := geometry) _ _ _ _ _ _ _ _ _
              spsolve_1_solves H) as (x_new & K & Hnew & HK & Heq).
  exists x_new, K. split; [exact Hnew |].
  apply Heq.
  destruct (solve_frame (G := geometry) _ _ _ _ _ _ _ _ _ H)
    as (x0 & x1 & H0 & H1 & _ & _ & Hlen & _).
  assert (x1 = x_new) by congruence. subst x1.
  simpl in H0. injection H0 as <-. rewrite Hlen.
  simpl. auto.
Defined.

Lemma nonpositive_kmax_raises_witness :
  nfd_ur (G := geometry) [] path_edges path_vertices [0; 2]%nat
    (Some [vec3 0 0 0; vec3 0 0 4; vec3 0 0 0]) None None 1
    (1 / 2) (1 / 2) 0
  = Raise NameError.
Proof.
  destruct (nonpositive_kmax_raises (G := geometry) [] path_edges
              path_vertices [0; 2]%nat
              (Some [vec3 0 0 0; vec3 0 0 4; vec3 0 0 0]) None None 1
              (1 / 2) (1 / 2) 0) as [Hraise _]; [lia |].
  apply (Hraise path_loads). reflexivity.
Defined.

Lemma passes_allocate_and_keep_witness :
  exists w' vars,
    runs (G := geometry) (1 / 2) (1 / 2) [0; 2]%nat 2 path_world 0%nat w' vars
    /\ length (heap w') = 3%nat
    /\ load (heap w') 0%nat = Ok path_vertices.
Proof.
  destruct path_runs as (w' & vars & Hr & _).
  exists w', vars. split; [exact Hr |].
  destruct (passes_allocate_and_keep (G := geometry) _ _ _ _ _ _ _ _ Hr)
    as (Hlen & Hkeep & _).
  split; [exact Hlen |]. apply Hkeep. reflexivity.
Defined.

Lemma fixed_vertices_keep_coordinates_witness :
  exists out,
    nfd_ur (G := geometry) [] path_edges path_vertices [0; 2]%nat
      (Some [vec3 0 0 0; vec3 0 0 4; vec3 0 0 0]) None None 1
      (1 / 2) (1 / 2) 3
    = Ok out
    /\ length (ret_xyz out) = 3%nat
    /\ nth_error (ret_xyz out) 0 = Some (vec3 0 0 0)
    /\ nth_error (ret_xyz out) 2 = Some (vec3 2 0 0).
Proof.
  destruct path_nfd_ur_returns as (out & Hout).
  exists out. split; [exact Hout |].
  destruct (fixed_vertices_keep_coordinates (G := geometry) _ _ _ _ _ _ _ _
              _ _ _ _ Hout) as (Hlen & Hfix).
  split; [exact Hlen |]. split.
  - rewrite (Hfix 0%nat) by (simpl; auto). reflexivity.
  - rewrite (Hfix 2%nat) by (simpl; auto). reflexivity.
Defined.

End SolverFactsWitness.
